(** * Event ingestion and analytics pipeline

    A shallow embedding of the ingest-to-persist pipeline of the event
    analytics service: the Redis-backed dedup cache and rate limiter
    ([app/services/redis_service.py]), the ingest handler
    ([app/api/routes/events.py]), the queue worker
    ([app/workers/event_processor.py]), the event store writer and the
    analytics queries ([app/services/event_service.py]) with their routes
    ([app/api/routes/stats.py]), the queue publisher
    ([app/services/nats_service.py]), and the rate-limit dependency and
    response middleware around the ingest route
    ([app/api/dependencies.py], [app/api/middleware.py]), and the CSV
    import ([scripts/import_events.py]).

    External systems are modelled by the state the program can observe:
    Redis as a finite map from keys to values with an expiry instant, the
    JetStream stream as the list of published payloads, PostgreSQL as the
    list of committed rows plus the rows pending in the open transaction.
    Every operation takes the instant [now] at which it runs. *)

From Stdlib Require Import ZArith Floats Lia.
From stdpp Require Import gmap strings pretty list fin_maps sorting.

Open Scope Z_scope.

(* stdpp's solvers clear hypotheses that are sometimes already gone. *)
Set Warnings "-clear-no-such-hyp".

(** ** Exceptions and results *)

(** The exceptions the modelled code raises or lets through. *)
Inductive Exn :=
| HTTPException (status_code : Z) (detail : string) (headers : list (string * string))
| JSONDecodeError
| UnicodeDecodeError
| AttributeError
| ValidationError
| ValueError (msg : string)
| OverflowError
| DriverError
| PublishError.

Inductive Result (A : Type) :=
| Ok (a : A)
| Raise (e : Exn).
Arguments Ok {A} a.
Arguments Raise {A} e.

Definition is_ok {A} (r : Result A) : bool :=
  match r with Ok _ => true | Raise _ => false end.

(** A computation over a state [S] that may raise: the state reached is
    returned in both cases, since effects performed before a raise stay. *)
Definition M (S A : Type) : Type := S -> Result A * S.

Definition ret {S A} (a : A) : M S A := fun s => (Ok a, s).
Definition raise {S A} (e : Exn) : M S A := fun s => (Raise e, s).
Definition bind {S A B} (m : M S A) (k : A -> M S B) : M S B :=
  fun s => match m s with
           | (Ok a, s1) => k a s1
           | (Raise e, s1) => (Raise e, s1)
           end.
Definition modify {S} (f : S -> S) : M S unit := fun s => (Ok tt, f s).
(** [try: m except h]: run [m]; on a raise run the handler on the state
    reached. *)
Definition try_except {S A} (m : M S A) (h : Exn -> M S A) : M S A :=
  fun s => match m s with
           | (Ok a, s1) => (Ok a, s1)
           | (Raise e, s1) => h e s1
           end.

Notation "'let*' x := m 'in' k" := (bind m (fun x => k))
  (at level 10, x name, m at level 100, k at level 200, only parsing).
Notation "'let*' ' p := m 'in' k" := (bind m (fun x => match x with p => k end))
  (at level 10, p pattern, m at level 100, k at level 200, only parsing).
Notation "'do*' m 'in' k" := (bind m (fun _ => k))
  (at level 10, m at level 100, k at level 200, only parsing).

(** ** Data model *)

(** An event identifier is kept as its canonical 8-4-4-4-12 text, the form
    [str(event_id)] renders and the one every key and column holds. *)
Abbreviation UUID := string (only parsing).

(** Instants are seconds on one timeline, that of the store's session time
    zone, which the application is taken to share (a [date] parameter
    compared with [occurred_at] stands for its midnight); a calendar date
    is the number of its day on that timeline. *)
Definition DATE (occurred_at : Z) : Z := occurred_at / 86400.
Definition midnight (d : Z) : Z := d * 86400.

(** JSON documents. A number keeps its literal. *)
#[warnings="-register-all"]
Inductive JValue :=
| JNull
| JBool (b : bool)
| JNum (literal : string)
| JStr (s : string)
| JArr (items : list JValue)
| JObj (fields : list (string * JValue)).

(** [EventCreate] of [app/models/event.py]. *)
Record EventCreate := mkEvent {
  event_id : UUID;
  user_id : string;
  event_type : string;
  occurred_at : Z;
  properties : list (string * JValue)
}.

(** ** Redis *)

Module Redis.

(** A key holds a value and, when it has a time to live, the instant at
    which it expires. Every value this program writes is a decimal
    integer (the marker ["1"], the [INCR] counter). *)
Record Entry := mkEntry { value : Z; expires_at : option Z }.

Definition is_live (now : Z) (e : Entry) : bool :=
  match expires_at e with
  | None => true
  | Some t => now <? t
  end.

(** What a command sees under a key: an expired entry is no entry. *)
Definition lookup_live (now : Z) (d : gmap string Entry) (key : string) : option Entry :=
  match d !! key with
  | Some e => if is_live now e then Some e else None
  | None => None
  end.

Inductive Command :=
| EXISTS (key : string)
| SET_NX_EX (key : string) (v : Z) (ex : Z)
| INCR (key : string)
| EXPIRE (key : string) (seconds : Z)
| GET (key : string).

(** Replies as redis-py decodes them. The server's refusals (a TTL that is
    not positive in a SET, a counter beyond 64 bits, a value that is no
    integer) are left out: the theorems that depend on the TTL take it
    positive, and every value written is a small integer. *)
Inductive Reply :=
| RInt (n : Z)
| RBool (b : bool)
| RStr (v : Z)
| RNone.

(** Python truthiness of a reply. *)
Definition truthy (r : Reply) : bool :=
  match r with
  | RInt n => negb (n =? 0)
  | RBool b => b
  | RStr _ => true
  | RNone => false
  end.

Definition exec (now : Z) (d : gmap string Entry) (c : Command)
  : gmap string Entry * Reply :=
  match c with
  | EXISTS key =>
      (d, RInt (if lookup_live now d key is Some _ then 1 else 0))
  | SET_NX_EX key v ex =>
      match lookup_live now d key with
      | Some _ => (d, RNone)
      | None => (<[key := mkEntry v (Some (now + ex))]> d, RBool true)
      end
  | INCR key =>
      match lookup_live now d key with
      | Some e => (<[key := mkEntry (value e + 1) (expires_at e)]> d, RInt (value e + 1))
      | None => (<[key := mkEntry 1 None]> d, RInt 1)
      end
  | EXPIRE key seconds =>
      match lookup_live now d key with
      | Some e => (<[key := mkEntry (value e) (Some (now + seconds))]> d, RBool true)
      | None => (d, RBool false)
      end
  | GET key =>
      (d, match lookup_live now d key with
          | Some e => RStr (value e)
          | None => RNone
          end)
  end.

(** [pipe.execute()]: the queued commands run in order at one instant,
    with nothing in between (redis-py pipelines are MULTI/EXEC). *)
Fixpoint execute (now : Z) (d : gmap string Entry) (pipe : list Command)
  : gmap string Entry * list Reply :=
  match pipe with
  | [] => (d, [])
  | c :: rest =>
      let '(d1, r) := exec now d c in
      let '(d2, rs) := execute now d1 rest in
      (d2, r :: rs)
  end.

End Redis.

(** ** Dedup cache client *)

Module IdempotencyService.
Import Redis.

Record t := mk { ttl : Z }.

Definition _get_key (event_id : UUID) : string := "event:seen:" +:+ event_id.

Definition is_duplicate (now : Z) (d : gmap string Entry) (event_id : UUID)
  : bool * gmap string Entry :=
  let key := _get_key event_id in
  let '(d1, r) := exec now d (EXISTS key) in
  (match r with RInt n => 0 <? n | _ => false end, d1).

Definition mark_as_seen (self : t) (now : Z) (d : gmap string Entry) (event_id : UUID)
  : bool * gmap string Entry :=
  let key := _get_key event_id in
  let '(d1, result) := exec now d (SET_NX_EX key 1 (ttl self)) in
  (match result with RNone => false | _ => true end, d1).

(** The loop over [zip(event_ids, results)]. *)
Definition split_step (acc : list UUID * list UUID) (p : UUID * Reply)
  : list UUID * list UUID :=
  let '(new_ids, duplicate_ids) := acc in
  let '(event_id, exists_) := p in
  if truthy exists_
  then (new_ids, duplicate_ids ++ [event_id])
  else (new_ids ++ [event_id], duplicate_ids).

Definition check_batch (now : Z) (d : gmap string Entry) (event_ids : list UUID)
  : (list UUID * list UUID) * gmap string Entry :=
  let pipe := map (fun event_id => EXISTS (_get_key event_id)) event_ids in
  let '(d1, results) := execute now d pipe in
  (foldl split_step ([], []) (zip event_ids results), d1).

Definition mark_batch_as_seen (self : t) (now : Z) (d : gmap string Entry)
    (event_ids : list UUID) : gmap string Entry :=
  let pipe := map (fun event_id => SET_NX_EX (_get_key event_id) 1 (ttl self)) event_ids in
  fst (execute now d pipe).

End IdempotencyService.

(** ** Configuration *)

(** The settings of [app/core/config.py] that the modelled code reads. *)
Record Settings := mkSettings {
  redis_idempotency_ttl : Z;
  rate_limit_enabled : bool;
  rate_limit_requests : Z;
  rate_limit_window : Z
}.

Definition default_settings : Settings :=
  {| redis_idempotency_ttl := 86400;
     rate_limit_enabled := true;
     rate_limit_requests := 1000;
     rate_limit_window := 60 |}.

(** ** Rate limiter *)

Module RateLimiter.
Import Redis.

Record t := mk { max_requests : Z; window : Z }.

Definition init (settings : Settings) : t :=
  {| max_requests := rate_limit_requests settings;
     window := rate_limit_window settings |}.

Definition _get_key (client_id : string) : string := "rate_limit:" +:+ client_id.

Definition is_allowed (settings : Settings) (self : t) (now : Z)
    (d : gmap string Entry) (client_id : string)
  : (bool * Z) * gmap string Entry :=
  if negb (rate_limit_enabled settings) then ((true, max_requests self), d)
  else
    let key := _get_key client_id in
    let pipe := [INCR key; EXPIRE key (window self)] in
    let '(d1, results) := execute now d pipe in
    let current_count := match results with RInt n :: _ => n | _ => 0 end in
    let remaining := Z.max 0 (max_requests self - current_count) in
    ((current_count <=? max_requests self, remaining), d1).

Definition get_remaining (self : t) (now : Z) (d : gmap string Entry)
    (client_id : string) : Z * gmap string Entry :=
  let key := _get_key client_id in
  let '(d1, count) := exec now d (GET key) in
  (match count with
   | RStr n => Z.max 0 (max_requests self - n)
   | _ => max_requests self
   end, d1).

End RateLimiter.

(** ** Metrics *)

(** The counters of [app/core/metrics.py] that the modelled code touches;
    a labelled counter is a map from the label value to its count. The
    histograms of durations are left out. *)
Record Metrics := mkMetrics {
  events_received_total : gmap string Z;
  events_ingested_total : gmap string Z;
  events_duplicate_total : Z;
  events_failed_total : gmap string Z;
  rate_limit_exceeded_total : gmap string Z
}.

Definition no_metrics : Metrics :=
  {| events_received_total := ∅; events_ingested_total := ∅;
     events_duplicate_total := 0; events_failed_total := ∅;
     rate_limit_exceeded_total := ∅ |}.

Definition counter (c : gmap string Z) (label : string) : Z := default 0 (c !! label).

Definition inc (label : string) (n : Z) (c : gmap string Z) : gmap string Z :=
  <[label := counter c label + n]> c.

Definition inc_received (ty : string) (m : Metrics) : Metrics :=
  {| events_received_total := inc ty 1 (events_received_total m);
     events_ingested_total := events_ingested_total m;
     events_duplicate_total := events_duplicate_total m;
     events_failed_total := events_failed_total m;
     rate_limit_exceeded_total := rate_limit_exceeded_total m |}.

Definition inc_ingested (ty : string) (m : Metrics) : Metrics :=
  {| events_received_total := events_received_total m;
     events_ingested_total := inc ty 1 (events_ingested_total m);
     events_duplicate_total := events_duplicate_total m;
     events_failed_total := events_failed_total m;
     rate_limit_exceeded_total := rate_limit_exceeded_total m |}.

Definition inc_duplicate (n : Z) (m : Metrics) : Metrics :=
  {| events_received_total := events_received_total m;
     events_ingested_total := events_ingested_total m;
     events_duplicate_total := events_duplicate_total m + n;
     events_failed_total := events_failed_total m;
     rate_limit_exceeded_total := rate_limit_exceeded_total m |}.

Definition inc_failed (reason : string) (m : Metrics) : Metrics :=
  {| events_received_total := events_received_total m;
     events_ingested_total := events_ingested_total m;
     events_duplicate_total := events_duplicate_total m;
     events_failed_total := inc reason 1 (events_failed_total m);
     rate_limit_exceeded_total := rate_limit_exceeded_total m |}.

Definition inc_rate_limit_exceeded (client_ip : string) (m : Metrics) : Metrics :=
  {| events_received_total := events_received_total m;
     events_ingested_total := events_ingested_total m;
     events_duplicate_total := events_duplicate_total m;
     events_failed_total := events_failed_total m;
     rate_limit_exceeded_total := inc client_ip 1 (rate_limit_exceeded_total m) |}.

(** ** The world the handlers and the worker act on *)

(** What a message of the stream holds, by what
    [json.loads(msg.data.decode())] makes of it: bytes that are not UTF-8,
    text that is not a JSON document, or the encoding of a document. *)
Inductive Payload :=
| NotUtf8
| NotJson (text : string)
| Json (doc : JValue).

(** How the worker disposes of a delivered message. *)
Inductive MsgOp :=
| Ack
| Nak (delay : Z)
| Term.

Record World := mkWorld {
  redis : gmap string Redis.Entry;
  (** the JetStream stream, oldest message first *)
  stream : list Payload;
  (** the committed rows of table [events] *)
  events : list EventCreate;
  metrics : Metrics;
  (** the dispositions the broker received, oldest first *)
  dispositions : list (Payload * MsgOp)
}.

Definition set_redis (d : gmap string Redis.Entry) (w : World) : World :=
  {| redis := d; stream := stream w; events := events w;
     metrics := metrics w; dispositions := dispositions w |}.
Definition set_stream (s : list Payload) (w : World) : World :=
  {| redis := redis w; stream := s; events := events w;
     metrics := metrics w; dispositions := dispositions w |}.
Definition set_events (rows : list EventCreate) (w : World) : World :=
  {| redis := redis w; stream := stream w; events := rows;
     metrics := metrics w; dispositions := dispositions w |}.
Definition set_metrics (m : Metrics) (w : World) : World :=
  {| redis := redis w; stream := stream w; events := events w;
     metrics := m; dispositions := dispositions w |}.
Definition dispose (msg : Payload) (op : MsgOp) (w : World) : World :=
  {| redis := redis w; stream := stream w; events := events w;
     metrics := metrics w; dispositions := dispositions w ++ [(msg, op)] |}.

(** What lies outside the program: when the broker refuses a publication
    and when the database driver raises on an insert (given the instant
    and the state they act on), and how the wire format of identifiers
    and timestamps is read and written (pydantic's coercions and
    [model_dump(mode="json")]). *)
Record Env := mkEnv {
  js_fails : Z -> list Payload -> Payload -> bool;
  driver_fails : Z -> list EventCreate -> EventCreate -> bool;
  to_uuid : JValue -> option UUID;
  to_datetime : JValue -> option Z;
  dump_datetime : Z -> JValue
}.

(** ** Queue publisher *)

Module NATSPublisher.

(** [event.model_dump(mode="json")]. *)
Definition model_dump (env : Env) (event : EventCreate) : JValue :=
  JObj [("event_id", JStr (event_id event));
        ("user_id", JStr (user_id event));
        ("event_type", JStr (event_type event));
        ("occurred_at", dump_datetime env (occurred_at event));
        ("properties", JObj (properties event))].

Definition publish_event (env : Env) (now : Z) (event_data : JValue) : M World unit :=
  fun w =>
    let payload := Json event_data in
    if js_fails env now (stream w) payload then (Raise PublishError, w)
    else (Ok tt, set_stream (stream w ++ [payload]) w).

Fixpoint publish_batch (env : Env) (now : Z) (events : list JValue) : M World unit :=
  match events with
  | [] => ret tt
  | event :: rest =>
      do* publish_event env now event in
      publish_batch env now rest
  end.

End NATSPublisher.

(** ** Database sessions *)

Module Database.

(** A session sees the committed rows and the rows its open transaction
    has inserted. The store assigns [id] and [created_at]; the program
    reads neither, so a row is kept as the five columns it writes. *)
Record Session := mkSession {
  committed : list EventCreate;
  pending : list EventCreate
}.

Definition visible (s : Session) : list EventCreate := committed s ++ pending s.

Definition commit : M Session unit :=
  modify (fun s => {| committed := committed s ++ pending s; pending := [] |}).

Definition rollback (s : Session) : Session :=
  {| committed := committed s; pending := [] |}.

(** Closing a session releases its connection, which discards a
    transaction still open. *)
Definition close (s : Session) : Session :=
  {| committed := committed s; pending := [] |}.

(** [get_session], and [get_db_session] and [get_db] that iterate over it:
    the body runs on a fresh session over the store; a raise in the body
    reaches the caller after the open transaction is discarded, and the
    session is closed on every path. *)
Definition get_session {A} (body : M Session A) : M World A :=
  fun w =>
    match body {| committed := events w; pending := [] |} with
    | (Ok a, s) => (Ok a, set_events (committed (close s)) w)
    | (Raise e, s) => (Raise e, set_events (committed (close (rollback s))) w)
    end.

End Database.

(** ** Event store writer and analytics queries *)

(** Python's [date] holds the days 0001-01-01 to 9999-12-31, numbered by
    their ordinals; adding a [timedelta] that leaves the range raises. *)
Definition date_min : Z := 1.
Definition date_max : Z := 3652059.

Definition date_add (d days : Z) : Result Z :=
  let r := d + days in
  if (date_min <=? r) && (r <=? date_max) then Ok r else Raise OverflowError.

(** Rounding to the nearest integer of [num / den], ties to even
    ([den] positive). *)
Definition round_half_even (num den : Z) : Z :=
  let q := num / den in
  let r := num mod den in
  match 2 * r ?= den with
  | Lt => q
  | Gt => q + 1
  | Eq => if Z.even q then q else q + 1
  end.

Definition float_of_Z (n : Z) : float := PrimFloat.of_uint63 (Uint63.of_Z n).

(** [round(x, ndigits)] on a float, for [ndigits >= 0]: an integral [x] is
    its own rounding; otherwise the exact value [m * 2 ^ e] of [x] is
    rounded half-even to [ndigits] decimals and the decimal read back as
    the nearest float (the reading is exact while
    [|x| * 10 ^ ndigits < 2 ^ 53], which covers every percentage). *)
Definition py_round (x : float) (ndigits : Z) : float :=
  match Prim2SF x with
  | S754_finite s m e =>
      if 0 <=? e then x
      else
        let scale := 10 ^ ndigits in
        let n := round_half_even (Z.pos m * scale) (2 ^ (- e)) in
        let r := PrimFloat.div (float_of_Z n) (float_of_Z scale) in
        if s then PrimFloat.opp r else r
  | _ => x
  end.

(** [RetentionCohort] of [app/models/event.py]. *)
Record RetentionCohort := mkCohort {
  cohort_start : Z;
  window_0 : Z;
  window_1 : option Z;
  window_2 : option Z;
  window_3 : option Z;
  retention_rate_1 : option float;
  retention_rate_2 : option float;
  retention_rate_3 : option float
}.

Module EventService.
Import Database.

Definition execute_insert (env : Env) (now : Z) (event : EventCreate) : M Session Z :=
  fun s =>
    if driver_fails env now (visible s) event then (Raise DriverError, s)
    else if bool_decide (event_id event ∈ map event_id (visible s)) then (Ok 0, s)
    else (Ok 1, {| committed := committed s; pending := pending s ++ [event] |}).

(** The loop of [insert_events], with its two counters. *)
Fixpoint insert_loop (env : Env) (now : Z) (events : list EventCreate)
    (inserted duplicates : Z) : M Session (Z * Z) :=
  match events with
  | [] => ret (inserted, duplicates)
  | event :: rest =>
      let* rowcount := execute_insert env now event in
      if 0 <? rowcount
      then insert_loop env now rest (inserted + 1) duplicates
      else insert_loop env now rest inserted (duplicates + 1)
  end.

Definition insert_events (env : Env) (now : Z) (events : list EventCreate)
  : M Session (Z * Z) :=
  let* counts := insert_loop env now events 0 0 in
  do* commit in
  ret counts.

(** The rows of one calendar date. *)
Definition on_date (d : Z) (rows : list EventCreate) : list EventCreate :=
  filter (fun r => DATE (occurred_at r) = d) rows.

Definition distinct_users (rows : list EventCreate) : gset string :=
  list_to_set (map user_id rows).

(** [get_dau]: one pair (date, active_users) per day. *)
Definition get_dau (from_date to_date : Z) : M Session (list (Z * Z)) :=
  fun s =>
    let from_dt := from_date in
    match date_add to_date 1 with
    | Raise e => (Raise e, s)
    | Ok to_dt =>
        let hits := filter (fun r => midnight from_dt <= occurred_at r
                                     ∧ occurred_at r < midnight to_dt) (visible s) in
        let days := merge_sort Z.le (remove_dups (map (fun r => DATE (occurred_at r)) hits)) in
        (Ok (map (fun d => (d, Z.of_nat (size (distinct_users (on_date d hits))))) days), s)
    end.

(** [setattr(cohort, f"window_{window}", v)] and
    [setattr(cohort, f"retention_rate_{window}", v)]: the model declares the
    fields of windows 1 to 3 and refuses any other name. *)
Definition setattr_window (c : RetentionCohort) (window : Z) (v : Z)
  : Result RetentionCohort :=
  if window =? 0 then
    Ok (mkCohort (cohort_start c) v (window_1 c) (window_2 c) (window_3 c)
          (retention_rate_1 c) (retention_rate_2 c) (retention_rate_3 c))
  else if window =? 1 then
    Ok (mkCohort (cohort_start c) (window_0 c) (Some v) (window_2 c) (window_3 c)
          (retention_rate_1 c) (retention_rate_2 c) (retention_rate_3 c))
  else if window =? 2 then
    Ok (mkCohort (cohort_start c) (window_0 c) (window_1 c) (Some v) (window_3 c)
          (retention_rate_1 c) (retention_rate_2 c) (retention_rate_3 c))
  else if window =? 3 then
    Ok (mkCohort (cohort_start c) (window_0 c) (window_1 c) (window_2 c) (Some v)
          (retention_rate_1 c) (retention_rate_2 c) (retention_rate_3 c))
  else Raise (ValueError ("RetentionCohort object has no field window_" +:+ pretty window)).

Definition setattr_retention_rate (c : RetentionCohort) (window : Z) (v : float)
  : Result RetentionCohort :=
  if window =? 1 then
    Ok (mkCohort (cohort_start c) (window_0 c) (window_1 c) (window_2 c) (window_3 c)
          (Some v) (retention_rate_2 c) (retention_rate_3 c))
  else if window =? 2 then
    Ok (mkCohort (cohort_start c) (window_0 c) (window_1 c) (window_2 c) (window_3 c)
          (retention_rate_1 c) (Some v) (retention_rate_3 c))
  else if window =? 3 then
    Ok (mkCohort (cohort_start c) (window_0 c) (window_1 c) (window_2 c) (window_3 c)
          (retention_rate_1 c) (retention_rate_2 c) (Some v))
  else Raise (ValueError ("RetentionCohort object has no field retention_rate_"
                          +:+ pretty window)).

(** The days between the cohort date and window [window]. *)
Definition window_days (window_type : string) (window : Z) : Z :=
  if bool_decide (window_type = "daily") then window else 7 * window.

(** The count of the window query: the distinct users of [window_date]
    that belong to the cohort. *)
Definition retained_on (rows : list EventCreate) (cohort_users : gset string)
    (window_date : Z) : Z :=
  Z.of_nat (size (distinct_users
                    (filter (fun r => user_id r ∈ cohort_users) (on_date window_date rows)))).

(** One iteration of the loop over [range(1, windows + 1)]. *)
Definition retention_step (rows : list EventCreate) (start_date : Z)
    (window_type : string) (cohort_users : gset string)
    (cohort : RetentionCohort) (window : Z) : Result RetentionCohort :=
  match date_add start_date (window_days window_type window) with
  | Raise e => Raise e
  | Ok window_date =>
      let retained_users := retained_on rows cohort_users window_date in
      let retention_rate :=
        PrimFloat.mul (PrimFloat.div (float_of_Z retained_users)
                                     (float_of_Z (Z.of_nat (size cohort_users))))
                      (float_of_Z 100) in
      match setattr_window cohort window retained_users with
      | Raise e => Raise e
      | Ok cohort1 => setattr_retention_rate cohort1 window (py_round retention_rate 2)
      end
  end.

Fixpoint retention_loop (rows : list EventCreate) (start_date : Z)
    (window_type : string) (cohort_users : gset string)
    (cohort : RetentionCohort) (windows : list Z) : Result RetentionCohort :=
  match windows with
  | [] => Ok cohort
  | window :: rest =>
      match retention_step rows start_date window_type cohort_users cohort window with
      | Raise e => Raise e
      | Ok cohort1 => retention_loop rows start_date window_type cohort_users cohort1 rest
      end
  end.

(** [get_retention]. The driver sends the first and the last day of the
    calendar as the dates -infinity and infinity, which are the date of no
    row; the two queries are modelled for the days between them, and the
    theorems on the cohorts keep the cohort and window dates there. *)
Definition get_retention (start_date : Z) (windows : Z) (window_type : string)
  : M Session (list RetentionCohort) :=
  fun s =>
    let rows := visible s in
    let cohort_users := distinct_users (on_date start_date rows) in
    if bool_decide (size cohort_users = 0%nat) then (Ok [], s)
    else
      let cohort := mkCohort start_date (Z.of_nat (size cohort_users))
                             None None None None None None in
      match retention_loop rows start_date window_type cohort_users cohort
              (seqZ 1 windows) with
      | Raise e => (Raise e, s)
      | Ok cohort1 => (Ok [cohort1], s)
      end.

End EventService.

(** ** HTTP layer *)

(** The part of a request the dependencies read and write: the client
    address, and [request.state.rate_limit_remaining]. *)
Record Request := mkRequest {
  client : option string;
  rate_limit_remaining : option Z
}.

(** [request.client.host if request.client else "unknown"]. *)
Definition client_host (request : Request) : string :=
  match client request with
  | Some host => host
  | None => "unknown"
  end.

(** [check_rate_limit] of [app/api/dependencies.py]. The request is
    returned as the call leaves it, also when it raises. *)
Definition check_rate_limit (settings : Settings) (rate_limiter : RateLimiter.t)
    (now : Z) (request : Request) (w : World) : Result unit * Request * World :=
  let client_ip := client_host request in
  let '((is_allowed, remaining), d1) :=
    RateLimiter.is_allowed settings rate_limiter now (redis w) client_ip in
  let w1 := set_redis d1 w in
  let request1 := {| client := client request; rate_limit_remaining := Some remaining |} in
  if negb is_allowed then
    let w2 := set_metrics (inc_rate_limit_exceeded client_ip (metrics w1)) w1 in
    (Raise (HTTPException 429 "Rate limit exceeded. Please try again later."
              [("X-RateLimit-Remaining", "0")]),
     request1, w2)
  else (Ok tt, request1, w1).

(** [EventResponse] of [app/models/event.py]. *)
Record EventResponse := mkResponse {
  accepted : Z;
  duplicates : Z;
  failed : Z;
  message : string
}.

Definition len {A} (l : list A) : Z := Z.of_nat (length l).

(** [ingest_events] of [app/api/routes/events.py]. A returned response is
    sent with status 202. The cache is taken to answer; a cache failure
    would raise into the same handler as a publish failure does. *)
Definition ingest_events (env : Env) (idempotency_service : IdempotencyService.t)
    (now : Z) (batch : list EventCreate) : M World EventResponse :=
  try_except
    (let event_ids := map event_id batch in
     let* '(new_ids, duplicate_ids) :=
       (fun w => let '(r, d1) := IdempotencyService.check_batch now (redis w) event_ids in
                 (Ok r, set_redis d1 w)) in
     let new_events := filter (fun event => event_id event ∈ new_ids) batch in
     do* modify (fun w =>
           set_metrics (foldl (fun m event => inc_received (event_type event) m)
                              (metrics w) batch) w) in
     do* modify (fun w => set_metrics (inc_duplicate (len duplicate_ids) (metrics w)) w) in
     match new_events with
     | [] =>
         ret {| accepted := 0; duplicates := len duplicate_ids; failed := 0;
                message := "All events were duplicates" |}
     | _ :: _ =>
         do* modify (fun w =>
               set_redis (IdempotencyService.mark_batch_as_seen
                            idempotency_service now (redis w) new_ids) w) in
         let event_dicts := map (NATSPublisher.model_dump env) new_events in
         do* NATSPublisher.publish_batch env now event_dicts in
         ret {| accepted := len new_events; duplicates := len duplicate_ids; failed := 0;
                message := "Accepted " +:+ pretty (len new_events)
                           +:+ " events for processing" |}
     end)
    (fun e =>
       do* modify (fun w => set_metrics (inc_failed "ingestion_error" (metrics w)) w) in
       raise (HTTPException 500 "Failed to process events" [])).

(** [get_daily_active_users] of [app/api/routes/stats.py]. *)
Definition get_daily_active_users (from_date to_date : Z) : M World (list (Z * Z)) :=
  if bool_decide (from_date > to_date)
  then raise (HTTPException 400 "from_date must be before to_date" [])
  else Database.get_session (EventService.get_dau from_date to_date).

(** [get_retention] of [app/api/routes/stats.py]: the cohorts of the
    response. *)
Definition get_retention (start_date windows : Z) (window_type : string)
  : M World (list RetentionCohort) :=
  Database.get_session (EventService.get_retention start_date windows window_type).

(** ** Queue consumer worker *)

Module Worker.

(** [json.loads(msg.data.decode())]. *)
Definition json_loads (data : Payload) : Result JValue :=
  match data with
  | NotUtf8 => Raise UnicodeDecodeError
  | NotJson _ => Raise JSONDecodeError
  | Json doc => Ok doc
  end.

(** A dict built by [json.loads] keeps the last of repeated keys. *)
Fixpoint dict_get (fields : list (string * JValue)) (key : string) : option JValue :=
  match fields with
  | [] => None
  | (k, v) :: rest =>
      match dict_get rest key with
      | Some v' => Some v'
      | None => if bool_decide (k = key) then Some v else None
      end
  end.

(** A text is kept as the bytes of its UTF-8 encoding. [len(s)] counts
    its characters: the bytes that are not continuation bytes (those from
    128 to 191). *)
Definition is_continuation_byte (a : Ascii.ascii) : bool :=
  let n := Ascii.N_of_ascii a in
  ((128 <=? n) && (n <=? 191))%N.

Fixpoint py_len (s : string) : nat :=
  match s with
  | EmptyString => O
  | String a rest => ((if is_continuation_byte a then 0 else 1) + py_len rest)%nat
  end.

(** [min_length] and [max_length] of a [str] field bound the number of
    characters. *)
Definition in_length (s : string) (lo hi : nat) : bool :=
  (lo <=? py_len s)%nat && (py_len s <=? hi)%nat.

(** [EventCreate] built from the keys of [event_data]: every field is validated by its
    declaration in [EventBase]; any failure raises a validation error. *)
Definition EventCreate_init (env : Env) (now : Z) (event_data : list (string * JValue))
  : Result EventCreate :=
  match dict_get event_data "event_id", dict_get event_data "user_id",
        dict_get event_data "event_type", dict_get event_data "occurred_at" with
  | Some id, Some (JStr user), Some (JStr ty), Some at_ =>
      match to_uuid env id, to_datetime env at_ with
      | Some event_id, Some occurred_at =>
          if in_length user 1 255 && in_length ty 1 100 && negb (now <? occurred_at)
          then
            match dict_get event_data "properties" with
            | None => Ok (mkEvent event_id user ty occurred_at [])
            | Some (JObj props) => Ok (mkEvent event_id user ty occurred_at props)
            | Some _ => Raise ValidationError
            end
          else Raise ValidationError
      | _, _ => Raise ValidationError
      end
  | _, _, _, _ => Raise ValidationError
  end.

(** The body of the [try] of [process_event]. *)
Definition process_body (env : Env) (now : Z) (msg : Payload) : M World unit :=
  let* event_data := (fun w => (json_loads msg, w)) in
  match event_data with
  | JObj fields =>
      let* event := (fun w => (EventCreate_init env now fields, w)) in
      let* '(inserted, duplicates) :=
        Database.get_session (EventService.insert_events env now [event]) in
      do* (if 0 <? inserted
           then modify (fun w => set_metrics (inc_ingested (event_type event) (metrics w)) w)
           else ret tt) in
      modify (dispose msg Ack)
  | _ => raise AttributeError
  end.

Definition process_event (env : Env) (now : Z) (msg : Payload) : M World unit :=
  try_except (process_body env now msg)
    (fun e =>
       match e with
       | JSONDecodeError =>
           do* modify (dispose msg Term) in
           modify (fun w => set_metrics (inc_failed "decode_error" (metrics w)) w)
       | _ =>
           do* modify (dispose msg (Nak 5)) in
           modify (fun w => set_metrics (inc_failed "processing_error" (metrics w)) w)
       end).

End Worker.

(** ** Histories of cache calls *)

(** One call of the two cache clients. *)
Inductive Call :=
| IsDuplicate (event_id : UUID)
| MarkAsSeen (event_id : UUID)
| CheckBatch (event_ids : list UUID)
| MarkBatchAsSeen (event_ids : list UUID)
| IsAllowed (client_id : string)
| GetRemaining (client_id : string).

(** The clients of one deployment: they share the settings. *)
Definition idempotency_service (settings : Settings) : IdempotencyService.t :=
  IdempotencyService.mk (redis_idempotency_ttl settings).

(** The cache after a call made at instant [now]. *)
Definition call (settings : Settings) (now : Z) (c : Call)
    (d : gmap string Redis.Entry) : gmap string Redis.Entry :=
  match c with
  | IsDuplicate event_id => snd (IdempotencyService.is_duplicate now d event_id)
  | MarkAsSeen event_id =>
      snd (IdempotencyService.mark_as_seen (idempotency_service settings) now d event_id)
  | CheckBatch event_ids => snd (IdempotencyService.check_batch now d event_ids)
  | MarkBatchAsSeen event_ids =>
      IdempotencyService.mark_batch_as_seen (idempotency_service settings) now d event_ids
  | IsAllowed client_id =>
      snd (RateLimiter.is_allowed settings (RateLimiter.init settings) now d client_id)
  | GetRemaining client_id =>
      snd (RateLimiter.get_remaining (RateLimiter.init settings) now d client_id)
  end.

(** The cache after a history of calls, each with its instant. *)
Fixpoint run (settings : Settings) (history : list (Z * Call))
    (d : gmap string Redis.Entry) : gmap string Redis.Entry :=
  match history with
  | [] => d
  | (now, c) :: rest => run settings rest (call settings now c d)
  end.

(** The call marks [event_id] as seen. *)
Definition marks (c : Call) (event_id : UUID) : Prop :=
  match c with
  | MarkAsSeen i => i = event_id
  | MarkBatchAsSeen ids => event_id ∈ ids
  | _ => False
  end.

(** The call is a rate-limit check of [client_id]. *)
Definition is_check_of (client_id : string) (c : Call) : bool :=
  match c with
  | IsAllowed client_id' => bool_decide (client_id' = client_id)
  | _ => false
  end.

(** How many of the rate-limit checks of [client_id] in a history are
    let through. *)
Fixpoint let_through (settings : Settings) (client_id : string)
    (history : list (Z * Call)) (d : gmap string Redis.Entry) : Z :=
  match history with
  | [] => 0
  | (now, c) :: rest =>
      (if is_check_of client_id c
          && fst (fst (RateLimiter.is_allowed settings (RateLimiter.init settings)
                         now d client_id))
       then 1 else 0) + let_through settings client_id rest (call settings now c d)
  end.

(** How many rate-limit checks of [client_id] a history holds. *)
Definition checks_of (client_id : string) (history : list (Z * Call)) : Z :=
  len (filter (fun p => is_check_of client_id (snd p) = true) history).

(** The answers of [n] successive checks of one client, one per second. *)
Fixpoint checks (settings : Settings) (limiter : RateLimiter.t) (client_id : string)
    (n : nat) (now : Z) (d : gmap string Redis.Entry)
  : list (bool * Z) * gmap string Redis.Entry :=
  match n with
  | O => ([], d)
  | S n' =>
      let '(answer, d1) := RateLimiter.is_allowed settings limiter now d client_id in
      let '(answers, d2) := checks settings limiter client_id n' (now + 1) d1 in
      (answer :: answers, d2)
  end.

(** No key that is live at [t1] has expired by [t2]. *)
Definition no_expiry_between (d : gmap string Redis.Entry) (t1 t2 : Z) : Prop :=
  forall key e, d !! key = Some e -> Redis.is_live t1 e = true -> Redis.is_live t2 e = true.

(** No dedup entry of an event of the batch that is live at [t1] has
    expired by [t2]. *)
Definition no_dedup_expiry_between (d : gmap string Redis.Entry)
    (batch : list EventCreate) (t1 t2 : Z) : Prop :=
  forall event e,
    event ∈ batch ->
    d !! IdempotencyService._get_key (event_id event) = Some e ->
    Redis.is_live t1 e = true -> Redis.is_live t2 e = true.

(** ** Top event types *)

Module TopEvents.
Import Database.

(** [COUNT( * )] of the group of one event type. *)
Definition count_of (ty : string) (hits : list EventCreate) : Z :=
  len (filter (fun r => event_type r = ty) hits).

(** [ORDER BY count DESC] on rows (event_type, count). *)
Definition by_count_desc : relation (string * Z) := fun a b => snd b <= snd a.

#[global] Instance by_count_desc_dec : RelDecision by_count_desc :=
  fun a b => decide (snd b <= snd a).

(** [get_top_events] of [EventService]. The query orders the groups by
    their count only: groups with equal counts come in the order in which
    the store produces them, and [scan] stands for that order (a
    rearrangement of the groups). [LIMIT] takes a 64-bit integer, and the
    store refuses a negative one. *)
Definition get_top_events (scan : list (string * Z) -> list (string * Z))
    (from_date to_date limit : Z) : M Session (list (string * Z)) :=
  fun s =>
    let from_dt := from_date in
    match date_add to_date 1 with
    | Raise e => (Raise e, s)
    | Ok to_dt =>
        if (limit <? 0) || (2 ^ 63 <=? limit) then (Raise DriverError, s)
        else
          let hits := filter (fun r => midnight from_dt <= occurred_at r
                                       ∧ occurred_at r < midnight to_dt) (visible s) in
          let groups := map (fun ty => (ty, count_of ty hits))
                            (remove_dups (map event_type hits)) in
          (Ok (take (Z.to_nat limit) (merge_sort by_count_desc (scan groups))), s)
    end.

End TopEvents.

(** [get_top_events] of [app/api/routes/stats.py]. The framework passes a
    [limit] between 1 and 100 only. *)
Definition get_top_events (scan : list (string * Z) -> list (string * Z))
    (from_date to_date limit : Z) : M World (list (string * Z)) :=
  if bool_decide (from_date > to_date)
  then raise (HTTPException 400 "from_date must be before to_date" [])
  else Database.get_session (TopEvents.get_top_events scan from_date to_date limit).

(** [get_event_count] of [app/api/routes/events.py]: the value of
    [total_events]. *)
Definition get_event_count : M World Z :=
  Database.get_session (fun s => (Ok (len (Database.visible s)), s)).

(** ** The message loop of the worker *)

(** The loop of [run_worker] over the messages its fetches deliver, one
    fetch after the other: each message comes with the instant at which it
    is processed and with the value of [shutdown_flag] read before it, and
    the loop ends at the first message that finds the flag set.
    [process_event] handles every exception itself, so the handlers of the
    loop see the failures of the fetch only, which deliver nothing. *)
Fixpoint run_worker (env : Env) (deliveries : list (Z * bool * Payload)) : M World unit :=
  match deliveries with
  | [] => ret tt
  | (now, shutdown_flag, msg) :: rest =>
      if shutdown_flag then ret tt
      else
        do* Worker.process_event env now msg in
        run_worker env rest
  end.

(** ** The route POST /events *)

(** A response: its status, its headers (those the program sets; the
    content type and length that the framework adds are left out) and its
    body, the model returned or the [detail] of an error. *)
Record Response := mkHttpResponse {
  status_code : Z;
  headers : list (string * string);
  body : EventResponse + string
}.

(** [response.headers[name] = value]: the first header of that name takes
    the value and the others of that name go; a new name is appended.
    Names are compared as written (the program uses one spelling). *)
Fixpoint set_header (name value : string) (hs : list (string * string))
  : list (string * string) :=
  match hs with
  | [] => [(name, value)]
  | (k, v) :: rest =>
      if bool_decide (k = name)
      then (name, value) :: filter (fun h => fst h <> name) rest
      else (k, v) :: set_header name value rest
  end.

(** [response.headers.get(name)]. *)
Fixpoint get_header (name : string) (hs : list (string * string)) : option string :=
  match hs with
  | [] => None
  | (k, v) :: rest => if bool_decide (k = name) then Some v else get_header name rest
  end.

(** The part of [MetricsMiddleware.dispatch] that acts on the response:
    the header it adds when the request state holds the remaining quota.
    Its request counter and duration histogram are left out. *)
Definition dispatch (request : Request) (response : Response) : Response :=
  match rate_limit_remaining request with
  | Some remaining =>
      {| status_code := status_code response;
         headers := set_header "X-RateLimit-Remaining" (pretty remaining) (headers response);
         body := body response |}
  | None => response
  end.

(** A request to POST /events whose body is a valid batch: the dependency
    [check_rate_limit] runs first and the handler only if it returns; an
    [HTTPException] becomes the response of its status, detail and
    headers; the response then passes through the middleware. *)
Definition post_events (settings : Settings) (env : Env) (now : Z) (request : Request)
    (batch : list EventCreate) (w : World) : Response * World :=
  let '(checked, request1, w1) :=
    check_rate_limit settings (RateLimiter.init settings) now request w in
  let '(result, w2) :=
    match checked with
    | Ok _ => ingest_events env (idempotency_service settings) now batch w1
    | Raise e => (Raise e, w1)
    end in
  (match result with
   | Ok response =>
       dispatch request1 {| status_code := 202; headers := []; body := inl response |}
   | Raise (HTTPException status detail hs) =>
       dispatch request1 {| status_code := status; headers := hs; body := inr detail |}
   | Raise _ =>
       {| status_code := 500; headers := []; body := inr "Internal Server Error" |}
   end, w2).

(** ** The CSV import *)

Module ImportEvents.
Import Database.

(** A row of the CSV file, by what [parse_csv_row] makes of it at the time
    of the run: it raises (a missing column, a timestamp or an identifier
    that does not parse, a record the event model refuses), or it returns
    an event. *)
Inductive CsvRow :=
| Unparsable
| Parsed (event : EventCreate).

Definition parse_csv_row (row : CsvRow) : option EventCreate :=
  match row with
  | Unparsable => None
  | Parsed event => Some event
  end.

(** The variables of [import_events_from_csv]. *)
Record Totals := mkTotals {
  batch : list EventCreate;
  total_imported : Z;
  total_duplicates : Z;
  total_failed : Z
}.

(** One iteration of the loop over the rows. The event is appended to the
    batch before the insert is tried, and the batch is emptied only after
    an insert that returned; an insert that raises is counted as one
    failure, like a row that does not parse. *)
Definition import_row (env : Env) (now batch_size : Z) (acc : Totals) (row : CsvRow)
  : Session -> Totals * Session :=
  fun s =>
    match parse_csv_row row with
    | None =>
        (mkTotals (batch acc) (total_imported acc) (total_duplicates acc)
                  (total_failed acc + 1), s)
    | Some event =>
        let batch1 := batch acc ++ [event] in
        if batch_size <=? len batch1 then
          match EventService.insert_events env now batch1 s with
          | (Ok (inserted, duplicates), s1) =>
              (mkTotals [] (total_imported acc + inserted)
                        (total_duplicates acc + duplicates) (total_failed acc), s1)
          | (Raise _, s1) =>
              (mkTotals batch1 (total_imported acc) (total_duplicates acc)
                        (total_failed acc + 1), s1)
          end
        else
          (mkTotals batch1 (total_imported acc) (total_duplicates acc) (total_failed acc), s)
    end.

Fixpoint import_rows (env : Env) (now batch_size : Z) (rows : list CsvRow) (acc : Totals)
  : Session -> Totals * Session :=
  fun s =>
    match rows with
    | [] => (acc, s)
    | row :: rest =>
        let '(acc1, s1) := import_row env now batch_size acc row s in
        import_rows env now batch_size rest acc1 s1
    end.

(** [import_events_from_csv], from the rows read from the file: one
    session for the whole run, the loop over the rows, then the insert of
    the events that remain in the batch. *)
Definition import_events_from_csv (env : Env) (now : Z) (rows : list CsvRow)
    (batch_size : Z) : M World (Z * Z * Z) :=
  get_session
    (fun s =>
       let '(acc, s1) := import_rows env now batch_size rows (mkTotals [] 0 0 0) s in
       match batch acc with
       | [] => (Ok (total_imported acc, total_duplicates acc, total_failed acc), s1)
       | _ :: _ =>
           match EventService.insert_events env now (batch acc) s1 with
           | (Ok (inserted, duplicates), s2) =>
               (Ok (total_imported acc + inserted, total_duplicates acc + duplicates,
                    total_failed acc), s2)
           | (Raise _, s2) =>
               (Ok (total_imported acc, total_duplicates acc,
                    total_failed acc + len (batch acc)), s2)
           end
       end).

End ImportEvents.

(** ** A sample environment *)

(** The environment of the examples: the broker and the driver refuse
    nothing, identifiers travel as JSON strings and instants as integer
    literals of epoch seconds (one of the forms pydantic reads). *)
Definition digit_of (a : Ascii.ascii) : option Z :=
  let n := Z.of_N (Ascii.N_of_ascii a) in
  if (48 <=? n) && (n <=? 57) then Some (n - 48) else None.

Fixpoint parse_digits (s : string) (acc : Z) : option Z :=
  match s with
  | EmptyString => Some acc
  | String a rest =>
      match digit_of a with
      | Some n => parse_digits rest (10 * acc + n)
      | None => None
      end
  end.

Definition sample_env : Env :=
  {| js_fails := fun _ _ _ => false;
     driver_fails := fun _ _ _ => false;
     to_uuid := fun v => match v with JStr s => Some s | _ => None end;
     to_datetime := fun v =>
       match v with
       | JNum (String a rest) => parse_digits (String a rest) 0
       | _ => None
       end;
     dump_datetime := fun t => JNum (pretty t) |}.

Definition empty_world : World :=
  {| redis := ∅; stream := []; events := []; metrics := no_metrics; dispositions := [] |}.

(** ** Vocabulary of the statements *)

Section vocabulary.
Import Redis.

(** The key a command acts on. *)
Definition key_of (c : Command) : string :=
  match c with
  | EXISTS key | SET_NX_EX key _ _ | INCR key | EXPIRE key _ | GET key => key
  end.

(** The entry a conditional set leaves under its key. *)
Definition after_set (now ttl : Z) (d : gmap string Entry) (key : string) : option Entry :=
  match lookup_live now d key with
  | Some _ => d !! key
  | None => Some (mkEntry 1 (Some (now + ttl)))
  end.

#[global] Instance marks_dec c i : Decision (marks c i).
Proof. destruct c; simpl; apply _. Defined.

(** The count the next rate-limit check of a key reads. *)
Definition next_count (now : Z) (d : gmap string Entry) (key : string) : Z :=
  match lookup_live now d key with
  | Some e => value e + 1
  | None => 1
  end.

(** Under [key] there is an entry that lives at least as long as [en0]. *)
Definition kept (d : gmap string Entry) (key : string) (en0 : Entry) : Prop :=
  exists en, d !! key = Some en /\ forall t, is_live t en0 = true -> is_live t en = true.

(** Every call of the history is made within the window that starts at
    [t0]. *)
Definition in_window (settings : Settings) (t0 : Z) (history : list (Z * Call)) : Prop :=
  forall t c, (t, c) ∈ history -> t0 <= t < t0 + rate_limit_window settings.

(** The events of a batch whose identifier the cache does not hold, the
    world after the received and duplicate counters are advanced, and the
    world after the new identifiers are marked. *)
Definition new_events_of (now : Z) (w : World) (batch : list EventCreate)
  : list EventCreate :=
  filter (fun event =>
            fst (IdempotencyService.is_duplicate now (redis w) (event_id event)) = false)
         batch.

Definition counted (now : Z) (batch : list EventCreate) (w : World) : World :=
  set_metrics
    (inc_duplicate
       (len (snd (fst (IdempotencyService.check_batch now (redis w) (map event_id batch)))))
       (foldl (fun m event => inc_received (event_type event) m) (metrics w) batch)) w.

Definition marked (svc : IdempotencyService.t) (now : Z) (batch : list EventCreate)
    (w : World) : World :=
  set_redis
    (IdempotencyService.mark_batch_as_seen svc now (redis w)
       (fst (fst (IdempotencyService.check_batch now (redis w) (map event_id batch)))))
    (counted now batch w).

(** The rows a run of inserts adds to the rows already visible: the first
    occurrence of every identifier that is not yet there. *)
Fixpoint fresh_rows (seen : list EventCreate) (evs : list EventCreate)
  : list EventCreate :=
  match evs with
  | [] => []
  | event :: rest =>
      if bool_decide (event_id event ∈ map event_id seen)
      then fresh_rows seen rest
      else event :: fresh_rows (seen ++ [event]) rest
  end.

(** The identifiers of a list of rows. *)
Definition ids (rows : list EventCreate) : gset UUID :=
  list_to_set (map event_id rows).




(** The fields of window [k] of a cohort. *)
Definition window_of (c : RetentionCohort) (k : Z) : option Z :=
  if k =? 1 then window_1 c else if k =? 2 then window_2 c
  else if k =? 3 then window_3 c else None.

Definition retention_rate_of (c : RetentionCohort) (k : Z) : option float :=
  if k =? 1 then retention_rate_1 c else if k =? 2 then retention_rate_2 c
  else if k =? 3 then retention_rate_3 c else None.

(** [round(retained / cohort_size * 100, 2)]. *)
Definition rate (retained cohort_size : Z) : float :=
  py_round (PrimFloat.mul (PrimFloat.div (float_of_Z retained) (float_of_Z cohort_size))
                          (float_of_Z 100)) 2.

(** The rows whose day lies between two dates. *)
Definition in_range (from_date to_date : Z) (rows : list EventCreate) : list EventCreate :=
  filter (fun r => from_date <= DATE (occurred_at r) <= to_date) rows.

(** The event passes the checks of [EventBase] at instant [now]. *)
Definition valid_at (now : Z) (event : EventCreate) : Prop :=
  Worker.in_length (user_id event) 1 255 = true
  /\ Worker.in_length (event_type event) 1 100 = true
  /\ occurred_at event <= now.

(** The wire format gives the identifier and the instant of the event
    back. *)
Definition travels (env : Env) (event : EventCreate) : Prop :=
  to_uuid env (JStr (event_id event)) = Some (event_id event)
  /\ to_datetime env (dump_datetime env (occurred_at event)) = Some (occurred_at event).

(** The deliveries the worker loop processes: those before the first one
    that finds the shutdown flag set. *)
Fixpoint processed (deliveries : list (Z * bool * Payload)) : list (Z * Payload) :=
  match deliveries with
  | [] => []
  | (now, shutdown_flag, msg) :: rest =>
      if shutdown_flag then [] else (now, msg) :: processed rest
  end.

(** Every call of the history is made less than [window] seconds after the
    latest rate-limit check of [client_id] before it, [last] being the
    instant of the latest one before the history. *)
Fixpoint paced (window : Z) (client_id : string) (last : Z) (history : list (Z * Call))
  : Prop :=
  match history with
  | [] => True
  | (t, c) :: rest =>
      t < last + window
      /\ paced window client_id (if is_check_of client_id c then t else last) rest
  end.

(** The events of the rows of a CSV file that parse, in order. *)
Definition parsed_events (rows : list ImportEvents.CsvRow) : list EventCreate :=
  omap ImportEvents.parse_csv_row rows.

End vocabulary.

(** * Properties *)

(** ** Redis commands *)

Section redis_facts.
Import Redis.
Implicit Types (d : gmap string Entry) (now : Z) (key : string).

Lemma lookup_live_Some now d key e :
  lookup_live now d key = Some e <-> d !! key = Some e /\ is_live now e = true.
Proof.
  unfold lookup_live. destruct (d !! key) as [e'|]; [|split; [done|by intros [? _]]].
  destruct (is_live now e') eqn:Hl; split.
  - intros [= ->]. done.
  - intros [[= ->] _]. done.
  - done.
  - intros [[= ->] Hl']. congruence.
Qed.

Lemma execute_exists now d keys :
  execute now d (map EXISTS keys)
  = (d, map (fun key => RInt (if lookup_live now d key is Some _ then 1 else 0)) keys).
Proof.
  induction keys as [|key keys IH]; simpl; [done|]. by rewrite IH.
Qed.

End redis_facts.

(** ** Dedup cache client *)

Section idempotency_facts.
Import Redis IdempotencyService.
Implicit Types (d : gmap string Entry) (now : Z) (event_id : UUID).

(** The answer of the cache for one identifier. *)
Lemma is_duplicate_spec now d event_id :
  is_duplicate now d event_id
  = (bool_decide (is_Some (lookup_live now d (_get_key event_id))), d).
Proof.
  unfold is_duplicate. simpl.
  by destruct (lookup_live now d (_get_key event_id)) as [e|].
Qed.

Lemma foldl_split_step (f : UUID -> Reply) ids new_ids duplicate_ids :
  foldl split_step (new_ids, duplicate_ids) (zip ids (map f ids))
  = (new_ids ++ filter (fun i => truthy (f i) = false) ids,
     duplicate_ids ++ filter (fun i => truthy (f i) = true) ids).
Proof.
  revert new_ids duplicate_ids.
  induction ids as [|i ids IH]; intros new_ids duplicate_ids; simpl.
  - by rewrite !app_nil_r.
  - rewrite !filter_cons.
    destruct (truthy (f i)) eqn:Ht; simpl; rewrite IH;
      repeat case_decide; try congruence; by rewrite <- app_assoc.
Qed.

Lemma check_batch_filter now d ids :
  check_batch now d ids
  = ((filter (fun i => fst (is_duplicate now d i) = false) ids,
      filter (fun i => fst (is_duplicate now d i) = true) ids), d).
Proof.
  unfold check_batch.
  rewrite <- (map_map _get_key EXISTS), execute_exists, map_map.
  rewrite foldl_split_step. simpl. f_equal. f_equal.
  - apply list_filter_iff. intros i. unfold is_duplicate; simpl.
    by destruct (lookup_live now d (_get_key i)).
  - apply list_filter_iff. intros i. unfold is_duplicate; simpl.
    by destruct (lookup_live now d (_get_key i)).
Qed.


(** The two lists of [check_batch] together are a rearrangement of its
    input. *)
Lemma check_batch_permutation now d (event_ids : list UUID) :
  fst (fst (check_batch now d event_ids)) ++ snd (fst (check_batch now d event_ids))
  ≡ₚ event_ids.
Proof.
  rewrite check_batch_filter. cbn [fst snd].
  rewrite <- (filter_app_complement
                (fun i => fst (is_duplicate now d i) = false) event_ids) at 3.
  apply Permutation_app_head.
  erewrite list_filter_iff; [reflexivity|]. intros i. simpl.
  destruct (0 <? _); split; try done; try congruence.
Qed.

(** C10: [check_batch] only reads the cache, and splits its input by what
    the cache held when the call was made: the two lists together are a
    rearrangement of the input (every occurrence lands in exactly one of
    them, so the lengths add up), each keeps the order of the input, and no
    identifier is in both, so repeated occurrences of one identifier land
    on the same side. *)
Theorem check_batch_partitions now d (event_ids : list UUID) :
  let r := check_batch now d event_ids in
  let new_ids := fst (fst r) in
  let duplicate_ids := snd (fst r) in
  snd r = d
  /\ new_ids ++ duplicate_ids ≡ₚ event_ids
  /\ (length new_ids + length duplicate_ids = length event_ids)%nat
  /\ sublist new_ids event_ids
  /\ sublist duplicate_ids event_ids
  /\ (forall i, i ∈ new_ids -> i ∉ duplicate_ids)
  /\ (forall i, i ∈ new_ids <-> i ∈ event_ids /\ fst (is_duplicate now d i) = false)
  /\ (forall i, i ∈ duplicate_ids <-> i ∈ event_ids /\ fst (is_duplicate now d i) = true).
Proof.
  cbv zeta. pose proof (check_batch_permutation now d event_ids) as Hperm.
  rewrite check_batch_filter in Hperm |- *. cbn [fst snd] in Hperm |- *.
  split; [done|]. split; [exact Hperm|].
  split. { apply Permutation_length in Hperm. by rewrite length_app in Hperm. }
  split; [apply sublist_filter|]. split; [apply sublist_filter|].
  split.
  { intros i Hn Hd. apply list_elem_of_filter in Hn as [Hn _].
    apply list_elem_of_filter in Hd as [Hd _]. congruence. }
  split; intros i; rewrite list_elem_of_filter; tauto.
Qed.

End idempotency_facts.

(** ** Keys, and what a call does to one key *)

Section key_facts.
Import Redis.
Implicit Types (d : gmap string Entry) (now : Z) (key : string).

Lemma seen_key_inj i j :
  IdempotencyService._get_key i = IdempotencyService._get_key j -> i = j.
Proof.
  unfold IdempotencyService._get_key. cbv [String.append]. congruence.
Qed.

Lemma rate_key_inj a b :
  RateLimiter._get_key a = RateLimiter._get_key b -> a = b.
Proof.
  unfold RateLimiter._get_key. cbv [String.append]. congruence.
Qed.

Lemma seen_key_ne_rate_key i c :
  IdempotencyService._get_key i <> RateLimiter._get_key c.
Proof.
  unfold IdempotencyService._get_key, RateLimiter._get_key.
  cbv [String.append]. congruence.
Qed.

Lemma exec_lookup_other now d c key :
  key_of c <> key -> fst (exec now d c) !! key = d !! key.
Proof.
  intros Hne. destruct c as [k|k v ex|k|k s|k]; simpl in *; try done.
  - destruct (lookup_live now d k); simpl; [done|]. by rewrite lookup_insert_ne.
  - destruct (lookup_live now d k); simpl; by rewrite lookup_insert_ne.
  - destruct (lookup_live now d k); simpl; [|done]. by rewrite lookup_insert_ne.
Qed.

Lemma execute_cons_fst now d c pipe :
  fst (execute now d (c :: pipe)) = fst (execute now (fst (exec now d c)) pipe).
Proof.
  cbn [execute]. destruct (exec now d c) as [d1 r]. cbn [fst].
  by destruct (execute now d1 pipe).
Qed.

Lemma execute_lookup_other now d pipe key :
  Forall (fun c => key_of c <> key) pipe -> fst (execute now d pipe) !! key = d !! key.
Proof.
  revert d. induction pipe as [|c pipe IH]; intros d Hall; [done|].
  inversion Hall as [|? ? Hc Hrest]; subst.
  rewrite execute_cons_fst, IH by done. by apply exec_lookup_other.
Qed.

Lemma exec_set_lookup now ttl d key :
  fst (exec now d (SET_NX_EX key 1 ttl)) !! key = after_set now ttl d key.
Proof.
  unfold after_set. simpl. destruct (lookup_live now d key); simpl; [done|].
  by rewrite lookup_insert_eq.
Qed.

Lemma after_set_idem now ttl d key d1 :
  d1 !! key = after_set now ttl d key -> after_set now ttl d1 key = after_set now ttl d key.
Proof.
  unfold after_set, lookup_live. intros H1.
  destruct (d !! key) as [e|] eqn:Hd.
  - destruct (is_live now e) eqn:Hl; rewrite H1.
    + by rewrite Hl.
    + unfold is_live; simpl. by destruct (now <? now + ttl).
  - rewrite H1. unfold is_live; simpl. by destruct (now <? now + ttl).
Qed.

Lemma mark_batch_lookup self now d ids i :
  IdempotencyService.mark_batch_as_seen self now d ids !! IdempotencyService._get_key i
  = if bool_decide (i ∈ ids)
    then after_set now (IdempotencyService.ttl self) d (IdempotencyService._get_key i)
    else d !! IdempotencyService._get_key i.
Proof.
  unfold IdempotencyService.mark_batch_as_seen.
  revert d. induction ids as [|j ids IH]; intros d; [done|].
  cbn [map]. rewrite execute_cons_fst, IH.
  set (d1 := fst (exec now d (SET_NX_EX (IdempotencyService._get_key j) 1
                                (IdempotencyService.ttl self)))).
  destruct (decide (j = i)) as [->|Hji].
  - assert (H1 : d1 !! IdempotencyService._get_key i
                 = after_set now (IdempotencyService.ttl self) d
                     (IdempotencyService._get_key i))
      by apply exec_set_lookup.
    rewrite (bool_decide_eq_true_2 (i ∈ i :: ids)) by set_solver.
    case_bool_decide; [by apply after_set_idem|done].
  - assert (H1 : d1 !! IdempotencyService._get_key i = d !! IdempotencyService._get_key i).
    { apply exec_lookup_other. simpl. intros Hk. by apply seen_key_inj in Hk. }
    assert (Hlive : after_set now (IdempotencyService.ttl self) d1
                      (IdempotencyService._get_key i)
                    = after_set now (IdempotencyService.ttl self) d
                        (IdempotencyService._get_key i)).
    { unfold after_set, lookup_live. by rewrite H1. }
    rewrite Hlive, H1.
    rewrite (bool_decide_ext (i ∈ j :: ids) (i ∈ ids)); [done|].
    rewrite elem_of_cons. split; [intros [Heq|Hin]; [congruence|done] | by right].
Qed.


(** What a call leaves under the key of an event identifier. *)
Lemma call_seen_key settings t c d i :
  call settings t c d !! IdempotencyService._get_key i
  = if decide (marks c i)
    then after_set t (redis_idempotency_ttl settings) d (IdempotencyService._get_key i)
    else d !! IdempotencyService._get_key i.
Proof.
  destruct c as [j|j|ids|ids|cl|cl]; simpl.
  - done.
  - unfold IdempotencyService.mark_as_seen.
    destruct (exec t d _) as [d1 r] eqn:He. cbn [snd].
    change d1 with (fst (d1, r)). rewrite <- He. cbn [IdempotencyService.ttl idempotency_service].
    case_decide as Hm.
    + subst j. apply exec_set_lookup.
    + apply exec_lookup_other. simpl. intros Hk. by apply seen_key_inj in Hk.
  - by rewrite check_batch_filter.
  - rewrite mark_batch_lookup. cbn [IdempotencyService.ttl idempotency_service].
    case_bool_decide; case_decide; done.
  - unfold RateLimiter.is_allowed. destruct (rate_limit_enabled settings); [|done].
    cbn [negb]. destruct (execute t d _) as [d1 rs] eqn:Hx. cbn [snd].
    change d1 with (fst (d1, rs)). rewrite <- Hx.
    apply execute_lookup_other. repeat constructor; simpl; intros Hk;
      by apply eq_sym, seen_key_ne_rate_key in Hk.
  - done.
Qed.

Lemma execute_incr_expire now d key w :
  execute now d [INCR key; EXPIRE key w]
  = (<[key := mkEntry (next_count now d key) (Some (now + w))]> d,
     [RInt (next_count now d key); RBool true]).
Proof.
  unfold next_count. cbn [execute exec].
  destruct (lookup_live now d key) as [e|] eqn:Hl.
  - apply lookup_live_Some in Hl as [Hd Hlive].
    assert (Hl1 : lookup_live now (<[key := mkEntry (value e + 1) (expires_at e)]> d) key
                  = Some (mkEntry (value e + 1) (expires_at e))).
    { apply lookup_live_Some. by rewrite lookup_insert_eq. }
    rewrite Hl1. cbn [value]. by rewrite insert_insert_eq.
  - assert (Hl1 : lookup_live now (<[key := mkEntry 1 None]> d) key = Some (mkEntry 1 None)).
    { apply lookup_live_Some. by rewrite lookup_insert_eq. }
    rewrite Hl1. cbn [value]. by rewrite insert_insert_eq.
Qed.

Lemma is_allowed_enabled settings self now d client_id :
  rate_limit_enabled settings = true ->
  RateLimiter.is_allowed settings self now d client_id
  = let count := next_count now d (RateLimiter._get_key client_id) in
    ((count <=? RateLimiter.max_requests self,
      Z.max 0 (RateLimiter.max_requests self - count)),
     <[RateLimiter._get_key client_id :=
         mkEntry count (Some (now + RateLimiter.window self))]> d).
Proof.
  intros Hen. unfold RateLimiter.is_allowed. rewrite Hen. cbn [negb].
  by rewrite execute_incr_expire.
Qed.

(** What a call leaves under the rate-limit key of a client. *)
Lemma call_rate_key settings t c d cl :
  call settings t c d !! RateLimiter._get_key cl
  = if is_check_of cl c && rate_limit_enabled settings
    then Some (mkEntry (next_count t d (RateLimiter._get_key cl))
                       (Some (t + rate_limit_window settings)))
    else d !! RateLimiter._get_key cl.
Proof.
  destruct c as [j|j|ids|ids|cl'|cl']; cbn [call is_check_of andb].
  - done.
  - unfold IdempotencyService.mark_as_seen.
    destruct (exec t d _) as [d1 r] eqn:He. cbn [snd].
    change d1 with (fst (d1, r)). rewrite <- He.
    apply exec_lookup_other. simpl. apply seen_key_ne_rate_key.
  - by rewrite check_batch_filter.
  - unfold IdempotencyService.mark_batch_as_seen.
    apply execute_lookup_other. apply Forall_map, Forall_forall. intros ? _. simpl.
    apply seen_key_ne_rate_key.
  - destruct (rate_limit_enabled settings) eqn:Hen.
    + rewrite is_allowed_enabled by done. cbn [snd RateLimiter.init RateLimiter.window].
      case_bool_decide as Hc; cbn [andb].
      * subst cl'. by rewrite lookup_insert_eq.
      * rewrite lookup_insert_ne; [done|]. intros Hk. by apply rate_key_inj in Hk.
    + rewrite andb_false_r. unfold RateLimiter.is_allowed. by rewrite Hen.
  - done.
Qed.

End key_facts.

(** ** Rate limiter *)

Section rate_limiter_facts.
Import Redis RateLimiter.

(** C6: with the flag on, one call stores the incremented count under the
    client's key with an expiry one window after the call (both in the
    one pipeline), answers allowed exactly when that count is at most
    [max_requests], and reports [max(0, max_requests - count)]; no other
    key changes. With the flag off it answers allowed with [max_requests]
    remaining and leaves the cache as it was. *)
Theorem is_allowed_counts settings self now (d : gmap string Entry) client_id :
  let key := _get_key client_id in
  let r := is_allowed settings self now d client_id in
  if rate_limit_enabled settings then
    let count := match lookup_live now d key with
                 | Some e => value e + 1
                 | None => 1
                 end in
    fst r = (count <=? max_requests self, Z.max 0 (max_requests self - count))
    /\ (fst (fst r) = true <-> count <= max_requests self)
    /\ snd r !! key = Some (mkEntry count (Some (now + window self)))
    /\ (forall key', key' <> key -> snd r !! key' = d !! key')
  else r = ((true, max_requests self), d).
Proof.
  cbv zeta. destruct (rate_limit_enabled settings) eqn:Hen.
  - rewrite is_allowed_enabled by done. cbv zeta. unfold next_count. cbn [fst snd].
    split; [done|]. split; [apply Z.leb_le|]. split.
    + by rewrite lookup_insert_eq.
    + intros key' Hne. by rewrite lookup_insert_ne.
  - unfold is_allowed. by rewrite Hen.
Qed.

End rate_limiter_facts.

(** ** Marked identifiers *)

Section marking_facts.
Import Redis IdempotencyService.
Implicit Types (d : gmap string Entry).

Lemma kept_lookup_live d key en0 t :
  kept d key en0 -> is_live t en0 = true -> is_Some (lookup_live t d key).
Proof.
  intros (en & Hd & Hlive) Ht. exists en. apply lookup_live_Some. auto.
Qed.

Lemma not_live_expired t en :
  is_live t en = false -> exists x, expires_at en = Some x /\ x <= t.
Proof.
  unfold is_live. destruct (expires_at en) as [x|]; [|done].
  intros Hx. exists x. split; [done|]. by apply Z.ltb_ge.
Qed.

Lemma after_set_kept t ttl d key en0 :
  0 <= ttl -> kept d key en0 ->
  exists en, after_set t ttl d key = Some en
             /\ forall t', is_live t' en0 = true -> is_live t' en = true.
Proof.
  intros Httl (en & Hd & Hlive). unfold after_set, lookup_live. rewrite Hd.
  destruct (is_live t en) eqn:Ht.
  - exists en. auto.
  - eexists. split; [done|]. intros t' Ht'.
    apply not_live_expired in Ht as (x & Hx & Hle).
    specialize (Hlive t' Ht'). unfold is_live in Hlive |- *. rewrite Hx in Hlive.
    simpl. apply Z.ltb_lt. apply Z.ltb_lt in Hlive. lia.
Qed.

Lemma call_kept settings t c d i en0 :
  0 <= redis_idempotency_ttl settings ->
  kept d (_get_key i) en0 -> kept (call settings t c d) (_get_key i) en0.
Proof.
  intros Httl Hk. unfold kept. rewrite call_seen_key. case_decide; [|done].
  by apply after_set_kept.
Qed.

Lemma run_kept settings history d i en0 :
  0 <= redis_idempotency_ttl settings ->
  kept d (_get_key i) en0 -> kept (run settings history d) (_get_key i) en0.
Proof.
  intros Httl. revert d. induction history as [|[t c] history IH]; intros d Hk; [done|].
  simpl. apply IH. by apply call_kept.
Qed.

Lemma run_unmarked settings history d i :
  (forall t c, (t, c) ∈ history -> ~ marks c i) ->
  run settings history d !! _get_key i = d !! _get_key i.
Proof.
  revert d. induction history as [|[t c] history IH]; intros d Hno; [done|].
  simpl. rewrite IH.
  - rewrite call_seen_key. case_decide as Hm; [|done].
    exfalso. apply (Hno t c); [left|done].
  - intros t' c' Hin. apply (Hno t' c'). by right.
Qed.

Lemma check_batch_seen t d ids i :
  i ∈ snd (fst (check_batch t d ids))
  <-> i ∈ ids /\ is_Some (lookup_live t d (_get_key i)).
Proof.
  rewrite check_batch_filter. cbn [fst snd]. rewrite list_elem_of_filter.
  rewrite is_duplicate_spec. cbn [fst]. rewrite bool_decide_eq_true. tauto.
Qed.

Lemma check_batch_new t d ids i :
  i ∈ fst (fst (check_batch t d ids))
  <-> i ∈ ids /\ lookup_live t d (_get_key i) = None.
Proof.
  rewrite check_batch_filter. cbn [fst snd]. rewrite list_elem_of_filter.
  rewrite is_duplicate_spec. cbn [fst]. rewrite bool_decide_eq_false.
  rewrite <- eq_None_not_Some. tauto.
Qed.

(** C3: with a positive TTL, a call that marks an identifier leaves under
    its key an entry that is live at the call (the marker with expiry
    [now + ttl] when the identifier was not already seen); after any later
    history of calls, and for as long as that entry has not expired, every
    [check_batch] holding the identifier puts it among the duplicates and
    [is_duplicate] answers true. From the empty cache, an identifier that
    no call of the history has marked is never reported as a duplicate. *)
Theorem marked_ids_stay_duplicate settings :
  0 < redis_idempotency_ttl settings ->
  (forall d t0 c i, marks c i ->
     exists en,
       call settings t0 c d !! _get_key i = Some en
       /\ is_live t0 en = true
       /\ (fst (is_duplicate t0 d i) = false ->
           en = mkEntry 1 (Some (t0 + redis_idempotency_ttl settings)))
       /\ forall history t ids,
            is_live t en = true -> i ∈ ids ->
            let d' := run settings history (call settings t0 c d) in
            (i ∈ snd (fst (check_batch t d' ids)))
            /\ (i ∉ fst (fst (check_batch t d' ids)))
            /\ fst (is_duplicate t d' i) = true)
  /\ (forall history i,
        (forall t c, (t, c) ∈ history -> ~ marks c i) ->
        forall t ids,
          let d' := run settings history ∅ in
          (i ∉ snd (fst (check_batch t d' ids)))
          /\ fst (is_duplicate t d' i) = false).
Proof.
  intros Httl. split.
  - intros d t0 c i Hm.
    assert (Hset : exists en,
               call settings t0 c d !! _get_key i = Some en
               /\ is_live t0 en = true
               /\ (fst (is_duplicate t0 d i) = false ->
                   en = mkEntry 1 (Some (t0 + redis_idempotency_ttl settings)))).
    { rewrite call_seen_key, decide_True by done.
      rewrite is_duplicate_spec. cbn [fst]. unfold after_set.
      destruct (lookup_live t0 d (_get_key i)) as [e|] eqn:Hl.
      - apply lookup_live_Some in Hl as [Hd Hlive]. exists e.
        split; [done|]. split; [done|]. intros Hf.
        apply bool_decide_eq_false in Hf. destruct Hf. eauto.
      - eexists. split; [done|]. split; [|done].
        unfold is_live. simpl. apply Z.ltb_lt. lia. }
    destruct Hset as (en & Hen & Hlive0 & Hfresh).
    exists en. split; [done|]. split; [done|]. split; [done|].
    intros history t ids Ht Hin. cbv zeta.
    assert (Hk : kept (run settings history (call settings t0 c d)) (_get_key i) en).
    { apply run_kept; [lia|]. exists en. auto. }
    pose proof (kept_lookup_live _ _ _ t Hk Ht) as Hsome.
    split; [by apply check_batch_seen|]. split.
    + rewrite check_batch_new. intros [_ Hnone]. rewrite Hnone in Hsome.
      by destruct Hsome.
    + rewrite is_duplicate_spec. cbn [fst]. by apply bool_decide_eq_true.
  - intros history i Hno t ids. cbv zeta.
    assert (Hnone : lookup_live t (run settings history ∅) (_get_key i) = None).
    { unfold lookup_live. by rewrite run_unmarked, lookup_empty. }
    split.
    + rewrite check_batch_seen, Hnone. intros [_ [? ?]]. done.
    + rewrite is_duplicate_spec, Hnone. cbn [fst]. apply bool_decide_eq_false.
      by intros [? ?].
Qed.

(** The theorem at the default settings (a TTL of 24 hours): two
    identifiers marked in one batch at instant 0 into an empty cache, other
    calls in between, and a check one hour later; an identifier that no
    call marks is not reported. *)
Lemma marked_ids_stay_duplicate_example :
  let d1 := call default_settings 0 (MarkBatchAsSeen ["e1"; "e2"]) ∅ in
  let history := [(5, IsAllowed "10.0.0.1"); (7, MarkAsSeen "e3");
                  (9, CheckBatch ["e0"; "e1"])] in
  let d2 := run default_settings history d1 in
  ("e1" ∈ snd (fst (check_batch 3600 d2 ["e0"; "e1"])))
  /\ ("e1" ∉ fst (fst (check_batch 3600 d2 ["e0"; "e1"])))
  /\ fst (is_duplicate 3600 d2 "e1") = true
  /\ ("e0" ∉ snd (fst (check_batch 3600 (run default_settings history ∅) ["e0"; "e1"])))
  /\ fst (is_duplicate 3600 (run default_settings history ∅) "e0") = false.
Proof.
  cbv zeta.
  destruct (marked_ids_stay_duplicate default_settings) as [Hmarked Hunmarked].
  { simpl. lia. }
  destruct (Hmarked ∅ 0 (MarkBatchAsSeen ["e1"; "e2"]) "e1") as (en & _ & _ & Hen & Hlater).
  { simpl. by left. }
  rewrite (Hen eq_refl) in Hlater.
  destruct (Hlater [(5, IsAllowed "10.0.0.1"); (7, MarkAsSeen "e3");
                    (9, CheckBatch ["e0"; "e1"])] 3600 ["e0"; "e1"])
    as (H1 & H2 & H3).
  { reflexivity. }
  { right. by left. }
  destruct (Hunmarked [(5, IsAllowed "10.0.0.1"); (7, MarkAsSeen "e3");
                       (9, CheckBatch ["e0"; "e1"])] "e0") with (t := 3600)
                       (ids := ["e0"; "e1"]) as (H4 & H5).
  { intros t c Hin.
    repeat (apply elem_of_cons in Hin as [Hin|Hin];
            [injection Hin as -> ->; simpl; by intros ?|]).
    by apply elem_of_nil in Hin. }
  repeat split; assumption.
Defined.

End marking_facts.

(** ** Requests let through within one window *)

Section window_facts.
Import Redis.
Context (settings : Settings) (client_id : string) (t0 : Z).
Context (Hen : rate_limit_enabled settings = true).

Local Abbreviation K := (RateLimiter._get_key client_id).
Local Abbreviation W := (rate_limit_window settings).
Local Abbreviation Mx := (rate_limit_requests settings).

Lemma in_window_cons t c history :
  in_window settings t0 ((t, c) :: history)
  -> t0 <= t < t0 + W /\ in_window settings t0 history.
Proof.
  intros Hw. split; [apply (Hw t c); by left|].
  intros t' c' Hin. apply (Hw t' c'). by right.
Qed.

Lemma checks_of_cons t c history :
  checks_of client_id ((t, c) :: history)
  = (if is_check_of client_id c then 1 else 0) + checks_of client_id history.
Proof.
  unfold checks_of, len. rewrite filter_cons. cbn [snd].
  destruct (is_check_of client_id c); case_decide; try done.
  cbn [length]. lia.
Qed.

Lemma checks_of_nonneg history : 0 <= checks_of client_id history.
Proof. unfold checks_of, len. lia. Qed.

Lemma allowed_iff now (d : gmap string Entry) :
  fst (fst (RateLimiter.is_allowed settings (RateLimiter.init settings) now d client_id))
  = (next_count now d K <=? Mx).
Proof. by rewrite is_allowed_enabled. Qed.

Lemma next_count_live now (d : gmap string Entry) e x :
  d !! K = Some e -> expires_at e = Some x -> now < x -> next_count now d K = value e + 1.
Proof.
  intros Hd Hx Hlt. unfold next_count.
  assert (Hl : lookup_live now d K = Some e).
  { apply lookup_live_Some. split; [done|]. unfold is_live. rewrite Hx.
    by apply Z.ltb_lt. }
  by rewrite Hl.
Qed.

Lemma next_count_pos now (d : gmap string Entry) :
  (forall e, d !! K = Some e -> 0 <= value e) -> 1 <= next_count now d K.
Proof.
  intros Hv. unfold next_count.
  destruct (lookup_live now d K) as [e|] eqn:Hl; [|lia].
  apply lookup_live_Some in Hl as [Hd _]. specialize (Hv e Hd). lia.
Qed.

(** Once the counter expires no earlier than the end of the window, every
    check of the window adds one to it. *)
Lemma anchored_bound history : forall (d : gmap string Entry) e x,
  in_window settings t0 history ->
  d !! K = Some e -> expires_at e = Some x -> t0 + W <= x ->
  let_through settings client_id history d <= Z.max 0 (Mx - value e)
  /\ exists e' x', run settings history d !! K = Some e'
                   /\ expires_at e' = Some x' /\ t0 + W <= x'
                   /\ value e' = value e + checks_of client_id history.
Proof.
  induction history as [|[t c] history IH]; intros d e x Hw Hd Hx Hle.
  - cbn [let_through run]. split; [lia|]. exists e, x.
    unfold checks_of, len. rewrite filter_nil. cbn [length]. repeat split; try done. lia.
  - apply in_window_cons in Hw as [Ht Hw].
    cbn [let_through run]. rewrite allowed_iff, checks_of_cons.
    rewrite (next_count_live t d e x) by (done || lia).
    pose proof (call_rate_key settings t c d client_id) as Hcall.
    rewrite Hen, andb_true_r in Hcall.
    rewrite (next_count_live t d e x) in Hcall by (done || lia).
    destruct (is_check_of client_id c).
    + destruct (IH _ _ _ Hw Hcall eq_refl ltac:(lia)) as (Hb & e' & x' & He' & Hx' & Hle' & Hv).
      cbn [value] in Hb, Hv. cbn [andb]. split.
      * destruct (value e + 1 <=? Mx) eqn:Hcmp; [apply Z.leb_le in Hcmp|]; lia.
      * exists e', x'. repeat split; try done. lia.
    + rewrite Hd in Hcall.
      destruct (IH _ _ _ Hw Hcall Hx Hle) as (Hb & e' & x' & He' & Hx' & Hle' & Hv).
      cbn [andb]. split; [lia|]. exists e', x'. repeat split; try done.
Qed.

(** From any cache whose counter for the client is not negative. *)
Lemma window_bound history : forall (d : gmap string Entry),
  0 <= Mx -> in_window settings t0 history ->
  (forall e, d !! K = Some e -> 0 <= value e) ->
  let_through settings client_id history d <= Mx
  /\ forall t, t0 <= t < t0 + W ->
       checks_of client_id history + 1 <= next_count t (run settings history d) K.
Proof.
  induction history as [|[t c] history IH]; intros d HMx Hw Hv.
  - cbn [let_through run]. split; [done|]. intros t Ht.
    unfold checks_of, len. rewrite filter_nil. cbn [length].
    pose proof (next_count_pos t d Hv). lia.
  - apply in_window_cons in Hw as [Ht Hw].
    cbn [let_through run]. rewrite allowed_iff, checks_of_cons.
    pose proof (call_rate_key settings t c d client_id) as Hcall.
    rewrite Hen, andb_true_r in Hcall.
    destruct (is_check_of client_id c).
    + pose proof (next_count_pos t d Hv) as Hpos.
      destruct (anchored_bound history _ _ _ Hw Hcall eq_refl ltac:(lia))
        as (Hb & e' & x' & He' & Hx' & Hle' & Hval).
      cbn [value] in Hb, Hval. cbn [andb]. split.
      * destruct (next_count t d K <=? Mx) eqn:Hcmp; [apply Z.leb_le in Hcmp|]; lia.
      * intros t' Ht'. rewrite (next_count_live t' _ e' x') by (done || lia). lia.
    + cbn [andb]. apply IH; try done.
      intros e He. apply Hv. by rewrite <- Hcall.
Qed.

End window_facts.

(** C7: with the limiter on and a non-negative [max_requests], take a
    cache in which the client's counter is not negative and any history of
    cache calls (of this client and of others) all made within one window
    [t0, t0 + window). At most [max_requests] of the client's checks are
    let through; and once the history holds [max_requests] checks of the
    client, a further request of the client in the window is answered by
    [check_rate_limit] with status 429 and the header
    [X-RateLimit-Remaining: 0], the remaining count left on the request
    being 0. *)
Theorem rate_limit_window_bound settings client_id t0 history
    (d : gmap string Redis.Entry) :
  rate_limit_enabled settings = true ->
  0 <= rate_limit_requests settings ->
  (forall e, d !! RateLimiter._get_key client_id = Some e -> 0 <= Redis.value e) ->
  (forall t c, (t, c) ∈ history -> t0 <= t < t0 + rate_limit_window settings) ->
  let_through settings client_id history d <= rate_limit_requests settings
  /\ forall t request w,
       t0 <= t < t0 + rate_limit_window settings ->
       rate_limit_requests settings <= checks_of client_id history ->
       client_host request = client_id ->
       redis w = run settings history d ->
       let r := check_rate_limit settings (RateLimiter.init settings) t request w in
       fst (fst r)
       = Raise (HTTPException 429 "Rate limit exceeded. Please try again later."
                  [("X-RateLimit-Remaining", "0")])
       /\ rate_limit_remaining (snd (fst r)) = Some 0.
Proof.
  intros Hen HMx Hv Hw.
  destruct (window_bound settings client_id t0 Hen history d HMx Hw Hv) as [Hb Hc].
  split; [exact Hb|].
  intros t request w Ht Hn Hcl Hr. cbv zeta.
  unfold check_rate_limit. rewrite Hcl, Hr.
  rewrite is_allowed_enabled by done. cbv zeta.
  specialize (Hc t Ht).
  cbn [RateLimiter.init RateLimiter.max_requests RateLimiter.window].
  assert (Hcmp : (next_count t (run settings history d) (RateLimiter._get_key client_id)
                  <=? rate_limit_requests settings) = false) by (apply Z.leb_gt; lia).
  rewrite Hcmp. cbn [negb fst snd rate_limit_remaining]. split; [done|].
  f_equal. lia.
Qed.

(** The theorem at a limit of two requests per minute: two checks of one
    client and one of another within a minute, then a third request of
    the first client. *)
Lemma rate_limit_window_bound_example :
  let settings := mkSettings 86400 true 2 60 in
  let history := [(100, IsAllowed "10.0.0.1"); (101, IsAllowed "10.0.0.2");
                  (130, IsAllowed "10.0.0.1")] in
  let request := mkRequest (Some "10.0.0.1") None in
  let w := mkWorld (run settings history ∅) [] [] no_metrics [] in
  let r := check_rate_limit settings (RateLimiter.init settings) 140 request w in
  let_through settings "10.0.0.1" history ∅ <= 2
  /\ fst (fst r)
     = Raise (HTTPException 429 "Rate limit exceeded. Please try again later."
                [("X-RateLimit-Remaining", "0")])
  /\ rate_limit_remaining (snd (fst r)) = Some 0.
Proof.
  cbv zeta.
  destruct (rate_limit_window_bound (mkSettings 86400 true 2 60) "10.0.0.1" 100
              [(100, IsAllowed "10.0.0.1"); (101, IsAllowed "10.0.0.2");
               (130, IsAllowed "10.0.0.1")] ∅) as [Hbound Hlast].
  - reflexivity.
  - simpl. lia.
  - intros e He. rewrite lookup_empty in He. discriminate.
  - intros t c Hin. simpl.
    repeat (apply elem_of_cons in Hin as [Hin|Hin]; [injection Hin as -> _; lia|]).
    by apply elem_of_nil in Hin.
  - split; [exact Hbound|]. apply Hlast.
    + simpl. lia.
    + vm_compute. discriminate.
    + reflexivity.
    + reflexivity.
Defined.

(** ** Ingest handler *)

Lemma filter_ext_in {A} (P Q : A -> Prop)
    `{!forall x, Decision (P x)} `{!forall x, Decision (Q x)} (l : list A) :
  (forall x, x ∈ l -> P x <-> Q x) -> filter P l = filter Q l.
Proof.
  induction l as [|x l IH]; intros Hext; [done|].
  rewrite !filter_cons.
  assert (Hx : P x <-> Q x) by (apply Hext; by left).
  rewrite IH by (intros y Hy; apply Hext; by right).
  destruct (decide (P x)), (decide (Q x)); tauto.
Qed.

Lemma filter_none {A} (P : A -> Prop) `{!forall x, Decision (P x)} (l : list A) :
  (forall x, x ∈ l -> ~ P x) -> filter P l = [].
Proof.
  induction l as [|x l IH]; intros Hno; [done|].
  rewrite filter_cons, decide_False by (apply Hno; by left).
  apply IH. intros y Hy. apply Hno. by right.
Qed.

Lemma elem_of_map {A B} (f : A -> B) (l : list A) (x : A) : x ∈ l -> f x ∈ map f l.
Proof. intros Hin. apply list_elem_of_In, in_map. by apply list_elem_of_In. Qed.

Section ingest_facts.
Import Redis.
Context (env : Env) (svc : IdempotencyService.t).

Lemma publish_batch_cons now ev evs w :
  NATSPublisher.publish_batch env now (ev :: evs) w
  = if js_fails env now (stream w) (Json ev) then (Raise PublishError, w)
    else NATSPublisher.publish_batch env now evs (set_stream (stream w ++ [Json ev]) w).
Proof.
  cbn [NATSPublisher.publish_batch]. unfold bind, NATSPublisher.publish_event.
  by destruct (js_fails env now (stream w) (Json ev)).
Qed.

(** Publishing touches the stream only, and raises nothing but the
    broker's refusal. *)
Lemma publish_batch_frame now evs : forall w,
  let r := NATSPublisher.publish_batch env now evs w in
  redis (snd r) = redis w /\ events (snd r) = events w
  /\ metrics (snd r) = metrics w /\ dispositions (snd r) = dispositions w
  /\ (fst r = Ok tt \/ fst r = Raise PublishError).
Proof.
  induction evs as [|ev evs IH]; intros w; cbv zeta.
  - cbn. tauto.
  - rewrite publish_batch_cons.
    destruct (js_fails env now (stream w) (Json ev)); [cbn; tauto|].
    apply (IH (set_stream (stream w ++ [Json ev]) w)).
Qed.

Lemma publish_batch_ok now evs : forall w,
  (forall s p, js_fails env now s p = false) ->
  NATSPublisher.publish_batch env now evs w
  = (Ok tt, set_stream (stream w ++ map Json evs) w).
Proof.
  induction evs as [|ev evs IH]; intros w Hno.
  - cbn. rewrite app_nil_r. by destruct w.
  - rewrite publish_batch_cons, Hno, IH by done. cbn. by rewrite <- app_assoc.
Qed.


Lemma filter_by_new_ids now (d : gmap string Entry) (batch : list EventCreate) :
  filter (fun event =>
            event_id event
            ∈ fst (fst (IdempotencyService.check_batch now d (map event_id batch)))) batch
  = filter (fun event =>
              fst (IdempotencyService.is_duplicate now d (event_id event)) = false) batch.
Proof.
  rewrite check_batch_filter. cbn [fst].
  apply filter_ext_in. intros event Hin.
  rewrite list_elem_of_filter. split; [tauto|].
  intros Hf. split; [done|]. by apply elem_of_map.
Qed.

Lemma new_ids_are_new_events now (d : gmap string Entry) (batch : list EventCreate) :
  fst (fst (IdempotencyService.check_batch now d (map event_id batch)))
  = map event_id
      (filter (fun event =>
                 fst (IdempotencyService.is_duplicate now d (event_id event)) = false) batch).
Proof.
  rewrite check_batch_filter. cbn [fst].
  induction batch as [|event batch IH]; [done|].
  cbn [map]. rewrite !filter_cons. case_decide; cbn [map]; by rewrite IH.
Qed.


Lemma set_redis_same (w : World) : set_redis (redis w) w = w.
Proof. by destruct w. Qed.

(** The handler, path by path. *)
Lemma ingest_events_unfold now batch w :
  ingest_events env svc now batch w
  = let new_events := new_events_of now w batch in
    let dups := len (snd (fst (IdempotencyService.check_batch now (redis w)
                                 (map event_id batch)))) in
    match new_events with
    | [] =>
        (Ok {| accepted := 0; duplicates := dups; failed := 0;
               message := "All events were duplicates" |},
         counted now batch w)
    | _ :: _ =>
        match NATSPublisher.publish_batch env now
                (map (NATSPublisher.model_dump env) new_events) (marked svc now batch w) with
        | (Ok _, w3) =>
            (Ok {| accepted := len new_events; duplicates := dups; failed := 0;
                   message := "Accepted " +:+ pretty (len new_events)
                              +:+ " events for processing" |}, w3)
        | (Raise _, w3) =>
            (Raise (HTTPException 500 "Failed to process events" []),
             set_metrics (inc_failed "ingestion_error" (metrics w3)) w3)
        end
    end.
Proof.
  cbv zeta. unfold ingest_events, try_except, bind, modify, ret, raise, marked, counted, new_events_of.
  destruct (IdempotencyService.check_batch now (redis w) (map event_id batch))
    as [[new_ids duplicate_ids] d1] eqn:Hcb.
  assert (Hd1 : d1 = redis w).
  { pose proof (check_batch_filter now (redis w) (map event_id batch)) as Hf.
    rewrite Hcb in Hf. by injection Hf. }
  assert (Hnew : filter (fun event => event_id event ∈ new_ids) batch
                 = filter (fun event =>
                     fst (IdempotencyService.is_duplicate now (redis w) (event_id event))
                     = false) batch).
  { pose proof (filter_by_new_ids now (redis w) batch) as Hf. by rewrite Hcb in Hf. }
  subst d1. rewrite set_redis_same. cbn [fst snd]. rewrite Hnew. clear Hnew.
  destruct (filter (fun event =>
              fst (IdempotencyService.is_duplicate now (redis w) (event_id event)) = false)
              batch) as [|event new_events].
  - done.
  - cbn [redis set_metrics metrics].
    destruct (NATSPublisher.publish_batch env now _ _) as [[[]|e] w3]; done.
Qed.


Lemma check_batch_lengths now (d : gmap string Entry) (batch : list EventCreate) :
  len batch
  = len (fst (fst (IdempotencyService.check_batch now d (map event_id batch))))
    + len (snd (fst (IdempotencyService.check_batch now d (map event_id batch)))).
Proof.
  pose proof (check_batch_permutation now d (map event_id batch)) as Hp.
  apply Permutation_length in Hp. rewrite length_app, length_map in Hp.
  unfold len. lia.
Qed.

Lemma new_events_length now w batch :
  len (new_events_of now w batch)
  = len (fst (fst (IdempotencyService.check_batch now (redis w) (map event_id batch)))).
Proof.
  rewrite new_ids_are_new_events. unfold len, new_events_of. by rewrite length_map.
Qed.

(** What the handler answers: a response with the counts of the two
    lists of [check_batch], or the 500 of a failed publication. *)
Lemma ingest_events_answer now batch w :
  match fst (ingest_events env svc now batch w) with
  | Ok resp =>
      accepted resp
      = len (fst (fst (IdempotencyService.check_batch now (redis w) (map event_id batch))))
      /\ duplicates resp
         = len (snd (fst (IdempotencyService.check_batch now (redis w)
                            (map event_id batch))))
      /\ failed resp = 0
      /\ len batch = accepted resp + duplicates resp + failed resp
  | Raise e =>
      e = HTTPException 500 "Failed to process events" []
      /\ fst (fst (IdempotencyService.check_batch now (redis w) (map event_id batch)))
         <> []
  end.
Proof.
  rewrite ingest_events_unfold. cbv zeta.
  pose proof (check_batch_lengths now (redis w) batch) as Hlen.
  pose proof (new_events_length now w batch) as Hnew.
  destruct (new_events_of now w batch) as [|event new_events] eqn:Hne.
  - cbn [fst snd accepted duplicates failed]. unfold len at 1 in Hnew. cbn [length] in Hnew.
    repeat split; lia.
  - assert (Hnz : fst (fst (IdempotencyService.check_batch now (redis w)
                              (map event_id batch))) <> []).
    { intros Hnil. rewrite Hnil in Hnew. unfold len in Hnew. cbn [length] in Hnew. lia. }
    destruct (NATSPublisher.publish_batch env now _ _) as [[u|e] w3];
      cbn [fst accepted duplicates failed]; [|done].
    repeat split; lia.
Qed.

(** C2: every response the handler returns (status 202) counts as accepted
    the identifiers [check_batch] found new and as duplicates those it
    found in the cache, with [failed = 0], so the three counts add up to
    the size of the batch; the only failure is the 500 raised when a
    publication fails. When no identifier is new the response is
    [{accepted: 0, duplicates: |duplicate_ids|, failed: 0}] and neither the
    cache nor the stream changes. When the TTL is positive (the cache
    refuses to mark with another) and the broker refuses nothing, a
    response is returned. *)
Theorem ingest_events_counts now batch w :
  let r := ingest_events env svc now batch w in
  let new_ids :=
    fst (fst (IdempotencyService.check_batch now (redis w) (map event_id batch))) in
  let duplicate_ids :=
    snd (fst (IdempotencyService.check_batch now (redis w) (map event_id batch))) in
  match fst r with
  | Ok resp =>
      accepted resp = len new_ids /\ duplicates resp = len duplicate_ids
      /\ failed resp = 0
      /\ len batch = accepted resp + duplicates resp + failed resp
  | Raise e => e = HTTPException 500 "Failed to process events" [] /\ new_ids <> []
  end
  /\ (new_ids = [] ->
      fst r = Ok {| accepted := 0; duplicates := len duplicate_ids; failed := 0;
                    message := "All events were duplicates" |}
      /\ redis (snd r) = redis w /\ stream (snd r) = stream w)
  /\ (0 < IdempotencyService.ttl svc ->
      (forall s p, js_fails env now s p = false) -> is_ok (fst r) = true).
Proof.
  cbv zeta. split; [apply ingest_events_answer|].
  rewrite ingest_events_unfold. cbv zeta.
  pose proof (new_events_length now w batch) as Hnew.
  destruct (new_events_of now w batch) as [|event new_events] eqn:Hne.
  - split; [|done]. intros _. by destruct w.
  - split.
    + intros Hnil. rewrite Hnil in Hnew. unfold len in Hnew. cbn [length] in Hnew. lia.
    + intros _ Hno. by rewrite publish_batch_ok.
Qed.

(** The handler never writes the store, and a response leaves every
    identifier of the batch live in the cache at the instant of the call
    (given a positive TTL). *)
Lemma ingest_events_store now batch w :
  events (snd (ingest_events env svc now batch w)) = events w
  /\ dispositions (snd (ingest_events env svc now batch w)) = dispositions w.
Proof.
  rewrite ingest_events_unfold. cbv zeta.
  destruct (new_events_of now w batch) as [|event new_events]; [done|].
  pose proof (publish_batch_frame now
                (map (NATSPublisher.model_dump env) (event :: new_events))
                (marked svc now batch w)) as Hframe.
  cbv zeta in Hframe. destruct Hframe as (_ & He & _ & Hd & _).
  destruct (NATSPublisher.publish_batch env now _ _) as [[u|e] w3]; cbn [fst snd] in *;
    by rewrite ?He, ?Hd.
Qed.

Lemma ingest_events_marks now batch w event :
  0 < IdempotencyService.ttl svc ->
  is_ok (fst (ingest_events env svc now batch w)) = true ->
  event ∈ batch ->
  is_Some (lookup_live now (redis (snd (ingest_events env svc now batch w)))
             (IdempotencyService._get_key (event_id event))).
Proof.
  intros Httl Hok Hin. rewrite ingest_events_unfold in Hok |- *. cbv zeta in Hok |- *.
  destruct (new_events_of now w batch) as [|event0 new_events] eqn:Hne.
  - cbn [snd counted redis set_metrics].
    destruct (lookup_live now (redis w) (IdempotencyService._get_key (event_id event)))
      as [e|] eqn:Hl; [eauto|].
    assert (Hnew : event ∈ new_events_of now w batch).
    { apply list_elem_of_filter. split; [|done].
      rewrite is_duplicate_spec, Hl. cbn [fst]. apply bool_decide_eq_false.
      by intros [? ?]. }
    rewrite Hne in Hnew. by apply elem_of_nil in Hnew.
  - rewrite <- Hne in *. clear Hne event0 new_events.
    pose proof (publish_batch_frame now
                  (map (NATSPublisher.model_dump env) (new_events_of now w batch))
                  (marked svc now batch w)) as Hframe.
    cbv zeta in Hframe. destruct Hframe as (Hr & _).
    destruct (NATSPublisher.publish_batch env now _ _) as [[u|e] w3];
      cbn [fst snd is_ok] in *; [|done].
    rewrite Hr. unfold marked. cbn [redis set_redis].
    set (key := IdempotencyService._get_key (event_id event)).
    assert (Hm : exists en,
               IdempotencyService.mark_batch_as_seen svc now (redis w)
                 (fst (fst (IdempotencyService.check_batch now (redis w)
                              (map event_id batch)))) !! key = Some en
               /\ is_live now en = true).
    { unfold key. rewrite mark_batch_lookup. unfold after_set.
      destruct (lookup_live now (redis w) (IdempotencyService._get_key (event_id event)))
        as [e|] eqn:Hl.
      - apply lookup_live_Some in Hl as [Hd Hlive]. exists e.
        split; [by case_bool_decide|done].
      - rewrite bool_decide_eq_true_2.
        + eexists. split; [done|]. unfold is_live. cbn [expires_at].
          apply Z.ltb_lt. lia.
        + apply check_batch_new. split; [by apply elem_of_map|done]. }
    destruct Hm as (en & Hen & Hlive). exists en. apply lookup_live_Some. auto.
Qed.

(** C8: when a submission of a batch is answered (202) and the same batch
    is submitted again before a dedup entry of the batch expires, the
    second submission is answered too and its counts add up to the same
    total: it accepts nothing, counts the whole batch as duplicates,
    publishes nothing, marks nothing and leaves the store (so its row
    count) as it was. Neither submission writes the store. Only the dedup
    entries of the batch matter: the cache [d2] that the second submission
    finds may differ from the one the first left in every other key (the
    counters of the rate limiter, written and expiring with every request,
    the entries of other events). *)
Theorem resubmission_changes_nothing t1 t2 batch w (d2 : gmap string Entry) :
  let r1 := ingest_events env svc t1 batch w in
  let r2 := ingest_events env svc t2 batch (set_redis d2 (snd r1)) in
  0 < IdempotencyService.ttl svc ->
  is_ok (fst r1) = true ->
  (forall event, event ∈ batch ->
     d2 !! IdempotencyService._get_key (event_id event)
     = redis (snd r1) !! IdempotencyService._get_key (event_id event)) ->
  no_dedup_expiry_between (redis (snd r1)) batch t1 t2 ->
  exists resp1 resp2,
    fst r1 = Ok resp1 /\ fst r2 = Ok resp2
    /\ accepted resp2 + duplicates resp2 = accepted resp1 + duplicates resp1
    /\ accepted resp2 = 0 /\ duplicates resp2 = len batch
    /\ events (snd r2) = events (snd r1)
    /\ len (events (snd r2)) = len (events w)
    /\ stream (snd r2) = stream (snd r1)
    /\ redis (snd r2) = d2.
Proof.
  cbv zeta. intros Httl Hok Hsame Hkeep.
  assert (Hall : forall event, event ∈ batch ->
            is_Some (lookup_live t2 d2 (IdempotencyService._get_key (event_id event)))).
  { intros event Hin.
    destruct (ingest_events_marks t1 batch w event Httl Hok Hin) as [en Hen].
    apply lookup_live_Some in Hen as [Hd Hlive].
    exists en. apply lookup_live_Some. split; [by rewrite Hsame|].
    by apply (Hkeep event en Hin Hd). }
  destruct (ingest_events_store t1 batch w) as [Hstore1 _].
  pose proof (ingest_events_answer t1 batch w) as H1.
  set (r1 := ingest_events env svc t1 batch w) in *.
  destruct (fst r1) as [resp1|e1] eqn:Hr1; [|done].
  destruct H1 as (Ha1 & Hd1 & Hf1 & Hsum1).
  set (w2 := set_redis d2 (snd r1)).
  assert (Hnone : new_events_of t2 w2 batch = []).
  { apply filter_none. intros event Hin. rewrite is_duplicate_spec. cbn [fst].
    rewrite bool_decide_eq_false. intros Hn. by apply Hn, Hall. }
  pose proof (new_events_length t2 w2 batch) as Hnew2.
  pose proof (check_batch_lengths t2 (redis w2) batch) as Hlen2.
  rewrite Hnone in Hnew2. unfold len at 1 in Hnew2. cbn [length] in Hnew2.
  rewrite ingest_events_unfold. cbv zeta. rewrite Hnone.
  eexists resp1, _. split; [done|]. split; [done|].
  cbn [accepted duplicates snd counted].
  unfold w2 in *. destruct (snd r1) as [rd st ev me di]. cbn in *.
  repeat split; try done; try lia. by rewrite Hstore1.
Qed.

End ingest_facts.

(** The theorem on two requests of one client, at instants 10 and 110,
    with a batch of three events, two of them with the same identifier,
    and a TTL of 24 hours. Each request passes the rate-limit check before
    its batch is handled: the counter that the first check wrote has
    expired at 70, and the second check has written it anew. *)
Lemma resubmission_changes_nothing_example :
  let svc := IdempotencyService.mk 86400 in
  let limiter := RateLimiter.init default_settings in
  let batch := [mkEvent "7d0c" "user_1" "page_view" 5 [];
                mkEvent "91aa" "user_2" "purchase" 6 [];
                mkEvent "7d0c" "user_1" "page_view" 5 []] in
  let w := set_redis (snd (RateLimiter.is_allowed default_settings limiter 10 ∅ "10.0.0.1"))
                     empty_world in
  let r1 := ingest_events sample_env svc 10 batch w in
  let d2 := snd (RateLimiter.is_allowed default_settings limiter 110 (redis (snd r1))
                   "10.0.0.1") in
  let r2 := ingest_events sample_env svc 110 batch (set_redis d2 (snd r1)) in
  exists resp1 resp2,
    fst r1 = Ok resp1 /\ fst r2 = Ok resp2
    /\ accepted resp2 + duplicates resp2 = accepted resp1 + duplicates resp1
    /\ accepted resp2 = 0 /\ duplicates resp2 = len batch
    /\ events (snd r2) = events (snd r1)
    /\ len (events (snd r2)) = len (events w)
    /\ stream (snd r2) = stream (snd r1)
    /\ redis (snd r2) = d2.
Proof.
  apply (resubmission_changes_nothing sample_env (IdempotencyService.mk 86400) 10 110).
  - simpl. lia.
  - vm_compute. reflexivity.
  - intros event Hin.
    repeat (apply elem_of_cons in Hin as [->|Hin]; [vm_compute; reflexivity|]).
    by apply elem_of_nil in Hin.
  - intros event e Hin.
    repeat (apply elem_of_cons in Hin as [->|Hin];
            [vm_compute; intros Hl _; injection Hl as <-; reflexivity|]).
    by apply elem_of_nil in Hin.
Defined.

(** ** Event store writer *)

Section store_facts.
Import Database EventService.
Context (env : Env) (now : Z).

Lemma execute_insert_spec event s :
  driver_fails env now (visible s) event = false ->
  execute_insert env now event s
  = if bool_decide (event_id event ∈ map event_id (visible s))
    then (Ok 0, s)
    else (Ok 1, {| committed := committed s; pending := pending s ++ [event] |}).
Proof. intros Hf. unfold execute_insert. by rewrite Hf. Qed.

Lemma insert_loop_cons event rest inserted duplicates s :
  insert_loop env now (event :: rest) inserted duplicates s
  = if driver_fails env now (visible s) event then (Raise DriverError, s)
    else if bool_decide (event_id event ∈ map event_id (visible s))
         then insert_loop env now rest inserted (duplicates + 1) s
         else insert_loop env now rest (inserted + 1) duplicates
                {| committed := committed s; pending := pending s ++ [event] |}.
Proof.
  cbn [insert_loop]. unfold bind, execute_insert.
  destruct (driver_fails env now (visible s) event); [done|].
  by case_bool_decide.
Qed.

Lemma visible_pending_app s event :
  visible {| committed := committed s; pending := pending s ++ [event] |}
  = visible s ++ [event].
Proof. unfold visible. cbn. by rewrite app_assoc. Qed.

(** The loop never commits; when it ends without a raise it has added the
    fresh rows to the open transaction and counted every event once. *)
Lemma insert_loop_spec evs : forall s inserted duplicates,
  let r := insert_loop env now evs inserted duplicates s in
  committed (snd r) = committed s
  /\ match fst r with
     | Ok (inserted', duplicates') =>
         pending (snd r) = pending s ++ fresh_rows (visible s) evs
         /\ inserted' = inserted + len (fresh_rows (visible s) evs)
         /\ inserted' + duplicates' = inserted + duplicates + len evs
     | Raise e => e = DriverError
     end.
Proof.
  induction evs as [|event rest IH]; intros s inserted duplicates; cbv zeta.
  - cbn. rewrite app_nil_r. unfold len. cbn. repeat split; lia.
  - rewrite insert_loop_cons.
    destruct (driver_fails env now (visible s) event); [done|].
    cbn [fresh_rows]. case_bool_decide as Hin.
    + specialize (IH s inserted (duplicates + 1)). cbv zeta in IH.
      destruct IH as [Hc IH]. split; [done|].
      destruct (fst (insert_loop env now rest inserted (duplicates + 1) s))
        as [[i' d']|e]; [|done].
      destruct IH as (Hp & Hi & Hsum). unfold len in *. cbn [length].
      repeat split; try done; lia.
    + specialize (IH {| committed := committed s; pending := pending s ++ [event] |}
                     (inserted + 1) duplicates).
      cbv zeta in IH. rewrite visible_pending_app in IH.
      destruct IH as [Hc IH]. split; [done|].
      destruct (fst (insert_loop env now rest (inserted + 1) duplicates _))
        as [[i' d']|e]; [|done].
      destruct IH as (Hp & Hi & Hsum). cbn [pending] in Hp. unfold len in *.
      cbn [length]. rewrite Hp, <- app_assoc. repeat split; try done; lia.
Qed.

Lemma insert_loop_app pre rest : forall s inserted duplicates,
  insert_loop env now (pre ++ rest) inserted duplicates s
  = match insert_loop env now pre inserted duplicates s with
    | (Ok (inserted', duplicates'), s') => insert_loop env now rest inserted' duplicates' s'
    | (Raise e, s') => (Raise e, s')
    end.
Proof.
  induction pre as [|event pre IH]; intros s inserted duplicates; [done|].
  rewrite <- app_comm_cons, !insert_loop_cons.
  destruct (driver_fails env now (visible s) event); [done|].
  case_bool_decide; apply IH.
Qed.

(** The call on a fresh session over the store. *)
Lemma insert_events_session evs w :
  get_session (insert_events env now evs) w
  = match insert_loop env now evs 0 0 {| committed := events w; pending := [] |} with
    | (Ok counts, s) => (Ok counts, set_events (committed s ++ pending s) w)
    | (Raise e, s) => (Raise e, set_events (committed s) w)
    end.
Proof.
  unfold get_session, insert_events, bind, commit, modify, ret.
  by destruct (insert_loop env now evs 0 0 _) as [[counts|e] s].
Qed.


Lemma ids_app rows1 rows2 : ids (rows1 ++ rows2) = ids rows1 ∪ ids rows2.
Proof. unfold ids. by rewrite map_app, list_to_set_app_L. Qed.

Lemma elem_of_ids event rows :
  event_id event ∈ map event_id rows <-> event_id event ∈ ids rows.
Proof. unfold ids. by rewrite elem_of_list_to_set. Qed.

Lemma fresh_rows_sublist evs : forall seen, sublist (fresh_rows seen evs) evs.
Proof.
  induction evs as [|event rest IH]; intros seen; cbn [fresh_rows]; [done|].
  case_bool_decide; [apply sublist_cons|apply sublist_skip]; apply IH.
Qed.

Lemma ids_nil : ids [] = ∅.
Proof. done. Qed.

Lemma ids_cons event rows : ids (event :: rows) = {[event_id event]} ∪ ids rows.
Proof. done. Qed.

Lemma fresh_rows_ids evs : forall seen,
  ids (seen ++ fresh_rows seen evs) = ids seen ∪ ids evs.
Proof.
  induction evs as [|event rest IH]; intros seen; cbn [fresh_rows].
  - rewrite app_nil_r, ids_nil. set_solver.
  - rewrite ids_cons. case_bool_decide as Hin.
    + rewrite IH. apply elem_of_ids in Hin. set_solver.
    + rewrite (cons_middle event seen), app_assoc, IH, ids_app, ids_cons, ids_nil.
      set_solver.
Qed.

Lemma fresh_rows_size evs : forall seen,
  length (fresh_rows seen evs) = size (ids evs ∖ ids seen).
Proof.
  induction evs as [|event rest IH]; intros seen; cbn [fresh_rows].
  - rewrite ids_nil. replace (∅ ∖ ids seen) with (∅ : gset UUID) by set_solver.
    by rewrite size_empty.
  - rewrite ids_cons. case_bool_decide as Hin.
    + rewrite IH. apply elem_of_ids in Hin. f_equal. set_solver.
    + cbn [length]. rewrite IH, ids_app, ids_cons, ids_nil.
      assert (Hnin : event_id event ∉ ids seen) by (by rewrite <- elem_of_ids).
      replace (({[event_id event]} ∪ ids rest) ∖ ids seen)
        with ({[event_id event]} ∪ ids rest ∖ (ids seen ∪ ({[event_id event]} ∪ ∅))).
      * assert (Hdisj : ({[event_id event]} : gset string)
                        ## ids rest ∖ (ids seen ∪ ({[event_id event]} ∪ ∅)))
          by set_solver.
        pose proof (size_union _ _ Hdisj) as Hsz.
        rewrite Hsz, size_singleton. done.
      * apply set_eq. intros x. destruct (decide (x = event_id event)); set_solver.
Qed.

Lemma fresh_rows_NoDup evs : forall seen,
  NoDup (map event_id seen) -> NoDup (map event_id (seen ++ fresh_rows seen evs)).
Proof.
  induction evs as [|event rest IH]; intros seen Hnd; cbn [fresh_rows].
  - by rewrite app_nil_r.
  - case_bool_decide as Hin; [by apply IH|].
    rewrite (cons_middle event seen), app_assoc. apply IH.
    rewrite map_app. cbn [map]. apply NoDup_app. split; [done|]. split.
    + intros x Hx Hx'. apply list_elem_of_singleton in Hx'. by subst x.
    + apply NoDup_singleton.
Qed.


(** C4: an insert that the driver carries out returns row count 1 and adds
    the row to the open transaction exactly when the identifier is not
    among the rows the transaction sees, and row count 0 without a change
    otherwise. A call that returns gives [(inserted, duplicates)] with one
    count per event: [inserted] is the number of distinct identifiers of
    the call that the store did not hold, the rows are committed together
    behind the rows of the store, and identifiers stay unique. A call in
    which an insert raises passes the driver's exception on and leaves the
    store as it was; the first insert the driver refuses makes the call
    raise, and when the driver refuses nothing the call returns. *)
Theorem insert_events_transaction evs w :
  let r := get_session (insert_events env now evs) w in
  (forall event s,
     driver_fails env now (visible s) event = false ->
     execute_insert env now event s
     = if bool_decide (event_id event ∈ map event_id (visible s))
       then (Ok 0, s)
       else (Ok 1, {| committed := committed s; pending := pending s ++ [event] |}))
  /\ match fst r with
     | Ok (inserted, duplicates) =>
         inserted + duplicates = len evs
         /\ inserted = Z.of_nat (size (ids evs ∖ ids (events w)))
         /\ (exists new_rows,
               events (snd r) = events w ++ new_rows
               /\ len new_rows = inserted /\ sublist new_rows evs)
         /\ ids (events (snd r)) = ids (events w) ∪ ids evs
         /\ (NoDup (map event_id (events w)) -> NoDup (map event_id (events (snd r))))
     | Raise e => e = DriverError /\ events (snd r) = events w
     end
  /\ (forall pre event post,
        evs = pre ++ event :: post ->
        is_ok (fst (get_session (insert_events env now pre) w)) = true ->
        driver_fails env now
          (events (snd (get_session (insert_events env now pre) w))) event = true ->
        fst r = Raise DriverError /\ events (snd r) = events w)
  /\ ((forall rows event, driver_fails env now rows event = false) ->
      is_ok (fst r) = true).
Proof.
  cbv zeta. split; [exact execute_insert_spec|].
  rewrite insert_events_session.
  pose proof (insert_loop_spec evs {| committed := events w; pending := [] |} 0 0) as Hl.
  cbv zeta in Hl. cbn [committed pending visible] in Hl.
  unfold visible in Hl. cbn [committed pending] in Hl. rewrite app_nil_r in Hl.
  destruct Hl as [Hc Hl].
  split; [|split].
  - destruct (insert_loop env now evs 0 0 _) as [[[inserted duplicates]|e] s];
      cbn [fst snd] in *.
    + destruct Hl as (Hp & Hi & Hsum). cbn [events set_events].
      rewrite Hc, Hp. cbn [app].
      split; [lia|]. split.
      { rewrite Hi. unfold len. rewrite fresh_rows_size. lia. }
      split.
      { exists (fresh_rows (events w) evs). split; [done|]. split; [lia|].
        apply fresh_rows_sublist. }
      split; [apply fresh_rows_ids|apply fresh_rows_NoDup].
    + cbn [events set_events]. by rewrite Hc.
  - intros pre event post -> Hok Hfail.
    rewrite insert_events_session in Hok, Hfail.
    pose proof (insert_loop_spec pre {| committed := events w; pending := [] |} 0 0)
      as Hpre.
    cbv zeta in Hpre. destruct Hpre as [Hcp Hpre].
    rewrite insert_loop_app.
    destruct (insert_loop env now pre 0 0 _) as [[[i' d']|e] s'];
      cbn [fst snd is_ok] in *; [|done].
    rewrite insert_loop_cons.
    cbn [events set_events] in Hfail. unfold visible. rewrite Hfail.
    cbn [fst snd events set_events]. by rewrite Hcp.
  - intros Hno.
    assert (Hok : forall l s i d, is_ok (fst (insert_loop env now l i d s)) = true).
    { induction l as [|event rest IH]; intros s i d; [done|].
      rewrite insert_loop_cons, Hno. case_bool_decide; apply IH. }
    specialize (Hok evs {| committed := events w; pending := [] |} 0 0).
    by destruct (insert_loop env now evs 0 0 _) as [[counts|e] s].
Qed.

End store_facts.

(** An insert the driver refuses, after one it carried out: the call
    raises and the store keeps its one row. *)
Example insert_events_rolls_back :
  let env := mkEnv (fun _ _ _ => false)
                   (fun _ _ event => bool_decide (user_id event = "bad"))
                   (to_uuid sample_env) (to_datetime sample_env)
                   (dump_datetime sample_env) in
  let w := set_events [mkEvent "0a" "u0" "view" 1 []] empty_world in
  let r := Database.get_session
             (EventService.insert_events env 10
                [mkEvent "0b" "u1" "view" 2 []; mkEvent "0c" "bad" "view" 3 []]) w in
  fst r = Raise DriverError /\ events (snd r) = events w.
Proof. by vm_compute. Qed.

(** ** Queue consumer worker *)

Section worker_facts.
Import Worker.
Context (env : Env) (now : Z).

Lemma insert_one_session event w :
  Database.get_session (EventService.insert_events env now [event]) w
  = if driver_fails env now (events w) event then (Raise DriverError, set_events (events w) w)
    else if bool_decide (event_id event ∈ map event_id (events w))
         then (Ok (0, 1), set_events (events w) w)
         else (Ok (1, 0), set_events (events w ++ [event]) w).
Proof.
  rewrite insert_events_session, insert_loop_cons.
  unfold Database.visible. cbn [Database.committed Database.pending]. rewrite app_nil_r.
  destruct (driver_fails env now (events w) event); [done|].
  case_bool_decide; cbn; by rewrite ?app_nil_r.
Qed.

Lemma EventCreate_init_raises fields e :
  EventCreate_init env now fields = Raise e -> e = ValidationError.
Proof.
  unfold EventCreate_init. intros H. repeat case_match; congruence.
Qed.



End worker_facts.


(** The length bounds of the model count characters, not bytes: a user
    identifier of 200 Cyrillic letters, 400 bytes long, is within the
    bound of 255, one of 256 Latin letters is not, and the worker stores
    and acknowledges the event of the first. *)
Example lengths_are_counted_in_characters :
  let user := String.concat "" (replicate 200 "я") in
  let msg := Json (NATSPublisher.model_dump sample_env
                     (mkEvent "e1" user "page_view" 5 [])) in
  let w' := snd (Worker.process_event sample_env 10 msg empty_world) in
  String.length user = 400%nat
  /\ Worker.in_length user 1 255 = true
  /\ Worker.in_length (String.concat "" (replicate 256 "a")) 1 255 = false
  /\ map user_id (events w') = [user]
  /\ map snd (dispositions w') = [Ack].
Proof. vm_compute. repeat split. Qed.


(** ** Daily active users *)

Section dau_facts.
Import Database EventService.

Lemma date_window (from_date to_date t : Z) :
  midnight from_date <= t /\ t < midnight (to_date + 1)
  <-> from_date <= DATE t <= to_date.
Proof.
  unfold midnight, DATE.
  pose proof (Z.div_mod t 86400 ltac:(lia)) as Hdm.
  pose proof (Z.mod_pos_bound t 86400 ltac:(lia)) as Hb.
  lia.
Qed.

Lemma on_date_filter (P : EventCreate -> Prop) `{!forall r, Decision (P r)} d rows :
  (forall r, DATE (occurred_at r) = d -> P r) ->
  on_date d (filter P rows) = on_date d rows.
Proof.
  intros HP. unfold on_date. rewrite list_filter_filter.
  apply list_filter_iff. intros r. split; [tauto|]. intros Hd. split; [done|]. auto.
Qed.

Lemma StronglySorted_le_lt (l : list Z) :
  StronglySorted Z.le l -> NoDup l -> StronglySorted Z.lt l.
Proof.
  induction 1 as [|x l Hs IH Hall]; intros Hnd; [constructor|].
  apply NoDup_cons in Hnd as [Hx Hnd]. constructor; [by apply IH|].
  apply Forall_forall. intros y Hy.
  assert (x <= y) by (eapply Forall_forall in Hall; eauto).
  assert (x <> y) by (intros ->; done). lia.
Qed.

Lemma map_fst_pair {A B} (f : A -> B) (l : list A) :
  map fst (map (fun d => (d, f d)) l) = l.
Proof. induction l as [|x l IH]; [done|]. cbn. by rewrite IH. Qed.

Lemma elem_of_map_pair {A B} (f : A -> B) (l : list A) d n :
  (d, n) ∈ map (fun d => (d, f d)) l <-> d ∈ l /\ n = f d.
Proof.
  rewrite list_elem_of_In, in_map_iff. setoid_rewrite <- list_elem_of_In. split.
  - intros (x & [= -> ->] & Hin). done.
  - intros [Hin ->]. eauto.
Qed.

Lemma elem_of_map_iff {A B} (f : A -> B) (l : list A) y :
  y ∈ map f l <-> exists x, f x = y /\ x ∈ l.
Proof. rewrite list_elem_of_In, in_map_iff. by setoid_rewrite <- list_elem_of_In. Qed.

(** The query on dates [from_date <= to_date] with [to_date] before the
    last day a [date] can hold: one row per day of the range on which the
    store has an event, in strictly ascending order of the date, with the
    number of distinct users of that day. *)
Lemma get_dau_spec from_date to_date w :
  from_date <= to_date -> date_min <= to_date + 1 <= date_max ->
  exists rows,
    get_daily_active_users from_date to_date w = (Ok rows, w)
    /\ StronglySorted Z.lt (map fst rows)
    /\ forall d n,
         (d, n) ∈ rows
         <-> from_date <= d <= to_date
             /\ on_date d (events w) <> []
             /\ n = Z.of_nat (size (distinct_users (on_date d (events w)))).
Proof.
  intros Hle Hrange. unfold get_daily_active_users.
  rewrite bool_decide_eq_false_2 by lia.
  unfold get_session, get_dau, date_add. cbn [committed pending visible].
  unfold visible. cbn [committed pending]. rewrite app_nil_r.
  replace ((date_min <=? to_date + 1) && (to_date + 1 <=? date_max)) with true
    by (symmetry; apply andb_true_intro; split; apply Z.leb_le; lia).
  eexists. split; [by destruct w|].
  set (hits := filter _ (events w)).
  assert (Hhits : forall r, r ∈ hits
            <-> r ∈ events w /\ from_date <= DATE (occurred_at r) <= to_date).
  { intros r. unfold hits. rewrite list_elem_of_filter, date_window. tauto. }
  split.
  - rewrite map_fst_pair. apply StronglySorted_le_lt.
    + apply StronglySorted_merge_sort; apply _.
    + rewrite merge_sort_Permutation. apply NoDup_remove_dups.
  - intros d n. rewrite elem_of_map_pair, merge_sort_Permutation, elem_of_remove_dups.
    rewrite elem_of_map_iff.
    assert (Hon : from_date <= d <= to_date -> on_date d hits = on_date d (events w)).
    { intros Hd. apply on_date_filter. intros r Hr. apply date_window. lia. }
    split.
    + intros [(r & Hr & Hin) ->]. apply Hhits in Hin as [Hin Hd]. subst d.
      rewrite Hon by done. split; [done|]. split; [|done].
      intros Hnil. assert (Hr : r ∈ on_date (DATE (occurred_at r)) (events w))
        by (by apply list_elem_of_filter).
      rewrite Hnil in Hr. by apply elem_of_nil in Hr.
    + intros (Hd & Hne & ->). rewrite Hon by done. split; [|done].
      destruct (on_date d (events w)) as [|r rest] eqn:Hod; [done|].
      assert (Hr : r ∈ on_date d (events w)) by (rewrite Hod; by left).
      apply list_elem_of_filter in Hr as [Hrd Hrin].
      exists r. split; [done|]. apply Hhits. split; [done|lia].
Qed.

(** Dates out of order are refused with status 400 whatever the store
    holds, and the store is not touched. *)
Lemma get_dau_rejects_reversed from_date to_date w :
  from_date > to_date ->
  get_daily_active_users from_date to_date w
  = (Raise (HTTPException 400 "from_date must be before to_date" []), w).
Proof.
  intros Hgt. unfold get_daily_active_users. by rewrite bool_decide_eq_true_2.
Qed.

(** C9 fails on the last day: with [to = 9999-12-31], whatever the store
    holds, computing the end of the interval leaves the range of [date]
    and the query raises instead of returning the counts. *)
Theorem get_dau_overflows_on_last_day w :
  get_daily_active_users date_max date_max w = (Raise OverflowError, w).
Proof. by destruct w. Qed.

End dau_facts.

(** ** Cohort retention *)

Section retention_facts.
Import Database.

Lemma retained_on_inter rows (cohort_users : gset string) d :
  EventService.retained_on rows cohort_users d
  = Z.of_nat (size (cohort_users ∩ EventService.distinct_users (EventService.on_date d rows))).
Proof.
  unfold EventService.retained_on. f_equal. f_equal. apply set_eq. intros u.
  unfold EventService.distinct_users. rewrite elem_of_intersection, !elem_of_list_to_set.
  rewrite !elem_of_map_iff. split.
  - intros (r & <- & Hr). apply list_elem_of_filter in Hr as [Hc Hr]. eauto.
  - intros [Hc (r & <- & Hr)]. exists r. split; [done|]. by apply list_elem_of_filter.
Qed.

Lemma get_retention_session start_date windows window_type w :
  get_retention start_date windows window_type w
  = let cohort_users := EventService.distinct_users (EventService.on_date start_date (events w)) in
    if bool_decide (size cohort_users = 0%nat) then (Ok [], w)
    else
      match EventService.retention_loop (events w) start_date window_type cohort_users
              (mkCohort start_date (Z.of_nat (size cohort_users))
                        None None None None None None)
              (seqZ 1 windows) with
      | Raise e => (Raise e, w)
      | Ok cohort1 => (Ok [cohort1], w)
      end.
Proof.
  unfold get_retention, get_session, EventService.get_retention.
  unfold visible. cbn [committed pending]. rewrite app_nil_r. cbv zeta.
  case_bool_decide; [by destruct w|].
  destruct (EventService.retention_loop _ _ _ _ _ _); by destruct w.
Qed.

Lemma retention_step_fourth rows start_date window_type cohort_users cohort :
  is_ok (EventService.retention_step rows start_date window_type cohort_users cohort 4) = false.
Proof.
  unfold EventService.retention_step. destruct (date_add _ _); [|done]. done.
Qed.

Lemma retention_loop_raises rows start_date window_type cohort_users windows :
  4 ∈ windows ->
  forall cohort,
    is_ok (EventService.retention_loop rows start_date window_type cohort_users cohort windows) = false.
Proof.
  induction windows as [|k windows IH]; intros Hin cohort.
  - by apply elem_of_nil in Hin.
  - cbn [EventService.retention_loop]. apply elem_of_cons in Hin as [<-|Hin].
    + pose proof (retention_step_fourth rows start_date window_type cohort_users cohort).
      by destruct (EventService.retention_step _ _ _ _ _ 4).
    + destruct (EventService.retention_step _ _ _ _ _ k); [by apply IH|done].
Qed.

(** Asked for four windows or more on a cohort that is not empty, the
    query raises. *)
Lemma get_retention_beyond_three_raises start_date windows window_type w :
  4 <= windows ->
  EventService.distinct_users (EventService.on_date start_date (events w)) <> ∅ ->
  is_ok (fst (get_retention start_date windows window_type w)) = false.
Proof.
  intros Hw Hne. rewrite get_retention_session. cbv zeta.
  rewrite bool_decide_eq_false_2 by (by rewrite size_empty_iff, leibniz_equiv_iff).
  pose proof (retention_loop_raises (events w) start_date window_type
                (EventService.distinct_users (EventService.on_date start_date (events w))) (seqZ 1 windows)) as Hr.
  assert (Hin : 4 ∈ seqZ 1 windows) by (apply elem_of_seqZ; lia).
  specialize (Hr Hin).
  destruct (EventService.retention_loop _ _ _ _ _ _) eqn:Hl; [|done].
  apply (f_equal is_ok) in Hl. rewrite Hr in Hl. done.
Qed.


Lemma retention_step_in_range rows start_date window_type
    (cohort_users : gset string) cohort k :
  date_min <= start_date + EventService.window_days window_type k <= date_max ->
  EventService.retention_step rows start_date window_type cohort_users cohort k
  = let retained :=
      Z.of_nat (size (cohort_users
                      ∩ EventService.distinct_users
                          (EventService.on_date
                             (start_date + EventService.window_days window_type k) rows))) in
    match EventService.setattr_window cohort k retained with
    | Raise e => Raise e
    | Ok cohort1 =>
        EventService.setattr_retention_rate cohort1 k
          (rate retained (Z.of_nat (size cohort_users)))
    end.
Proof.
  intros Hr. unfold EventService.retention_step, date_add. cbv zeta.
  replace ((date_min <=? start_date + EventService.window_days window_type k)
           && (start_date + EventService.window_days window_type k <=? date_max))
    with true by (symmetry; apply andb_true_intro; split; apply Z.leb_le; lia).
  by rewrite retained_on_inter.
Qed.

Lemma window_days_bounds window_type k windows :
  1 <= k <= windows ->
  1 <= EventService.window_days window_type k
  /\ EventService.window_days window_type k <= EventService.window_days window_type windows.
Proof. unfold EventService.window_days. case_bool_decide; lia. Qed.

(** The query for one to three windows, on a start date from which the
    last window stays within the range of [date]: an empty cohort gives
    the empty result; otherwise one cohort is returned whose [window_0] is
    the number of distinct users of the start date and whose window [k],
    for [k] up to the number asked, holds the number of cohort users
    active [k] windows later and that number as a percentage of the
    cohort, rounded to two decimals. The later windows stay unset. *)
Lemma get_retention_spec start_date windows window_type w :
  1 <= windows <= 3 ->
  date_min <= start_date ->
  start_date + EventService.window_days window_type windows <= date_max ->
  let cohort_users :=
    EventService.distinct_users (EventService.on_date start_date (events w)) in
  let retained k :=
    Z.of_nat (size (cohort_users
                    ∩ EventService.distinct_users
                        (EventService.on_date
                           (start_date + EventService.window_days window_type k)
                           (events w)))) in
  if decide (cohort_users = ∅) then
    get_retention start_date windows window_type w = (Ok [], w)
  else
    exists c,
      get_retention start_date windows window_type w = (Ok [c], w)
      /\ cohort_start c = start_date
      /\ window_0 c = Z.of_nat (size cohort_users)
      /\ forall k, 1 <= k ->
           if bool_decide (k <= windows)
           then window_of c k = Some (retained k)
                /\ retention_rate_of c k
                   = Some (rate (retained k) (Z.of_nat (size cohort_users)))
           else window_of c k = None /\ retention_rate_of c k = None.
Proof.
  intros Hw Hmin Hmax. cbv zeta. rewrite get_retention_session. cbv zeta.
  case_decide as Hempty.
  { rewrite bool_decide_eq_true_2; [done|]. by rewrite Hempty, size_empty. }
  rewrite bool_decide_eq_false_2 by (by rewrite size_empty_iff, leibniz_equiv_iff).
  assert (Hrange : forall k, 1 <= k <= windows ->
            date_min <= start_date + EventService.window_days window_type k <= date_max).
  { intros k Hk. pose proof (window_days_bounds window_type k windows Hk). lia. }
  assert (Hcases : windows = 1 \/ windows = 2 \/ windows = 3) by lia.
  destruct Hcases as [-> | [-> | ->]].
  - replace (seqZ 1 1) with [1] by reflexivity. cbn [EventService.retention_loop].
    rewrite retention_step_in_range by (apply Hrange; lia). cbn.
    eexists. split; [done|]. split; [done|]. split; [done|]. intros k Hk.
    case_bool_decide as Hle.
    + assert (k = 1) as -> by lia. split; reflexivity.
    + unfold window_of, retention_rate_of. cbn. repeat case_match; try lia; by split.
  - replace (seqZ 1 2) with [1; 2] by reflexivity. cbn [EventService.retention_loop].
    rewrite retention_step_in_range by (apply Hrange; lia). cbn.
    rewrite retention_step_in_range by (apply Hrange; lia). cbn.
    eexists. split; [done|]. split; [done|]. split; [done|]. intros k Hk.
    case_bool_decide as Hle.
    + assert (k = 1 \/ k = 2) as [-> | ->] by lia; split; reflexivity.
    + unfold window_of, retention_rate_of. cbn. repeat case_match; try lia; by split.
  - replace (seqZ 1 3) with [1; 2; 3] by reflexivity. cbn [EventService.retention_loop].
    rewrite retention_step_in_range by (apply Hrange; lia). cbn.
    rewrite retention_step_in_range by (apply Hrange; lia). cbn.
    rewrite retention_step_in_range by (apply Hrange; lia). cbn.
    eexists. split; [done|]. split; [done|]. split; [done|]. intros k Hk.
    case_bool_decide as Hle.
    + assert (k = 1 \/ k = 2 \/ k = 3) as [-> | [-> | ->]] by lia; split; reflexivity.
    + unfold window_of, retention_rate_of. cbn. repeat case_match; try lia; by split.
Qed.

End retention_facts.

(** The cohort of two users, one of them active the next day and none the
    day after: the rates of two daily windows. *)
Example get_retention_two_windows :
  let D := 738000 in
  let w := set_events [mkEvent "0a" "u1" "view" (midnight D + 60) [];
                       mkEvent "0b" "u2" "view" (midnight D + 3600) [];
                       mkEvent "0c" "u1" "view" (midnight (D + 1) + 60) []] empty_world in
  fst (get_retention D 2 "daily" w)
  = Ok [mkCohort D 2 (Some 1) (Some 0) None (Some 50%float) (Some 0%float) None].
Proof. by vm_compute. Qed.

(** C1 fails from the fourth window on: the same cohort asked for four
    daily windows. The three declared windows are computed, then setting
    [window_4] raises, and no result is returned. *)
Theorem get_retention_four_windows_raises :
  let D := 738000 in
  let w := set_events [mkEvent "0a" "u1" "view" (midnight D + 60) [];
                       mkEvent "0b" "u2" "view" (midnight D + 3600) [];
                       mkEvent "0c" "u1" "view" (midnight (D + 1) + 60) []] empty_world in
  fst (get_retention D 4 "daily" w)
  = Raise (ValueError "RetentionCohort object has no field window_4").
Proof. by vm_compute. Qed.

(** ** The unit tests of the repository, run on the model *)

Section unit_tests.
Import Redis.

(** [test_mark_as_seen_duplicate_event], [test_is_duplicate_not_seen] and
    [test_is_duplicate_already_seen]. *)
Example test_mark_as_seen :
  let service := IdempotencyService.mk 86400 in
  let '(result1, d1) := IdempotencyService.mark_as_seen service 0 ∅ "id-1" in
  let '(result2, d2) := IdempotencyService.mark_as_seen service 1 d1 "id-1" in
  result1 = true /\ result2 = false
  /\ fst (IdempotencyService.is_duplicate 2 d2 "id-1") = true
  /\ fst (IdempotencyService.is_duplicate 2 d2 "id-2") = false.
Proof. by vm_compute. Qed.

(** [test_check_batch]. *)
Example test_check_batch :
  let service := IdempotencyService.mk 86400 in
  let d1 := snd (IdempotencyService.mark_as_seen service 0 ∅ "id-2") in
  fst (IdempotencyService.check_batch 1 d1 ["id-1"; "id-2"; "id-3"])
  = (["id-1"; "id-3"], ["id-2"]).
Proof. by vm_compute. Qed.

(** [test_rate_limit_enforced]: a limit of five. *)
Example test_rate_limit_enforced :
  fst (checks default_settings (RateLimiter.mk 5 60) "test_client_2" 6 0 ∅)
  = [(true, 4); (true, 3); (true, 2); (true, 1); (true, 0); (false, 0)].
Proof. by vm_compute. Qed.

(** [test_different_clients_independent]: a limit of three. *)
Example test_different_clients_independent :
  let limiter := RateLimiter.mk 3 60 in
  let d1 := snd (checks default_settings limiter "test_client_3" 3 0 ∅) in
  let '(answer1, d2) := RateLimiter.is_allowed default_settings limiter 3 d1 "test_client_3" in
  let '(answer2, _) := RateLimiter.is_allowed default_settings limiter 4 d2 "test_client_4" in
  fst answer1 = false /\ fst answer2 = true.
Proof. by vm_compute. Qed.

(** [test_get_remaining]: a limit of ten. *)
Example test_get_remaining :
  let limiter := RateLimiter.mk 10 60 in
  let d1 := snd (checks default_settings limiter "test_client_5" 3 0 ∅) in
  fst (RateLimiter.get_remaining limiter 0 ∅ "test_client_5") = 10
  /\ fst (RateLimiter.get_remaining limiter 3 d1 "test_client_5") = 7.
Proof. by vm_compute. Qed.

End unit_tests.

(** ** The end-to-end scenarios of the specification *)

(** A fresh batch of three events, then the same batch again. *)
Example scenario_fresh_batch_then_resubmission :
  let service := IdempotencyService.mk 86400 in
  let batch := [mkEvent "e1" "user_1" "page_view" 5 [];
                mkEvent "e2" "user_2" "purchase" 6 [];
                mkEvent "e3" "user_1" "click" 7 []] in
  let '(r1, w1) := ingest_events sample_env service 10 batch empty_world in
  let '(r2, w2) := ingest_events sample_env service 11 batch w1 in
  r1 = Ok (mkResponse 3 0 0 "Accepted 3 events for processing")
  /\ r2 = Ok (mkResponse 0 3 0 "All events were duplicates")
  /\ length (stream w1) = 3%nat /\ stream w2 = stream w1.
Proof. by vm_compute. Qed.

(** Users A and B on the first day, user A on the second. *)
Example scenario_dau :
  let D := 738000 in
  let w := set_events [mkEvent "e1" "user_A" "view" (midnight D + 60) [];
                       mkEvent "e2" "user_B" "view" (midnight D + 7200) [];
                       mkEvent "e3" "user_A" "click" (midnight D + 7300) [];
                       mkEvent "e4" "user_A" "view" (midnight (D + 1) + 60) []]
             empty_world in
  fst (get_daily_active_users D (D + 1) w) = Ok [(D, 2); (D + 1, 1)].
Proof. by vm_compute. Qed.

(** The worker on a published event, and on the same event again. *)
Example scenario_worker_is_idempotent :
  let msg := Json (NATSPublisher.model_dump sample_env
                     (mkEvent "e1" "user_1" "page_view" 5 [])) in
  let w1 := snd (Worker.process_event sample_env 10 msg empty_world) in
  let w2 := snd (Worker.process_event sample_env 11 msg w1) in
  events w1 = [mkEvent "e1" "user_1" "page_view" 5 []]
  /\ events w2 = events w1
  /\ dispositions w2 = [(msg, Ack); (msg, Ack)].
Proof. by vm_compute. Qed.

(** * Further properties *)

(** ** Marking one identifier *)

Section single_mark_facts.
Import Redis IdempotencyService.
Implicit Types (d : gmap string Entry).

Lemma mark_as_seen_spec self now d event_id :
  mark_as_seen self now d event_id
  = match lookup_live now d (_get_key event_id) with
    | Some _ => (false, d)
    | None => (true, <[_get_key event_id := mkEntry 1 (Some (now + ttl self))]> d)
    end.
Proof.
  unfold mark_as_seen. cbn [exec].
  by destruct (lookup_live now d (_get_key event_id)).
Qed.

(** X1: for a positive TTL (the only kind the cache accepts),
    [mark_as_seen] answers [True] exactly when the identifier was no
    duplicate at that instant. An identifier already seen keeps its entry
    untouched, so marking it again does not prolong it; a new one is a
    duplicate from then on at exactly the instants before [now + ttl].
    No other identifier is affected. *)
Theorem mark_as_seen_first_wins self now d event_id :
  0 < ttl self ->
  let r := mark_as_seen self now d event_id in
  fst r = negb (fst (is_duplicate now d event_id))
  /\ (fst r = false -> snd r = d)
  /\ (fst r = true ->
      forall t, fst (is_duplicate t (snd r) event_id) = (t <? now + ttl self))
  /\ (forall j t, j <> event_id ->
        fst (is_duplicate t (snd r) j) = fst (is_duplicate t d j)).
Proof.
  intros Httl. cbv zeta. rewrite mark_as_seen_spec, is_duplicate_spec. cbn [fst].
  destruct (lookup_live now d (_get_key event_id)) as [e|] eqn:Hl; cbn [fst snd negb].
  - repeat split; done.
  - split; [by rewrite bool_decide_eq_false_2 by (by intros [? ?])|].
    split; [done|]. split.
    + intros _ t. rewrite is_duplicate_spec. cbn [fst]. unfold lookup_live.
      rewrite lookup_insert_eq. unfold is_live. cbn [expires_at].
      destruct (t <? now + ttl self); [by rewrite bool_decide_eq_true_2 by eauto|].
      by rewrite bool_decide_eq_false_2 by (by intros [? ?]).
    + intros j t Hj. rewrite !is_duplicate_spec. cbn [fst]. unfold lookup_live.
      rewrite lookup_insert_ne; [done|]. intros Heq. by apply seen_key_inj in Heq.
Qed.

Lemma mark_as_seen_first_wins_example :
  let self := mk 86400 in
  let r := mark_as_seen self 100 ∅ "e1" in
  fst r = negb (fst (is_duplicate 100 ∅ "e1"))
  /\ (fst r = false -> snd r = ∅)
  /\ (fst r = true ->
      forall t, fst (is_duplicate t (snd r) "e1") = (t <? 100 + ttl self))
  /\ (forall j t, j <> "e1" ->
        fst (is_duplicate t (snd r) j) = fst (is_duplicate t ∅ j)).
Proof. apply (mark_as_seen_first_wins (mk 86400) 100 ∅ "e1"). reflexivity. Defined.

(** X2: for a positive TTL (the only kind the cache accepts), marking a
    batch is marking its identifiers one after the other:
    the pipelined batch form leaves the cache that the single form, called
    for each identifier in order at the same instant, leaves. *)
Theorem mark_batch_as_seen_is_fold self now d (event_ids : list UUID) :
  0 < ttl self ->
  mark_batch_as_seen self now d event_ids
  = foldl (fun d' event_id => snd (mark_as_seen self now d' event_id)) d event_ids.
Proof.
  intros _. revert d. induction event_ids as [|i event_ids IH]; intros d; [done|].
  unfold mark_batch_as_seen in *. cbn [map foldl]. rewrite execute_cons_fst.
  rewrite IH. f_equal. unfold mark_as_seen.
  by destruct (exec now d (SET_NX_EX (_get_key i) 1 (ttl self))).
Qed.

Lemma mark_batch_as_seen_is_fold_example :
  mark_batch_as_seen (mk 86400) 100 ∅ ["e1"; "e2"; "e1"]
  = foldl (fun d' event_id => snd (mark_as_seen (mk 86400) 100 d' event_id)) ∅
          ["e1"; "e2"; "e1"].
Proof. apply (mark_batch_as_seen_is_fold (mk 86400) 100 ∅ ["e1"; "e2"; "e1"]). reflexivity. Defined.

End single_mark_facts.

(** ** The rate limiter over time *)

Section limiter_facts.
Import Redis RateLimiter.
Implicit Types (d : gmap string Entry).

Lemma run_rate_key_other settings history client_id : forall d,
  (forall t c, (t, c) ∈ history -> is_check_of client_id c = false) ->
  run settings history d !! _get_key client_id = d !! _get_key client_id.
Proof.
  induction history as [|[t c] history IH]; intros d Hno; [done|].
  cbn [run]. rewrite IH.
  - rewrite call_rate_key. by rewrite (Hno t c) by left.
  - intros t' c' Hin. apply (Hno t' c'). by right.
Qed.

Lemma is_allowed_answer_lookup settings self now d d' client_id :
  d' !! _get_key client_id = d !! _get_key client_id ->
  fst (is_allowed settings self now d' client_id)
  = fst (is_allowed settings self now d client_id).
Proof.
  intros Hd. destruct (rate_limit_enabled settings) eqn:Hen.
  - rewrite !is_allowed_enabled by done. cbn [fst].
    unfold next_count, lookup_live. by rewrite Hd.
  - unfold is_allowed. by rewrite Hen.
Qed.

Lemma get_remaining_spec self now d client_id :
  get_remaining self now d client_id
  = (match lookup_live now d (_get_key client_id) with
     | Some e => Z.max 0 (max_requests self - value e)
     | None => max_requests self
     end, d).
Proof.
  unfold get_remaining. cbn [exec].
  by destruct (lookup_live now d (_get_key client_id)).
Qed.

(** X3: the quota of a client is its own. Whatever other calls are made
    on the cache in between (checks of other clients, marks and lookups of
    the dedup cache), as long as none is a check of [client_id], the next
    check of [client_id] and its remaining quota are answered as if those
    calls had not been made. *)
Theorem rate_limit_clients_independent settings self history d client_id now :
  (forall t c, (t, c) ∈ history -> is_check_of client_id c = false) ->
  fst (is_allowed settings self now (run settings history d) client_id)
  = fst (is_allowed settings self now d client_id)
  /\ fst (get_remaining self now (run settings history d) client_id)
     = fst (get_remaining self now d client_id).
Proof.
  intros Hno. pose proof (run_rate_key_other settings history client_id d Hno) as Hd.
  split; [by apply is_allowed_answer_lookup|].
  rewrite !get_remaining_spec. cbn [fst]. unfold lookup_live. by rewrite Hd.
Qed.

Lemma rate_limit_clients_independent_example :
  let history := [(1, IsAllowed "10.0.0.2"); (2, MarkAsSeen "e1");
                  (3, IsAllowed "10.0.0.2")] in
  let d := snd (is_allowed default_settings (mk 2 60) 0 ∅ "10.0.0.1") in
  fst (is_allowed default_settings (mk 2 60) 4 (run default_settings history d) "10.0.0.1")
  = fst (is_allowed default_settings (mk 2 60) 4 d "10.0.0.1")
  /\ fst (get_remaining (mk 2 60) 4 (run default_settings history d) "10.0.0.1")
     = fst (get_remaining (mk 2 60) 4 d "10.0.0.1").
Proof.
  apply (rate_limit_clients_independent default_settings (mk 2 60)
           [(1, IsAllowed "10.0.0.2"); (2, MarkAsSeen "e1"); (3, IsAllowed "10.0.0.2")]).
  intros t c Hin. repeat (apply elem_of_cons in Hin as [Hin|Hin]; [by inversion Hin|]).
  by apply elem_of_nil in Hin.
Defined.

(** X4: [get_remaining] reads only, and it agrees with the last check:
    until the counter of the client expires, [window] seconds after a
    check, it returns the remaining quota that check returned; from then
    on it returns the full quota. *)
Theorem get_remaining_agrees_with_check settings self now d client_id t :
  rate_limit_enabled settings = true ->
  let r := is_allowed settings self now d client_id in
  snd (get_remaining self t (snd r) client_id) = snd r
  /\ (t < now + window self ->
      fst (get_remaining self t (snd r) client_id) = snd (fst r))
  /\ (now + window self <= t ->
      fst (get_remaining self t (snd r) client_id) = max_requests self).
Proof.
  intros Hen. cbv zeta. rewrite is_allowed_enabled by done. cbv zeta. cbn [fst snd].
  rewrite get_remaining_spec. cbn [fst snd]. unfold lookup_live.
  rewrite lookup_insert_eq. unfold is_live. cbn [expires_at value].
  split; [done|]. split; intros Ht.
  - by rewrite (proj2 (Z.ltb_lt _ _) Ht).
  - by rewrite (proj2 (Z.ltb_ge _ _) Ht).
Qed.

Lemma get_remaining_agrees_with_check_example :
  let r := is_allowed default_settings (mk 10 60) 100 ∅ "10.0.0.1" in
  snd (get_remaining (mk 10 60) 130 (snd r) "10.0.0.1") = snd r
  /\ (130 < 100 + window (mk 10 60) ->
      fst (get_remaining (mk 10 60) 130 (snd r) "10.0.0.1") = snd (fst r))
  /\ (100 + window (mk 10 60) <= 130 ->
      fst (get_remaining (mk 10 60) 130 (snd r) "10.0.0.1") = max_requests (mk 10 60)).
Proof.
  apply (get_remaining_agrees_with_check default_settings (mk 10 60) 100 ∅ "10.0.0.1" 130).
  reflexivity.
Defined.

Lemma paced_refused settings client_id history : forall (d : gmap string Entry) last e,
  rate_limit_enabled settings = true ->
  paced (rate_limit_window settings) client_id last history ->
  d !! _get_key client_id = Some e ->
  expires_at e = Some (last + rate_limit_window settings) ->
  rate_limit_requests settings < value e ->
  let_through settings client_id history d = 0
  /\ forall t, t < (foldl (fun l p => if is_check_of client_id (snd p) then fst p else l)
                          last history) + rate_limit_window settings ->
       fst (is_allowed settings (init settings) t (run settings history d) client_id)
       = (false, 0).
Proof.
  induction history as [|[t c] history IH]; intros d last e Hen Hp Hd Hx Hv.
  - split; [done|]. cbn [foldl run]. intros t Ht.
    rewrite is_allowed_enabled by done. cbv zeta. cbn [fst].
    rewrite (next_count_live client_id t d e _ Hd Hx Ht).
    cbn [init max_requests]. f_equal; [apply Z.leb_gt|]; lia.
  - cbn [paced] in Hp. destruct Hp as [Ht Hp]. cbn [let_through run foldl fst snd].
    pose proof (call_rate_key settings t c d client_id) as Hcall. rewrite Hen in Hcall.
    rewrite allowed_iff by done.
    rewrite (next_count_live client_id t d e _ Hd Hx Ht) in *.
    destruct (is_check_of client_id c) eqn:Hc; cbn [andb] in Hcall.
    + destruct (IH (call settings t c d) t _ Hen Hp Hcall eq_refl) as [IH1 IH2];
        [cbn [value]; lia|].
      split; [|done]. rewrite IH1.
      by rewrite (proj2 (Z.leb_gt _ _)) by lia.
    + rewrite Hd in Hcall.
      destruct (IH (call settings t c d) last e Hen Hp Hcall Hx Hv) as [IH1 IH2].
      split; [|done]. by rewrite IH1.
Qed.

(** X5: the window slides with every check, also with a refused one. Once
    a client is refused, it stays refused for as long as each of its
    checks comes less than [window] seconds after its previous one: none
    of them is let through, however many seconds have passed since the
    first. *)
Theorem refused_client_stays_refused settings client_id t0 (d : gmap string Entry)
    history t :
  rate_limit_enabled settings = true ->
  let r0 := is_allowed settings (init settings) t0 d client_id in
  fst (fst r0) = false ->
  paced (rate_limit_window settings) client_id t0 (history ++ [(t, IsAllowed client_id)]) ->
  let_through settings client_id history (snd r0) = 0
  /\ fst (is_allowed settings (init settings) t (run settings history (snd r0)) client_id)
     = (false, 0).
Proof.
  cbv zeta. intros Hen Hno Hp.
  rewrite is_allowed_enabled in Hno |- * by done. cbv zeta in Hno |- *.
  cbn [fst snd init max_requests window] in Hno |- *. apply Z.leb_gt in Hno.
  set (d0 := <[_ := _]> d).
  assert (Hd0 : d0 !! _get_key client_id
                = Some (mkEntry (next_count t0 d (_get_key client_id))
                                (Some (t0 + rate_limit_window settings))))
    by apply lookup_insert_eq.
  assert (Hp' : paced (rate_limit_window settings) client_id t0 history
                /\ t < foldl (fun l p => if is_check_of client_id (snd p) then fst p else l)
                             t0 history + rate_limit_window settings).
  { clear -Hp. revert Hp. generalize t0 as last.
    induction history as [|[t' c'] history IH]; intros last Hp.
    - cbn in Hp. cbn. tauto.
    - cbn [app paced] in Hp. destruct Hp as [Ht' Hp]. apply IH in Hp as [Hp1 Hp2].
      cbn [paced foldl fst snd]. tauto. }
  destruct Hp' as [Hp1 Hp2].
  destruct (paced_refused settings client_id history d0 t0 _ Hen Hp1 Hd0 eq_refl)
    as [H1 H2]; [cbn [value]; lia|].
  split; [done|]. by apply H2.
Qed.

Lemma refused_client_stays_refused_example :
  let settings := mkSettings 86400 true 1 60 in
  let d := snd (is_allowed settings (init settings) 0 ∅ "10.0.0.1") in
  let history := [(50, IsAllowed "10.0.0.1"); (100, IsAllowed "10.0.0.1");
                  (120, IsAllowed "10.0.0.2"); (150, IsAllowed "10.0.0.1")] in
  let r0 := is_allowed settings (init settings) 10 d "10.0.0.1" in
  let_through settings "10.0.0.1" history (snd r0) = 0
  /\ fst (is_allowed settings (init settings) 200 (run settings history (snd r0)) "10.0.0.1")
     = (false, 0).
Proof.
  apply (refused_client_stays_refused (mkSettings 86400 true 1 60) "10.0.0.1" 10
           (snd (is_allowed (mkSettings 86400 true 1 60)
                   (init (mkSettings 86400 true 1 60)) 0 ∅ "10.0.0.1"))
           [(50, IsAllowed "10.0.0.1"); (100, IsAllowed "10.0.0.1");
            (120, IsAllowed "10.0.0.2"); (150, IsAllowed "10.0.0.1")] 200).
  - reflexivity.
  - reflexivity.
  - cbn. repeat split; lia.
Defined.

(** X6: a client that stays silent for [window] seconds starts afresh:
    when no check of the client is made between a check at [t0] and one at
    or after [t0 + window], the later one finds the counter expired, counts
    1 and is let through whenever the limit is at least one, whatever the
    count had reached. *)
Theorem rate_limit_resets_after_window settings client_id t0 (d : gmap string Entry)
    history t :
  rate_limit_enabled settings = true ->
  (forall t' c, (t', c) ∈ history -> is_check_of client_id c = false) ->
  t0 + rate_limit_window settings <= t ->
  let d0 := snd (is_allowed settings (init settings) t0 d client_id) in
  fst (is_allowed settings (init settings) t (run settings history d0) client_id)
  = (1 <=? rate_limit_requests settings, Z.max 0 (rate_limit_requests settings - 1)).
Proof.
  intros Hen Hno Ht. cbv zeta.
  rewrite (is_allowed_answer_lookup _ _ _ _ _ _
             (run_rate_key_other settings history client_id _ Hno)).
  rewrite (is_allowed_enabled settings _ t0) by done. cbv zeta. cbn [snd].
  rewrite is_allowed_enabled by done. cbv zeta. cbn [fst init max_requests window].
  assert (Hn : next_count t
                 (<[_get_key client_id :=
                      mkEntry (next_count t0 d (_get_key client_id))
                              (Some (t0 + rate_limit_window settings))]> d)
                 (_get_key client_id) = 1).
  { unfold next_count at 1, lookup_live. rewrite lookup_insert_eq.
    unfold is_live. cbn [expires_at].
    by rewrite (proj2 (Z.ltb_ge _ _) Ht). }
  by rewrite Hn.
Qed.

Lemma rate_limit_resets_after_window_example :
  let settings := mkSettings 86400 true 1 60 in
  let d := snd (is_allowed settings (init settings) 0 ∅ "10.0.0.1") in
  let d0 := snd (is_allowed settings (init settings) 10 d "10.0.0.1") in
  fst (is_allowed settings (init settings) 70
         (run settings [(30, IsAllowed "10.0.0.2")] d0) "10.0.0.1")
  = (1 <=? rate_limit_requests settings, Z.max 0 (rate_limit_requests settings - 1)).
Proof.
  apply (rate_limit_resets_after_window (mkSettings 86400 true 1 60) "10.0.0.1" 10
           (snd (is_allowed (mkSettings 86400 true 1 60)
                   (init (mkSettings 86400 true 1 60)) 0 ∅ "10.0.0.1"))
           [(30, IsAllowed "10.0.0.2")] 70).
  - reflexivity.
  - intros t c Hin. apply elem_of_cons in Hin as [Hin|Hin]; [by inversion Hin|].
    by apply elem_of_nil in Hin.
  - cbn. lia.
Defined.

End limiter_facts.

(** ** Analytics queries *)

Section analytics_facts.
Import Database.

Lemma distinct_users_bounds (rows : list EventCreate) :
  rows <> [] ->
  1 <= Z.of_nat (size (EventService.distinct_users rows)) <= len rows.
Proof.
  intros Hne. unfold EventService.distinct_users, len. split.
  - destruct rows as [|r rows]; [done|]. cbn [map list_to_set].
    assert (size ({[user_id r]} ∪ (list_to_set (map user_id rows) : gset string)) <> 0%nat).
    { rewrite size_non_empty_iff. set_solver. }
    lia.
  - clear Hne. apply inj_le. induction rows as [|r rows IH].
    { change (size (∅ : gset string) <= 0)%nat. by rewrite size_empty. }
    cbn [map list_to_set length].
    set (Y := list_to_set (map user_id rows) : gset string) in *.
    pose proof (size_union_alt ({[user_id r]} : gset string) Y) as Hu.
    pose proof (subseteq_size (Y ∖ {[user_id r]}) Y) as Hs.
    rewrite size_singleton in Hu. rewrite Hu.
    assert (size (Y ∖ {[user_id r]}) <= size Y)%nat by (apply Hs; set_solver). lia.
Qed.

(** X7: for dates in order and an end date before the last day of the
    calendar, the DAU route answers one row per day of the range that has
    events, in ascending order of the day, with the number of distinct
    users of that day, which is at least one and at most the number of
    events of the day; the store is not changed. Days without events
    have no row. *)
Theorem daily_active_users_rows from_date to_date w :
  from_date <= to_date -> date_min <= to_date + 1 <= date_max ->
  exists rows,
    get_daily_active_users from_date to_date w = (Ok rows, w)
    /\ StronglySorted Z.lt (map fst rows)
    /\ (forall d n,
          (d, n) ∈ rows
          <-> from_date <= d <= to_date
              /\ EventService.on_date d (events w) <> []
              /\ n = Z.of_nat (size (EventService.distinct_users
                                       (EventService.on_date d (events w)))))
    /\ (forall d n, (d, n) ∈ rows -> 1 <= n <= len (EventService.on_date d (events w))).
Proof.
  intros Hle Hrange.
  destruct (get_dau_spec from_date to_date w Hle Hrange) as (rows & Hrun & Hsort & Hrows).
  exists rows. split; [done|]. split; [done|]. split; [done|].
  intros d n Hin. apply Hrows in Hin as (_ & Hne & ->). by apply distinct_users_bounds.
Qed.

Lemma daily_active_users_rows_example :
  let w := set_events [mkEvent "e1" "user_A" "view" (midnight 738000 + 60) [];
                       mkEvent "e2" "user_B" "view" (midnight 738001 + 7200) []]
                      empty_world in
  exists rows,
    get_daily_active_users 738000 738001 w = (Ok rows, w)
    /\ StronglySorted Z.lt (map fst rows)
    /\ (forall d n,
          (d, n) ∈ rows
          <-> 738000 <= d <= 738001
              /\ EventService.on_date d (events w) <> []
              /\ n = Z.of_nat (size (EventService.distinct_users
                                       (EventService.on_date d (events w)))))
    /\ (forall d n, (d, n) ∈ rows -> 1 <= n <= len (EventService.on_date d (events w))).
Proof.
  apply (daily_active_users_rows 738000 738001); [lia|unfold date_min, date_max; lia].
Defined.

End analytics_facts.

(** ** Top event types *)

Section top_events_facts.
Import Database.
Context (scan : list (string * Z) -> list (string * Z)).
Context (Hscan : forall groups, scan groups ≡ₚ groups).

#[local] Instance by_count_desc_trans : Transitive TopEvents.by_count_desc.
Proof. intros a b c. unfold TopEvents.by_count_desc. lia. Qed.

#[local] Instance by_count_desc_total : Total TopEvents.by_count_desc.
Proof. intros a b. unfold TopEvents.by_count_desc. lia. Qed.

Lemma in_range_hits from_date to_date (rows : list EventCreate) :
  filter (fun r => midnight from_date <= occurred_at r
                   ∧ occurred_at r < midnight (to_date + 1)) rows
  = in_range from_date to_date rows.
Proof. apply filter_ext_in. intros r _. apply date_window. Qed.

Lemma count_of_pos ty (hits : list EventCreate) :
  ty ∈ map event_type hits -> 1 <= TopEvents.count_of ty hits.
Proof.
  intros Hin. apply elem_of_map_iff in Hin as (r & Hr & Hin).
  assert (Hf : r ∈ filter (fun r => event_type r = ty) hits)
    by (by apply list_elem_of_filter).
  unfold TopEvents.count_of, len. destruct (filter _ hits); [by apply elem_of_nil in Hf|].
  cbn [length]. lia.
Qed.

Lemma get_top_events_session from_date to_date limit w :
  from_date <= to_date -> date_min <= to_date + 1 <= date_max -> 0 <= limit < 2 ^ 63 ->
  get_top_events scan from_date to_date limit w
  = (Ok (take (Z.to_nat limit)
           (merge_sort TopEvents.by_count_desc
              (scan (map (fun ty => (ty, TopEvents.count_of ty (in_range from_date to_date (events w))))
                         (remove_dups
                            (map event_type (in_range from_date to_date (events w)))))))),
     w).
Proof.
  intros Hle Hrange Hlimit. unfold get_top_events.
  rewrite bool_decide_eq_false_2 by lia.
  unfold get_session, TopEvents.get_top_events, date_add. unfold visible.
  cbn [committed pending]. rewrite app_nil_r.
  replace ((date_min <=? to_date + 1) && (to_date + 1 <=? date_max)) with true
    by (symmetry; apply andb_true_intro; split; apply Z.leb_le; lia).
  replace ((limit <? 0) || (2 ^ 63 <=? limit)) with false
    by (symmetry; apply orb_false_intro; [apply Z.ltb_ge|apply Z.leb_gt]; lia).
  rewrite in_range_hits. by destruct w.
Qed.

(** X8: the top-events route, for dates in order, an end date before the
    last day of the calendar and a limit between 1 and 100, changes
    nothing and answers rows (event type, count) such that: counts never
    increase down the list; no type appears twice; there are [limit] rows
    or as many as the range has event types, whichever is less; each
    count is the number of events of that type whose day lies in the
    range, so at least one; and no type of the range that is left out has
    more events than one that is listed. The order among equal counts is
    the store's. *)
Theorem top_events_rows from_date to_date limit w :
  from_date <= to_date -> date_min <= to_date + 1 <= date_max -> 1 <= limit <= 100 ->
  let hits := in_range from_date to_date (events w) in
  exists rows,
    get_top_events scan from_date to_date limit w = (Ok rows, w)
    /\ StronglySorted TopEvents.by_count_desc rows
    /\ NoDup (map fst rows)
    /\ length rows
       = Nat.min (Z.to_nat limit) (size (list_to_set (map event_type hits) : gset string))
    /\ (forall ty n, (ty, n) ∈ rows -> ty ∈ map event_type hits /\ n = TopEvents.count_of ty hits /\ 1 <= n)
    /\ (forall ty, ty ∈ map event_type hits -> ty ∉ map fst rows ->
          forall ty' n, (ty', n) ∈ rows -> TopEvents.count_of ty hits <= n).
Proof.
  intros Hle Hrange Hlimit hits.
  rewrite get_top_events_session by (try done; lia). fold hits.
  set (groups := map (fun ty => (ty, TopEvents.count_of ty hits)) (remove_dups (map event_type hits))).
  set (sorted := merge_sort TopEvents.by_count_desc (scan groups)).
  assert (Hperm : sorted ≡ₚ groups)
    by (unfold sorted; by rewrite merge_sort_Permutation, Hscan).
  assert (Hsorted : StronglySorted TopEvents.by_count_desc sorted)
    by (apply StronglySorted_merge_sort; apply _).
  assert (Hgroups : forall ty n, (ty, n) ∈ sorted
                      <-> ty ∈ map event_type hits /\ n = TopEvents.count_of ty hits).
  { intros ty n. rewrite Hperm. unfold groups.
    by rewrite elem_of_map_pair, elem_of_remove_dups. }
  assert (Hsplit : sorted = take (Z.to_nat limit) sorted ++ drop (Z.to_nat limit) sorted)
    by (by rewrite take_drop).
  eexists. split; [done|]. split; [|split; [|split; [|split]]].
  - rewrite Hsplit in Hsorted. by apply StronglySorted_app_1_l in Hsorted.
  - apply (sublist_NoDup _ (map fst sorted)).
    + rewrite Hperm. unfold groups. rewrite map_fst_pair. apply NoDup_remove_dups.
    + rewrite <- List.firstn_map. apply sublist_take.
  - rewrite length_take. f_equal.
    rewrite Hperm. unfold groups. rewrite length_map.
    rewrite <- (size_list_to_set (C := gset string)) by apply NoDup_remove_dups.
    f_equal. apply set_eq. intros x. by rewrite !elem_of_list_to_set, elem_of_remove_dups.
  - intros ty n Hin.
    assert (Hs : (ty, n) ∈ sorted)
      by (by apply (subseteq_take (Z.to_nat limit))).
    apply Hgroups in Hs as [Hty ->]. split; [done|]. split; [done|]. by apply count_of_pos.
  - intros ty Hty Hout ty' n Hin.
    assert (Hs : (ty, TopEvents.count_of ty hits) ∈ sorted) by (by apply Hgroups).
    rewrite Hsplit in Hs. apply elem_of_app in Hs as [Hs|Hs].
    + exfalso. apply Hout. by apply (elem_of_map fst) in Hs.
    + rewrite Hsplit in Hsorted.
      apply (StronglySorted_app_1_elem_of _ _ _ _ _ Hsorted Hin Hs).
Qed.

End top_events_facts.

Lemma top_events_rows_example :
  let w := set_events [mkEvent "e1" "user_A" "view" (midnight 738000 + 60) [];
                       mkEvent "e2" "user_B" "click" (midnight 738000 + 7200) [];
                       mkEvent "e3" "user_A" "view" (midnight 738001 + 60) []]
                      empty_world in
  let hits := in_range 738000 738001 (events w) in
  exists rows,
    get_top_events (fun groups => groups) 738000 738001 1 w = (Ok rows, w)
    /\ StronglySorted TopEvents.by_count_desc rows
    /\ NoDup (map fst rows)
    /\ length rows
       = Nat.min (Z.to_nat 1) (size (list_to_set (map event_type hits) : gset string))
    /\ (forall ty n, (ty, n) ∈ rows
          -> ty ∈ map event_type hits /\ n = TopEvents.count_of ty hits /\ 1 <= n)
    /\ (forall ty, ty ∈ map event_type hits -> ty ∉ map fst rows ->
          forall ty' n, (ty', n) ∈ rows -> TopEvents.count_of ty hits <= n).
Proof.
  apply (top_events_rows (fun groups => groups)); [done|lia|unfold date_min, date_max; lia|lia].
Defined.

(** ** Retention *)

Section retention_more_facts.
Import Database.

Lemma retained_le_cohort (cohort_users others : gset string) :
  0 <= Z.of_nat (size (cohort_users ∩ others)) <= Z.of_nat (size cohort_users).
Proof.
  split; [lia|]. apply inj_le, subseteq_size. set_solver.
Qed.

(** X9: for one to three windows and dates strictly between the first and
    the last day of the calendar (the driver sends those two days as the
    infinite dates, which are the date of no row), the retention route
    changes nothing and answers no cohort when nobody was
    active on the start date, and otherwise one cohort: its size is the
    number of distinct users of the start date; window [k] up to the
    number asked holds the number of cohort users active on the date [k]
    days (or [k] weeks) later, which is never more than the cohort size,
    with the percentage rounded to two decimals; the windows beyond stay
    unset. *)
Theorem retention_cohort_windows start_date windows window_type w :
  1 <= windows <= 3 ->
  date_min < start_date ->
  start_date + EventService.window_days window_type windows < date_max ->
  let cohort_users :=
    EventService.distinct_users (EventService.on_date start_date (events w)) in
  let retained k :=
    Z.of_nat (size (cohort_users
                    ∩ EventService.distinct_users
                        (EventService.on_date
                           (start_date + EventService.window_days window_type k)
                           (events w)))) in
  if decide (cohort_users = ∅) then
    get_retention start_date windows window_type w = (Ok [], w)
  else
    exists c,
      get_retention start_date windows window_type w = (Ok [c], w)
      /\ cohort_start c = start_date
      /\ window_0 c = Z.of_nat (size cohort_users)
      /\ 1 <= window_0 c
      /\ forall k, 1 <= k ->
           if bool_decide (k <= windows)
           then window_of c k = Some (retained k)
                /\ 0 <= retained k <= window_0 c
                /\ retention_rate_of c k
                   = Some (rate (retained k) (Z.of_nat (size cohort_users)))
           else window_of c k = None /\ retention_rate_of c k = None.
Proof.
  intros Hw Hmin Hmax. cbv zeta.
  pose proof (get_retention_spec start_date windows window_type w Hw
                ltac:(lia) ltac:(lia)) as Hspec.
  cbv zeta in Hspec. case_decide as Hempty; [done|].
  destruct Hspec as (c & Hrun & Hstart & Hsize & Hwin).
  exists c. split; [done|]. split; [done|]. split; [done|]. split.
  - rewrite Hsize.
    assert (size (EventService.distinct_users
                    (EventService.on_date start_date (events w))) <> 0%nat)
      by (by rewrite size_empty_iff, leibniz_equiv_iff).
    lia.
  - intros k Hk. specialize (Hwin k Hk). case_bool_decide; [|done].
    destruct Hwin as [H1 H2]. split; [done|]. split; [|done].
    rewrite Hsize. apply retained_le_cohort.
Qed.

Lemma retention_cohort_windows_example :
  let w := set_events [mkEvent "0a" "u1" "view" (midnight 738000 + 60) [];
                       mkEvent "0b" "u2" "view" (midnight 738000 + 3600) [];
                       mkEvent "0c" "u1" "view" (midnight 738007 + 60) []] empty_world in
  let cohort_users :=
    EventService.distinct_users (EventService.on_date 738000 (events w)) in
  let retained k :=
    Z.of_nat (size (cohort_users
                    ∩ EventService.distinct_users
                        (EventService.on_date
                           (738000 + EventService.window_days "weekly" k)
                           (events w)))) in
  if decide (cohort_users = ∅) then
    get_retention 738000 2 "weekly" w = (Ok [], w)
  else
    exists c,
      get_retention 738000 2 "weekly" w = (Ok [c], w)
      /\ cohort_start c = 738000
      /\ window_0 c = Z.of_nat (size cohort_users)
      /\ 1 <= window_0 c
      /\ forall k, 1 <= k ->
           if bool_decide (k <= 2)
           then window_of c k = Some (retained k)
                /\ 0 <= retained k <= window_0 c
                /\ retention_rate_of c k
                   = Some (rate (retained k) (Z.of_nat (size cohort_users)))
           else window_of c k = None /\ retention_rate_of c k = None.
Proof.
  apply (retention_cohort_windows 738000 2 "weekly");
    [lia|unfold date_min; lia|vm_compute; reflexivity].
Defined.

(** X10: the cohort of the retention report is the DAU of its start date.
    For one to three windows and dates strictly between the first and the
    last day of the calendar, the two routes agree on every store: the retention route answers a cohort
    exactly when the DAU route, asked for the start date alone, answers a
    row, and the cohort size is the number of active users of that row. *)
Theorem retention_cohort_is_dau start_date windows window_type w :
  1 <= windows <= 3 ->
  date_min < start_date ->
  start_date + EventService.window_days window_type windows < date_max ->
  exists cohorts,
    fst (get_retention start_date windows window_type w) = Ok cohorts
    /\ fst (get_daily_active_users start_date start_date w)
       = Ok (map (fun c => (cohort_start c, window_0 c)) cohorts).
Proof.
  intros Hw Hmin Hmax.
  pose proof (get_retention_spec start_date windows window_type w Hw
                ltac:(lia) ltac:(lia)) as Hspec.
  pose proof (window_days_bounds window_type windows windows ltac:(lia)) as [Hd _].
  destruct (get_dau_spec start_date start_date w ltac:(lia) ltac:(lia))
    as (rows & Hdau & Hsort & Hrows).
  rewrite Hdau. cbn [fst]. cbv zeta in Hspec.
  assert (Hone : forall d n d' n' rest, rows = (d, n) :: (d', n') :: rest -> False).
  { intros d n d' n' rest ->.
    assert (d = start_date) by (pose proof (proj1 (Hrows d n) ltac:(left)); lia).
    assert (d' = start_date)
      by (pose proof (proj1 (Hrows d' n') ltac:(right; left)); lia).
    cbn [map fst] in Hsort. apply StronglySorted_inv in Hsort as [_ Hall].
    apply Forall_cons in Hall as [Hlt _]. lia. }
  case_decide as Hempty.
  - exists []. rewrite Hspec. split; [done|]. cbn [map]. f_equal.
    destruct rows as [|[d n] rows]; [done|].
    pose proof (proj1 (Hrows d n) ltac:(left)) as (Hd' & Hne & _).
    assert (d = start_date) as -> by lia.
    exfalso. apply Hne.
    destruct (EventService.on_date start_date (events w)) as [|r l] eqn:Hon; [done|].
    exfalso. unfold EventService.distinct_users in Hempty. cbn [map list_to_set] in Hempty.
    set_solver.
  - destruct Hspec as (c & Hrun & Hstart & Hsize & _). exists [c]. rewrite Hrun.
    split; [done|]. cbn [map]. f_equal. rewrite Hstart, Hsize.
    assert (Hin : (start_date,
                   Z.of_nat (size (EventService.distinct_users
                                     (EventService.on_date start_date (events w))))) ∈ rows).
    { apply Hrows. split; [lia|]. split; [|done]. intros Hnil. apply Hempty.
      by rewrite Hnil. }
    destruct rows as [|[d n] [|[d' n'] rest]].
    + by apply elem_of_nil in Hin.
    + apply elem_of_cons in Hin as [Hin|Hin]; [by rewrite Hin|by apply elem_of_nil in Hin].
    + exfalso. by eapply Hone.
Qed.

Lemma retention_cohort_is_dau_example :
  let w := set_events [mkEvent "0a" "u1" "view" (midnight 738000 + 60) [];
                       mkEvent "0b" "u2" "view" (midnight 738000 + 3600) [];
                       mkEvent "0c" "u1" "view" (midnight 738001 + 60) []] empty_world in
  exists cohorts,
    fst (get_retention 738000 3 "daily" w) = Ok cohorts
    /\ fst (get_daily_active_users 738000 738000 w)
       = Ok (map (fun c => (cohort_start c, window_0 c)) cohorts).
Proof.
  apply (retention_cohort_is_dau 738000 3 "daily");
    [lia|unfold date_min; lia|vm_compute; reflexivity].
Defined.

Lemma retention_loop_three_then_fourth rows start_date window_type
    (cohort_users : gset string) cohort rest :
  date_min <= start_date ->
  start_date + EventService.window_days window_type 4 <= date_max ->
  EventService.retention_loop rows start_date window_type cohort_users cohort
    (1 :: 2 :: 3 :: 4 :: rest)
  = Raise (ValueError "RetentionCohort object has no field window_4").
Proof.
  intros Hmin Hmax.
  assert (Hrange : forall k, 1 <= k <= 4 ->
            date_min <= start_date + EventService.window_days window_type k <= date_max).
  { intros k Hk. pose proof (window_days_bounds window_type k 4 Hk). lia. }
  cbn [EventService.retention_loop].
  rewrite retention_step_in_range by (apply Hrange; lia). cbn.
  rewrite retention_step_in_range by (apply Hrange; lia). cbn.
  rewrite retention_step_in_range by (apply Hrange; lia). cbn.
  rewrite retention_step_in_range by (apply Hrange; lia). reflexivity.
Qed.

(** X11: the retention route beyond three windows. With four to ten
    windows (the route admits up to ten) and the dates of the first four
    windows strictly between the first and the last day of the calendar,
    the answer depends on the cohort only: no cohort when nobody was
    active on the start date, and otherwise the request fails on the
    fourth window with a [ValueError], raised by the cohort model, which
    has no field for it. The store is unchanged either way. *)
Theorem retention_beyond_three_windows start_date windows window_type w :
  4 <= windows ->
  date_min < start_date ->
  start_date + EventService.window_days window_type 4 < date_max ->
  if decide (EventService.distinct_users (EventService.on_date start_date (events w)) = ∅)
  then get_retention start_date windows window_type w = (Ok [], w)
  else exists msg,
         get_retention start_date windows window_type w = (Raise (ValueError msg), w).
Proof.
  intros Hw Hmin Hmax. rewrite get_retention_session. cbv zeta.
  case_decide as Hempty.
  { rewrite bool_decide_eq_true_2; [done|]. by rewrite Hempty, size_empty. }
  rewrite bool_decide_eq_false_2 by (by rewrite size_empty_iff, leibniz_equiv_iff).
  assert (Hseq : seqZ 1 windows = 1 :: 2 :: 3 :: 4 :: seqZ 5 (windows - 4)).
  { rewrite (seqZ_cons 1) by lia. rewrite (seqZ_cons (Z.succ 1)) by lia.
    rewrite (seqZ_cons (Z.succ (Z.succ 1))) by lia.
    rewrite (seqZ_cons (Z.succ (Z.succ (Z.succ 1)))) by lia.
    repeat f_equal; lia. }
  rewrite Hseq, retention_loop_three_then_fourth by lia. by eexists.
Qed.

Lemma retention_beyond_three_windows_example :
  let w := set_events [mkEvent "0a" "u1" "view" (midnight 738000 + 60) []] empty_world in
  if decide (EventService.distinct_users (EventService.on_date 738000 (events w)) = ∅)
  then get_retention 738000 10 "weekly" w = (Ok [], w)
  else exists msg, get_retention 738000 10 "weekly" w = (Raise (ValueError msg), w).
Proof.
  apply (retention_beyond_three_windows 738000 10 "weekly");
    [lia|unfold date_min; lia|vm_compute; reflexivity].
Defined.

End retention_more_facts.

(** ** The worker over many deliveries *)

Section worker_loop_facts.
Import Worker.
Context (env : Env).

Lemma EventCreate_init_valid now fields event :
  EventCreate_init env now fields = Ok event -> valid_at now event.
Proof.
  unfold EventCreate_init, valid_at. intros H.
  repeat case_match; try congruence;
    match goal with
    | Hc : _ && _ && negb _ = true |- _ =>
        apply andb_prop in Hc as [Hc Hc3]; apply andb_prop in Hc as [Hc1 Hc2];
        apply negb_true_iff, Z.ltb_ge in Hc3
    end;
    injection H as <-; cbn [user_id event_type occurred_at]; auto.
Qed.

Lemma EventCreate_init_later now now' fields event :
  now <= now' ->
  EventCreate_init env now fields = Ok event -> EventCreate_init env now' fields = Ok event.
Proof.
  unfold EventCreate_init. intros Hle H.
  repeat case_match; try congruence;
    repeat match goal with
    | Hc : _ && _ = true |- _ => apply andb_prop in Hc as [? ?]
    | Hc : _ && _ = false |- _ => apply andb_false_iff in Hc as [Hc|Hc]
    | Hc : negb _ = true |- _ => apply negb_true_iff, Z.ltb_ge in Hc
    | Hc : negb _ = false |- _ => apply negb_false_iff, Z.ltb_lt in Hc
    end; simplify_eq; try congruence; try lia.
Qed.

Lemma process_event_effect now msg w :
  let r := process_event env now msg w in
  fst r = Ok tt /\ redis (snd r) = redis w /\ stream (snd r) = stream w
  /\ exists op,
       dispositions (snd r) = dispositions w ++ [(msg, op)]
       /\ (events (snd r) = events w
           /\ (op = Ack ->
               exists fields event,
                 msg = Json (JObj fields) /\ EventCreate_init env now fields = Ok event
                 /\ event_id event ∈ map event_id (events w))
           \/ exists fields event,
                msg = Json (JObj fields) /\ EventCreate_init env now fields = Ok event
                /\ (event_id event ∉ map event_id (events w)) /\ op = Ack
                /\ events (snd r) = events w ++ [event]).
Proof.
  cbv zeta. unfold process_event, try_except, process_body, bind, modify, raise, ret.
  destruct msg as [|text|doc]; cbn [json_loads].
  - destruct w. cbn. repeat split. eexists. split; [done|]. left. by split.
  - destruct w. cbn. repeat split. eexists. split; [done|]. left. by split.
  - destruct doc as [|b|lit|str|items|fields];
      try (destruct w; cbn; repeat split; eexists; split; [done|]; left; by split).
    destruct (EventCreate_init env now fields) as [event|e] eqn:Hev.
    + rewrite insert_one_session.
      destruct (driver_fails env now (events w) event).
      { destruct w; cbn; repeat split; eexists; split; [done|]; left; by split. }
      case_bool_decide as Hin.
      * destruct w; cbn in *; repeat split; eexists; split; [done|]; left.
        split; [done|]. intros _. by exists fields, event.
      * destruct w; cbn in *; repeat split; eexists; split; [done|]; right.
        by exists fields, event.
    + apply EventCreate_init_raises in Hev. subst e.
      destruct w; cbn; repeat split; eexists; split; [done|]; left; by split.
Qed.

Lemma run_worker_cons now flag msg rest w :
  run_worker env ((now, flag, msg) :: rest) w
  = if flag then (Ok tt, w)
    else run_worker env rest (snd (process_event env now msg w)).
Proof.
  cbn [run_worker]. destruct flag; [done|]. unfold bind.
  pose proof (process_event_effect now msg w) as [Hok _]. cbv zeta in Hok.
  by destruct (process_event env now msg w) as [[[]|e] w1].
Qed.

Lemma run_worker_never_raises deliveries : forall w,
  fst (run_worker env deliveries w) = Ok tt.
Proof.
  induction deliveries as [|[[now flag] msg] deliveries IH]; intros w; [done|].
  rewrite run_worker_cons. by destruct flag.
Qed.

(** X12: whatever is delivered, the worker loop keeps the store free of
    repeated event identifiers and only ever appends to it: it never
    raises, it leaves the dedup cache and the stream alone, it answers
    each message it processes with exactly one disposition, in order, and
    every row it adds was built from a delivered JSON object that passed
    the checks of the event model at the instant it was processed. *)
Theorem run_worker_keeps_store_unique deliveries w :
  NoDup (map event_id (events w)) ->
  let r := run_worker env deliveries w in
  fst r = Ok tt
  /\ NoDup (map event_id (events (snd r)))
  /\ (exists new_rows,
        events (snd r) = events w ++ new_rows
        /\ forall event, event ∈ new_rows ->
             exists now fields,
               (now, Json (JObj fields)) ∈ processed deliveries
               /\ EventCreate_init env now fields = Ok event
               /\ valid_at now event)
  /\ map fst (dispositions (snd r))
     = map fst (dispositions w) ++ map snd (processed deliveries)
  /\ redis (snd r) = redis w /\ stream (snd r) = stream w.
Proof.
  cbv zeta. revert w.
  induction deliveries as [|[[now flag] msg] deliveries IH]; intros w Hnd.
  { cbn. rewrite !app_nil_r. repeat split; try done. exists []. rewrite app_nil_r.
    split; [done|]. intros event Hin. by apply elem_of_nil in Hin. }
  rewrite run_worker_cons. cbn [processed]. destruct flag.
  { cbn. rewrite !app_nil_r. repeat split; try done. exists []. rewrite app_nil_r.
    split; [done|]. intros event Hin. by apply elem_of_nil in Hin. }
  pose proof (process_event_effect now msg w) as (_ & Hr & Hs & op & Hd & Hev).
  cbv zeta in Hr, Hs, Hd, Hev.
  set (w1 := snd (process_event env now msg w)) in *.
  assert (Hnd1 : NoDup (map event_id (events w1))).
  { destruct Hev as [[-> _]|(fields & event & _ & _ & Hnew & _ & ->)]; [done|].
    rewrite map_app. cbn [map]. apply NoDup_app. split; [done|]. split.
    - intros i Hi Hi'. apply elem_of_cons in Hi' as [->|Hi']; [done|].
      by apply elem_of_nil in Hi'.
    - apply NoDup_singleton. }
  destruct (IH w1 Hnd1) as (Hok & Hnd2 & (new_rows & Hrows & Hbuilt) & Hdisp & Hr2 & Hs2).
  split; [done|]. split; [done|]. split; [|split; [|split; congruence]].
  - destruct Hev as [[Heq _]|(fields & event & -> & Hinit & Hnew & _ & Heq)].
    + exists new_rows. rewrite Hrows, Heq. split; [done|].
      intros event Hin. destruct (Hbuilt event Hin) as (t & fields & Hp & Hi & Hv).
      exists t, fields. split; [by right|done].
    + exists (event :: new_rows). rewrite Hrows, Heq, <- app_assoc. split; [done|].
      intros event' Hin. apply elem_of_cons in Hin as [->|Hin].
      * exists now, fields. split; [by left|]. split; [done|].
        by eapply EventCreate_init_valid.
      * destruct (Hbuilt event' Hin) as (t & fields' & Hp & Hi & Hv).
        exists t, fields'. split; [by right|done].
  - rewrite Hdisp, Hd, map_app. cbn [map fst snd]. by rewrite <- app_assoc.
Qed.

(** X13: delivering a message again does no harm. When a delivery of a
    message was acknowledged, a later delivery of the same message, to
    any later state of a store that still holds the rows it held then,
    leaves the store and the ingested counter as they are; it is
    acknowledged again, unless the driver fails, in which case it is
    negatively acknowledged. *)
Theorem redelivery_is_harmless now now' msg w w' :
  now <= now' ->
  let r := process_event env now msg w in
  dispositions (snd r) = dispositions w ++ [(msg, Ack)] ->
  (forall i, i ∈ map event_id (events (snd r)) -> i ∈ map event_id (events w')) ->
  let r' := process_event env now' msg w' in
  events (snd r') = events w'
  /\ events_ingested_total (metrics (snd r')) = events_ingested_total (metrics w')
  /\ exists op, dispositions (snd r') = dispositions w' ++ [(msg, op)]
                /\ (op = Ack \/ op = Nak 5).
Proof.
  cbv zeta. intros Hle Hack Hrows.
  pose proof (process_event_effect now msg w) as (_ & _ & _ & op & Hd & Hev).
  cbv zeta in Hd, Hev. rewrite Hd in Hack. apply app_inj_tail in Hack as [_ Hop].
  assert (op = Ack) as -> by congruence.
  assert (Hfirst : exists fields event,
            msg = Json (JObj fields) /\ EventCreate_init env now fields = Ok event
            /\ event_id event ∈ map event_id (events (snd (process_event env now msg w)))).
  { destruct Hev as [[Heq Hx]|(fields & event & -> & Hinit & _ & _ & Heq)].
    - destruct (Hx eq_refl) as (fields & event & -> & Hinit & Hin).
      exists fields, event. by rewrite Heq.
    - exists fields, event. split; [done|]. split; [done|]. rewrite Heq, map_app.
      apply elem_of_app. right. by left. }
  destruct Hfirst as (fields & event & -> & Hinit & Hin).
  apply Hrows in Hin. apply (EventCreate_init_later now now') in Hinit; [|done].
  unfold process_event, try_except, process_body, bind, modify, raise, ret.
  cbn [json_loads]. rewrite Hinit, insert_one_session.
  destruct (driver_fails env now' (events w') event).
  - destruct w'. cbn. repeat split. eexists. split; [done|]. by right.
  - rewrite bool_decide_eq_true_2 by done.
    destruct w'. cbn. repeat split. eexists. split; [done|]. by left.
Qed.

End worker_loop_facts.

Lemma run_worker_keeps_store_unique_example :
  let w := set_events [mkEvent "e1" "user_1" "page_view" 5 []] empty_world in
  let deliveries :=
    [(10, false, Json (NATSPublisher.model_dump sample_env
                         (mkEvent "e1" "user_1" "page_view" 5 [])));
     (11, false, NotJson "{");
     (12, false, Json (NATSPublisher.model_dump sample_env
                         (mkEvent "e2" "user_2" "click" 6 [])));
     (13, true, Json (JObj []))] in
  let r := run_worker sample_env deliveries w in
  fst r = Ok tt
  /\ NoDup (map event_id (events (snd r)))
  /\ (exists new_rows,
        events (snd r) = events w ++ new_rows
        /\ forall event, event ∈ new_rows ->
             exists now fields,
               (now, Json (JObj fields)) ∈ processed deliveries
               /\ Worker.EventCreate_init sample_env now fields = Ok event
               /\ valid_at now event)
  /\ map fst (dispositions (snd r))
     = map fst (dispositions w) ++ map snd (processed deliveries)
  /\ redis (snd r) = redis w /\ stream (snd r) = stream w.
Proof.
  apply (run_worker_keeps_store_unique sample_env). cbn. apply NoDup_singleton.
Defined.

Lemma redelivery_is_harmless_example :
  let msg := Json (NATSPublisher.model_dump sample_env
                     (mkEvent "e1" "user_1" "page_view" 5 [])) in
  let w' := snd (Worker.process_event sample_env 10 msg empty_world) in
  let r' := Worker.process_event sample_env 40 msg w' in
  events (snd r') = events w'
  /\ events_ingested_total (metrics (snd r')) = events_ingested_total (metrics w')
  /\ exists op, dispositions (snd r') = dispositions w' ++ [(msg, op)]
                /\ (op = Ack \/ op = Nak 5).
Proof.
  apply (redelivery_is_harmless sample_env 10 40 _ empty_world); [lia|reflexivity|done].
Defined.

(** ** From the request to the store *)

Section pipeline_facts.
Import Redis.
Context (env : Env).

Lemma EventCreate_init_model_dump now event :
  travels env event -> valid_at now event ->
  Worker.json_loads (Json (NATSPublisher.model_dump env event))
  = Ok (JObj [("event_id", JStr (event_id event));
              ("user_id", JStr (user_id event));
              ("event_type", JStr (event_type event));
              ("occurred_at", dump_datetime env (occurred_at event));
              ("properties", JObj (properties event))])
  /\ Worker.EventCreate_init env now
       [("event_id", JStr (event_id event));
        ("user_id", JStr (user_id event));
        ("event_type", JStr (event_type event));
        ("occurred_at", dump_datetime env (occurred_at event));
        ("properties", JObj (properties event))]
     = Ok event.
Proof.
  intros [Hid Hat] (Hu & Ht & Hpast). split; [done|].
  set (fields := [("event_id", JStr (event_id event)); _; _; _; _]).
  assert (H1 : Worker.dict_get fields "event_id" = Some (JStr (event_id event)))
    by reflexivity.
  assert (H2 : Worker.dict_get fields "user_id" = Some (JStr (user_id event)))
    by reflexivity.
  assert (H3 : Worker.dict_get fields "event_type" = Some (JStr (event_type event)))
    by reflexivity.
  assert (H4 : Worker.dict_get fields "occurred_at"
               = Some (dump_datetime env (occurred_at event))) by reflexivity.
  assert (H5 : Worker.dict_get fields "properties" = Some (JObj (properties event)))
    by reflexivity.
  unfold Worker.EventCreate_init. rewrite H1, H2, H3, H4, H5, Hid, Hat, Hu, Ht.
  rewrite (proj2 (Z.ltb_ge _ _)) by lia. cbn. by destruct event.
Qed.

Lemma process_event_published now event w :
  travels env event -> valid_at now event ->
  driver_fails env now (events w) event = false ->
  Worker.process_event env now (Json (NATSPublisher.model_dump env event)) w
  = (Ok tt,
     if bool_decide (event_id event ∈ map event_id (events w))
     then dispose (Json (NATSPublisher.model_dump env event)) Ack w
     else dispose (Json (NATSPublisher.model_dump env event)) Ack
            (set_metrics (inc_ingested (event_type event) (metrics w))
               (set_events (events w ++ [event]) w))).
Proof.
  intros Htr Hv Hdrv.
  destruct (EventCreate_init_model_dump now event Htr Hv) as [_ Hinit].
  unfold Worker.process_event, try_except, Worker.process_body, bind, modify, raise, ret.
  cbn [Worker.json_loads NATSPublisher.model_dump]. rewrite Hinit, insert_one_session, Hdrv.
  case_bool_decide; cbn; by destruct w.
Qed.

(** X14: an event survives the queue unchanged. When the wire format gives
    its identifier and instant back and the event passes the checks of the
    model at the instant of processing, the message published for it is
    read back by the worker as the same event, field by field: if its
    identifier is new to the store and the driver carries out the insert,
    the store gains exactly that row, the ingested counter of its type
    advances by one, and the message is acknowledged. *)
Theorem published_event_is_stored_as_sent now event w :
  travels env event -> valid_at now event ->
  driver_fails env now (events w) event = false ->
  event_id event ∉ map event_id (events w) ->
  let msg := Json (NATSPublisher.model_dump env event) in
  let r := Worker.process_event env now msg w in
  fst r = Ok tt
  /\ events (snd r) = events w ++ [event]
  /\ dispositions (snd r) = dispositions w ++ [(msg, Ack)]
  /\ events_ingested_total (metrics (snd r))
     = inc (event_type event) 1 (events_ingested_total (metrics w)).
Proof.
  intros Htr Hv Hdrv Hnew. cbv zeta.
  rewrite process_event_published by done.
  by rewrite bool_decide_eq_false_2 by done.
Qed.

Lemma publish_batch_stream now evs : forall w,
  let r := NATSPublisher.publish_batch env now evs w in
  exists k, (k <= length evs)%nat
    /\ stream (snd r) = stream w ++ map Json (take k evs)
    /\ (fst r = Ok tt -> k = length evs)
    /\ (fst r <> Ok tt -> (k < length evs)%nat).
Proof.
  induction evs as [|ev evs IH]; intros w; cbv zeta.
  - exists 0%nat. cbn. rewrite app_nil_r. repeat split; try done; try lia.
  - rewrite publish_batch_cons.
    destruct (js_fails env now (stream w) (Json ev)).
    + exists 0%nat. cbn. rewrite app_nil_r. repeat split; try done; try lia.
    + destruct (IH (set_stream (stream w ++ [Json ev]) w)) as (k & Hk & Hs & Hok & Hno).
      cbv zeta in Hs, Hok, Hno. exists (S k). cbn [length take map].
      split; [lia|]. split; [|split].
      * rewrite Hs. cbn [stream set_stream]. by rewrite <- app_assoc.
      * intros H. by rewrite Hok.
      * intros H. specialize (Hno H). lia.
Qed.

Context (svc : IdempotencyService.t).

Lemma published_stream now batch w :
  let r := ingest_events env svc now batch w in
  let new := map (fun event => Json (NATSPublisher.model_dump env event))
                 (new_events_of now w batch) in
  match fst r with
  | Ok _ => stream (snd r) = stream w ++ new
  | Raise _ => exists k, (k < length new)%nat /\ stream (snd r) = stream w ++ take k new
  end.
Proof.
  cbv zeta. rewrite ingest_events_unfold. cbv zeta.
  destruct (new_events_of now w batch) as [|event new_events] eqn:Hne.
  { cbn. by rewrite app_nil_r. }
  rewrite <- Hne. clear Hne.
  pose proof (publish_batch_stream now
                (map (NATSPublisher.model_dump env) (new_events_of now w batch))
                (marked svc now batch w)) as (k & Hk & Hs & Hok & Hno).
  pose proof (publish_batch_frame env now
                (map (NATSPublisher.model_dump env) (new_events_of now w batch))
                (marked svc now batch w)) as Hframe.
  cbv zeta in Hs, Hok, Hno, Hframe. destruct Hframe as (_ & _ & _ & _ & Hres).
  rewrite <- List.firstn_map, List.map_map in Hs.
  destruct (NATSPublisher.publish_batch env now _ _) as [[u|e] w3]; cbn [fst snd] in *.
  - destruct u. rewrite (Hok eq_refl) in Hs. rewrite length_map in Hs.
    rewrite Hs. unfold marked, counted. cbn [stream set_redis set_metrics].
    f_equal. rewrite <- (length_map (fun event => Json (NATSPublisher.model_dump env event))).
    apply firstn_all.
  - exists k. rewrite length_map in *. split; [apply Hno; by destruct Hres|].
    cbn [stream set_metrics]. by rewrite Hs.
Qed.

(** X15: what a request publishes. An answered request (202) appends to
    the stream one message per accepted event, the dump of each new event
    in the order of the batch, and nothing else; a failed one (500) has
    appended the messages of a strict initial part of its new events
    only. Messages already in the stream are never touched. *)
Theorem ingest_events_publishes_in_order now batch w :
  let r := ingest_events env svc now batch w in
  let new := map (fun event => Json (NATSPublisher.model_dump env event))
                 (new_events_of now w batch) in
  match fst r with
  | Ok resp =>
      stream (snd r) = stream w ++ new
      /\ accepted resp = len new
      /\ len (stream (snd r)) = len (stream w) + accepted resp
  | Raise _ =>
      exists k, (k < length new)%nat /\ stream (snd r) = stream w ++ take k new
  end.
Proof.
  cbv zeta. pose proof (published_stream now batch w) as Hs.
  pose proof (ingest_events_answer env svc now batch w) as Ha.
  pose proof (new_events_length now w batch) as Hn. cbv zeta in Hs.
  destruct (fst (ingest_events env svc now batch w)) as [resp|e]; [|done].
  destruct Ha as (Ha & _).
  assert (Hlen : accepted resp
                 = len (map (fun event => Json (NATSPublisher.model_dump env event))
                            (new_events_of now w batch))).
  { rewrite Ha, <- Hn. unfold len. by rewrite length_map. }
  split; [done|]. split; [done|]. rewrite Hs, Hlen. unfold len.
  rewrite length_app. lia.
Qed.

Lemma ingest_events_marks_always now batch w event :
  0 < IdempotencyService.ttl svc ->
  event ∈ batch ->
  is_Some (lookup_live now (redis (snd (ingest_events env svc now batch w)))
             (IdempotencyService._get_key (event_id event))).
Proof.
  intros Httl Hin. rewrite ingest_events_unfold. cbv zeta.
  destruct (new_events_of now w batch) as [|event0 new_events] eqn:Hne.
  - cbn [snd counted redis set_metrics].
    destruct (lookup_live now (redis w) (IdempotencyService._get_key (event_id event)))
      as [e|] eqn:Hl; [eauto|].
    assert (Hnew : event ∈ new_events_of now w batch).
    { apply list_elem_of_filter. split; [|done].
      rewrite is_duplicate_spec, Hl. cbn [fst]. apply bool_decide_eq_false.
      by intros [? ?]. }
    rewrite Hne in Hnew. by apply elem_of_nil in Hnew.
  - rewrite <- Hne in *. clear Hne event0 new_events.
    pose proof (publish_batch_frame env now
                  (map (NATSPublisher.model_dump env) (new_events_of now w batch))
                  (marked svc now batch w)) as Hframe.
    cbv zeta in Hframe. destruct Hframe as (Hr & _).
    assert (Hm : exists en,
               IdempotencyService.mark_batch_as_seen svc now (redis w)
                 (fst (fst (IdempotencyService.check_batch now (redis w)
                              (map event_id batch))))
               !! IdempotencyService._get_key (event_id event) = Some en
               /\ is_live now en = true).
    { rewrite mark_batch_lookup. unfold after_set.
      destruct (lookup_live now (redis w) (IdempotencyService._get_key (event_id event)))
        as [e|] eqn:Hl.
      - apply lookup_live_Some in Hl as [Hd Hlive]. exists e.
        split; [by case_bool_decide|done].
      - rewrite bool_decide_eq_true_2.
        + eexists. split; [done|]. unfold is_live. cbn [expires_at].
          apply Z.ltb_lt. lia.
        + apply check_batch_new. split; [by apply elem_of_map|done]. }
    destruct Hm as (en & Hen & Hlive).
    destruct (NATSPublisher.publish_batch env now _ _) as [[u|e] w3];
      cbn [fst snd redis set_metrics] in *; rewrite Hr; unfold marked;
      cbn [redis set_redis]; exists en; apply lookup_live_Some; auto.
Qed.

(** X16: a failed request cannot be retried. The identifiers of the new
    events are marked before anything is published, so when a request
    fails with status 500 on a refused publication, the same batch sent
    again before the marks expire is answered as made of duplicates only:
    nothing is accepted, nothing is published, and the events whose
    message was not published by the first request never reach the
    stream. *)
Theorem failed_request_cannot_be_retried t1 t2 batch w :
  let r1 := ingest_events env svc t1 batch w in
  let r2 := ingest_events env svc t2 batch (snd r1) in
  let new := map (fun event => Json (NATSPublisher.model_dump env event))
                 (new_events_of t1 w batch) in
  0 < IdempotencyService.ttl svc ->
  is_ok (fst r1) = false ->
  no_expiry_between (redis (snd r1)) t1 t2 ->
  fst r1 = Raise (HTTPException 500 "Failed to process events" [])
  /\ fst r2 = Ok {| accepted := 0; duplicates := len batch; failed := 0;
                    message := "All events were duplicates" |}
  /\ stream (snd r2) = stream (snd r1)
  /\ exists k, (k < length new)%nat /\ stream (snd r2) = stream w ++ take k new.
Proof.
  cbv zeta. intros Httl Hfail Hkeep.
  assert (Hall : forall event, event ∈ batch ->
            is_Some (lookup_live t2 (redis (snd (ingest_events env svc t1 batch w)))
                       (IdempotencyService._get_key (event_id event)))).
  { intros event Hin.
    destruct (ingest_events_marks_always t1 batch w event Httl Hin) as [en Hen].
    apply lookup_live_Some in Hen as [Hd Hlive].
    exists en. apply lookup_live_Some. split; [done|]. by apply (Hkeep _ _ Hd). }
  pose proof (ingest_events_answer env svc t1 batch w) as H1.
  pose proof (published_stream t1 batch w) as Hpub. cbv zeta in Hpub.
  set (r1 := ingest_events env svc t1 batch w) in *.
  destruct (fst r1) as [resp1|e1] eqn:Hr1; [done|].
  destruct H1 as [-> _]. split; [done|].
  assert (Hnone : new_events_of t2 (snd r1) batch = []).
  { apply filter_none. intros event Hin. rewrite is_duplicate_spec. cbn [fst].
    rewrite bool_decide_eq_false. intros Hn. by apply Hn, Hall. }
  pose proof (new_events_length t2 (snd r1) batch) as Hnew2.
  pose proof (check_batch_lengths t2 (redis (snd r1)) batch) as Hlen2.
  rewrite Hnone in Hnew2. unfold len at 1 in Hnew2. cbn [length] in Hnew2.
  rewrite ingest_events_unfold. cbv zeta. rewrite Hnone.
  cbn [fst snd counted stream set_metrics].
  split; [|split; [done|]].
  - do 2 f_equal. lia.
  - destruct Hpub as (k & Hk & Hs). by exists k.
Qed.

End pipeline_facts.

Section end_to_end_facts.
Import Redis.
Context (env : Env) (svc : IdempotencyService.t).

Lemma run_worker_published t1 evs : forall deliveries w,
  (forall t rows event, driver_fails env t rows event = false) ->
  (forall event, event ∈ evs -> travels env event /\ valid_at t1 event) ->
  map snd deliveries = map (fun event => Json (NATSPublisher.model_dump env event)) evs ->
  Forall (fun d => t1 <= fst (fst d) /\ snd (fst d) = false) deliveries ->
  let r := run_worker env deliveries w in
  events (snd r) = events w ++ fresh_rows (events w) evs
  /\ dispositions (snd r) = dispositions w ++ map (fun d => (snd d, Ack)) deliveries.
Proof.
  induction evs as [|event evs IH]; intros deliveries w Hdrv Hev Hmsgs Htimes; cbv zeta.
  { destruct deliveries; [|done]. cbn. by rewrite !app_nil_r. }
  destruct deliveries as [|[[t flag] msg] deliveries]; [done|].
  cbn [map snd] in Hmsgs. injection Hmsgs as -> Hmsgs.
  apply Forall_cons in Htimes as [[Ht Hflag] Htimes]. cbn [fst snd] in Ht, Hflag. subst flag.
  rewrite run_worker_cons.
  destruct (Hev event ltac:(left)) as [Htr (Hu & Hty & Hpast)].
  rewrite (process_event_published env t event w Htr) by (done || (repeat split; [done..|lia])).
  cbn [snd].
  assert (Hrest : forall event', event' ∈ evs -> travels env event' /\ valid_at t1 event')
    by (intros event' Hin; apply Hev; by right).
  cbn [fresh_rows map snd fst].
  case_bool_decide as Hin.
  - destruct (IH deliveries (dispose (Json (NATSPublisher.model_dump env event)) Ack w)
                Hdrv Hrest Hmsgs Htimes) as [He Hd].
    cbv zeta in He, Hd. rewrite He, Hd. cbn [events dispositions dispose].
    split; [done|]. by rewrite <- app_assoc.
  - destruct (IH deliveries
                (dispose (Json (NATSPublisher.model_dump env event)) Ack
                   (set_metrics (inc_ingested (event_type event) (metrics w))
                      (set_events (events w ++ [event]) w)))
                Hdrv Hrest Hmsgs Htimes) as [He Hd].
    cbv zeta in He, Hd. rewrite He, Hd.
    cbn [events dispositions dispose set_metrics set_events].
    split; by rewrite <- app_assoc.
Qed.

(** X17: every accepted event reaches the store, once. When a request is
    answered (202), with a positive TTL of the dedup cache, for a batch of
    events that pass the checks of the model
    and whose identifiers and instants the wire format gives back, and the
    worker then processes the messages that request published, none before
    the request and with a driver that carries out every insert, then
    every message is acknowledged and the store holds its former rows
    followed by one row for each new identifier of the batch not stored
    before: the first event of the batch with that identifier. The event
    count then reported is the number of distinct identifiers. *)
Theorem accepted_events_reach_the_store t1 batch w deliveries :
  let r1 := ingest_events env svc t1 batch w in
  0 < IdempotencyService.ttl svc ->
  is_ok (fst r1) = true ->
  (forall event, event ∈ batch -> travels env event /\ valid_at t1 event) ->
  (forall t rows event, driver_fails env t rows event = false) ->
  map snd deliveries = drop (length (stream w)) (stream (snd r1)) ->
  Forall (fun d => t1 <= fst (fst d) /\ snd (fst d) = false) deliveries ->
  let r2 := run_worker env deliveries (snd r1) in
  fst r2 = Ok tt
  /\ events (snd r2) = events w ++ fresh_rows (events w) (new_events_of t1 w batch)
  /\ ids (events (snd r2)) = ids (events w) ∪ ids (new_events_of t1 w batch)
  /\ dispositions (snd r2) = dispositions w ++ map (fun d => (snd d, Ack)) deliveries
  /\ (NoDup (map event_id (events w)) ->
      fst (get_event_count (snd r2))
      = Ok (Z.of_nat (size (ids (events w) ∪ ids (new_events_of t1 w batch))))).
Proof.
  cbv zeta. intros _ Hok Hvalid Hdrv Hmsgs Htimes.
  pose proof (published_stream env svc t1 batch w) as Hs. cbv zeta in Hs.
  destruct (ingest_events_store env svc t1 batch w) as [Hstore Hdisp].
  set (r1 := ingest_events env svc t1 batch w) in *.
  destruct (fst r1) as [resp|e]; [|done].
  rewrite Hs, drop_app_length in Hmsgs.
  assert (Hnew : forall event, event ∈ new_events_of t1 w batch
                   -> travels env event /\ valid_at t1 event).
  { intros event Hin. apply Hvalid. by apply list_elem_of_filter in Hin as [_ Hin]. }
  destruct (run_worker_published t1 (new_events_of t1 w batch) deliveries (snd r1)
              Hdrv Hnew Hmsgs Htimes) as [He Hd].
  cbv zeta in He, Hd. rewrite Hstore in He. rewrite Hdisp in Hd.
  assert (Hids : ids (events w ++ fresh_rows (events w) (new_events_of t1 w batch))
                 = ids (events w) ∪ ids (new_events_of t1 w batch))
    by apply fresh_rows_ids.
  split.
  { pose proof (run_worker_never_raises env deliveries (snd r1)) as Hr. done. }
  split; [done|]. split; [by rewrite He|]. split; [done|].
  intros Hnd. unfold get_event_count, Database.get_session, Database.visible.
  cbn [Database.committed Database.pending fst]. rewrite app_nil_r, He. f_equal.
  rewrite <- Hids. unfold ids, len.
  rewrite size_list_to_set by (by apply fresh_rows_NoDup).
  by rewrite length_map.
Qed.

Lemma mark_batch_lookup_key self now (d : gmap string Entry) (event_ids : list UUID) key :
  IdempotencyService.mark_batch_as_seen self now d event_ids !! key
  = if bool_decide (key ∈ map IdempotencyService._get_key event_ids)
    then after_set now (IdempotencyService.ttl self) d key
    else d !! key.
Proof.
  case_bool_decide as Hin.
  - apply elem_of_map_iff in Hin as (i & <- & Hin). rewrite mark_batch_lookup.
    by rewrite bool_decide_eq_true_2.
  - unfold IdempotencyService.mark_batch_as_seen. apply execute_lookup_other.
    apply Forall_forall. intros c Hc.
    apply elem_of_map_iff in Hc as (i & <- & Hi). cbn [key_of]. intros <-.
    apply Hin. by apply elem_of_map.
Qed.

Lemma mark_batch_same_ids self now (d : gmap string Entry) (ids1 ids2 : list UUID) :
  (forall i, i ∈ ids1 <-> i ∈ ids2) ->
  IdempotencyService.mark_batch_as_seen self now d ids1
  = IdempotencyService.mark_batch_as_seen self now d ids2.
Proof.
  intros Hsame. apply map_eq. intros key. rewrite !mark_batch_lookup_key.
  apply (f_equal (fun b : bool => if b then _ else _)). apply bool_decide_ext.
  rewrite !elem_of_map_iff. split; intros (i & Hk & Hi); exists i; split; auto;
    by apply Hsame.
Qed.

(** X18: the order of the events in a batch does not matter to the dedup
    cache nor to the answer. Two batches that hold the same events in
    different orders, sent at the same instant to the same state, leave
    the same cache, have the same new events up to order, and when both
    are answered the answers are equal and the streams hold the same
    messages up to order. *)
Theorem batch_order_is_irrelevant now batch batch' w :
  batch ≡ₚ batch' ->
  let r := ingest_events env svc now batch w in
  let r' := ingest_events env svc now batch' w in
  redis (snd r) = redis (snd r')
  /\ new_events_of now w batch ≡ₚ new_events_of now w batch'
  /\ match fst r, fst r' with
     | Ok resp, Ok resp' => resp = resp' /\ stream (snd r) ≡ₚ stream (snd r')
     | _, _ => True
     end.
Proof.
  intros Hperm. cbv zeta.
  assert (Hnew : new_events_of now w batch ≡ₚ new_events_of now w batch')
    by (unfold new_events_of; by rewrite Hperm).
  assert (Hnewlen : len (new_events_of now w batch) = len (new_events_of now w batch'))
    by (unfold len; by rewrite Hnew).
  assert (Hlen : len batch = len batch') by (unfold len; by rewrite Hperm).
  pose proof (check_batch_lengths now (redis w) batch) as Hl.
  pose proof (check_batch_lengths now (redis w) batch') as Hl'.
  pose proof (new_events_length now w batch) as Hn.
  pose proof (new_events_length now w batch') as Hn'.
  assert (Hdups : len (snd (fst (IdempotencyService.check_batch now (redis w)
                                   (map event_id batch))))
                  = len (snd (fst (IdempotencyService.check_batch now (redis w)
                                     (map event_id batch'))))) by lia.
  assert (Hmarks : redis (marked svc now batch w) = redis (marked svc now batch' w)).
  { unfold marked. cbn [redis set_redis]. apply mark_batch_same_ids. intros i.
    rewrite !check_batch_new. by rewrite Hperm. }
  pose proof (published_stream env svc now batch w) as Hs.
  pose proof (published_stream env svc now batch' w) as Hs'.
  cbv zeta in Hs, Hs'.
  rewrite !ingest_events_unfold in *. cbv zeta in *.
  destruct (new_events_of now w batch) as [|e1 new1] eqn:Hne;
    destruct (new_events_of now w batch') as [|e2 new2] eqn:Hne';
    try (by apply Permutation_nil_cons in Hnew);
    try (symmetry in Hnew; by apply Permutation_nil_cons in Hnew).
  - cbn [fst snd redis counted set_metrics]. split; [done|]. split; [done|].
    split; [by rewrite Hdups|]. cbn [stream]. done.
  - rewrite <- Hne, <- Hne' in *. clear Hne Hne' e1 e2 new1 new2.
    pose proof (publish_batch_frame env now
                  (map (NATSPublisher.model_dump env) (new_events_of now w batch))
                  (marked svc now batch w)) as Hf.
    pose proof (publish_batch_frame env now
                  (map (NATSPublisher.model_dump env) (new_events_of now w batch'))
                  (marked svc now batch' w)) as Hf'.
    cbv zeta in Hf, Hf'. destruct Hf as (Hr & _). destruct Hf' as (Hr' & _).
    destruct (NATSPublisher.publish_batch env now _ (marked svc now batch w))
      as [[u|e] w3];
      destruct (NATSPublisher.publish_batch env now _ (marked svc now batch' w))
        as [[u'|e'] w3'];
      cbn [fst snd redis set_metrics] in *;
      (split; [congruence|]); (split; [done|]); try done.
    split; [by rewrite Hnewlen, Hdups|].
    rewrite Hs, Hs'. by rewrite Hnew.
Qed.

End end_to_end_facts.

(** ** The route POST /events *)

Section route_facts.
Import Redis.
Context (settings : Settings) (env : Env).

Lemma is_allowed_seen_key self now (d : gmap string Entry) client_id i :
  snd (RateLimiter.is_allowed settings self now d client_id) !! IdempotencyService._get_key i
  = d !! IdempotencyService._get_key i.
Proof.
  destruct (rate_limit_enabled settings) eqn:Hen.
  - rewrite is_allowed_enabled by done. cbv zeta. cbn [snd].
    apply lookup_insert_ne. intros Heq. symmetry in Heq.
    by apply seen_key_ne_rate_key in Heq.
  - unfold RateLimiter.is_allowed. by rewrite Hen.
Qed.

Lemma get_set_header name value hs : get_header name (set_header name value hs) = Some value.
Proof.
  induction hs as [|[k v] hs IH]; cbn [set_header get_header].
  - by rewrite bool_decide_eq_true_2.
  - case_bool_decide as Hk; cbn [get_header].
    + by rewrite bool_decide_eq_true_2.
    + by rewrite bool_decide_eq_false_2.
Qed.

(** X19: a request to POST /events with a valid batch. Every response
    carries the header [X-RateLimit-Remaining] with the remaining quota
    that the rate-limit check computed. The status is 429 exactly when the
    check refuses: the handler is then not run, so nothing is published,
    nothing is marked in the dedup cache and no event is counted as
    received, while the refusal is counted for the client. Otherwise the
    handler runs on the state the check left, and the status is 202 with
    the handler's answer as body, or 500 when the handler failed. *)
Theorem post_events_behind_rate_limit now request batch w :
  let r := post_events settings env now request batch w in
  let checked := RateLimiter.is_allowed settings (RateLimiter.init settings) now
                   (redis w) (client_host request) in
  let handled := ingest_events env (idempotency_service settings) now batch
                   (set_redis (snd checked) w) in
  get_header "X-RateLimit-Remaining" (headers (fst r)) = Some (pretty (snd (fst checked)))
  /\ if fst (fst checked) then
       snd r = snd handled
       /\ match fst handled with
          | Ok response => status_code (fst r) = 202 /\ body (fst r) = inl response
          | Raise _ =>
              status_code (fst r) = 500 /\ body (fst r) = inr "Failed to process events"
          end
     else
       status_code (fst r) = 429
       /\ body (fst r) = inr "Rate limit exceeded. Please try again later."
       /\ stream (snd r) = stream w /\ events (snd r) = events w
       /\ (forall i, redis (snd r) !! IdempotencyService._get_key i
                     = redis w !! IdempotencyService._get_key i)
       /\ events_received_total (metrics (snd r)) = events_received_total (metrics w)
       /\ rate_limit_exceeded_total (metrics (snd r))
          = inc (client_host request) 1 (rate_limit_exceeded_total (metrics w)).
Proof.
  cbv zeta. unfold post_events, check_rate_limit.
  pose proof (fun i => is_allowed_seen_key (RateLimiter.init settings) now (redis w)
                         (client_host request) i) as Hseen.
  destruct (RateLimiter.is_allowed settings (RateLimiter.init settings) now (redis w)
              (client_host request)) as [[allowed remaining] d1].
  cbn [fst snd] in *. destruct allowed; cbn [negb].
  - pose proof (ingest_events_answer env (idempotency_service settings) now batch
                  (set_redis d1 w)) as Ha.
    destruct (ingest_events env (idempotency_service settings) now batch (set_redis d1 w))
      as [[response|e] w2]; cbn [fst snd] in *.
    + unfold dispatch. cbn [rate_limit_remaining headers status_code body fst snd].
      by rewrite get_set_header.
    + destruct Ha as [-> _]. unfold dispatch.
      cbn [rate_limit_remaining headers status_code body fst snd].
      by rewrite get_set_header.
  - unfold dispatch. cbn [rate_limit_remaining headers status_code body fst snd].
    rewrite get_set_header. by destruct w.
Qed.

End route_facts.

Lemma published_event_is_stored_as_sent_example :
  let event := mkEvent "e1" "user_1" "page_view" 5 [("page", JStr "/home")] in
  let msg := Json (NATSPublisher.model_dump sample_env event) in
  let r := Worker.process_event sample_env 10 msg empty_world in
  fst r = Ok tt
  /\ events (snd r) = events empty_world ++ [event]
  /\ dispositions (snd r) = dispositions empty_world ++ [(msg, Ack)]
  /\ events_ingested_total (metrics (snd r))
     = inc (event_type event) 1 (events_ingested_total (metrics empty_world)).
Proof.
  apply (published_event_is_stored_as_sent sample_env 10
           (mkEvent "e1" "user_1" "page_view" 5 [("page", JStr "/home")]) empty_world).
  - split; reflexivity.
  - split; [reflexivity|split; [reflexivity|simpl; lia]].
  - reflexivity.
  - simpl. apply not_elem_of_nil.
Defined.

Lemma failed_request_cannot_be_retried_example :
  let env := mkEnv (fun _ s _ => match s with [] => false | _ => true end)
                   (fun _ _ _ => false)
                   (to_uuid sample_env) (to_datetime sample_env)
                   (dump_datetime sample_env) in
  let svc := IdempotencyService.mk 86400 in
  let batch := [mkEvent "e1" "user_1" "page_view" 5 [];
                mkEvent "e2" "user_2" "purchase" 6 []] in
  let r1 := ingest_events env svc 10 batch empty_world in
  let r2 := ingest_events env svc 20 batch (snd r1) in
  let new := map (fun event => Json (NATSPublisher.model_dump env event))
                 (new_events_of 10 empty_world batch) in
  fst r1 = Raise (HTTPException 500 "Failed to process events" [])
  /\ fst r2 = Ok {| accepted := 0; duplicates := len batch; failed := 0;
                    message := "All events were duplicates" |}
  /\ stream (snd r2) = stream (snd r1)
  /\ exists k, (k < length new)%nat
               /\ stream (snd r2) = stream empty_world ++ take k new.
Proof.
  apply (failed_request_cannot_be_retried
           (mkEnv (fun _ s _ => match s with [] => false | _ => true end)
                  (fun _ _ _ => false)
                  (to_uuid sample_env) (to_datetime sample_env)
                  (dump_datetime sample_env))
           (IdempotencyService.mk 86400) 10 20).
  - simpl. lia.
  - vm_compute. reflexivity.
  - apply (bool_decide_unpack
             (map_Forall (fun _ e => Redis.is_live 10 e = true -> Redis.is_live 20 e = true) _)).
    vm_compute. exact I.
Defined.

Lemma accepted_events_reach_the_store_example :
  let svc := IdempotencyService.mk 86400 in
  let e1 := mkEvent "e1" "user_1" "page_view" 5 [] in
  let e2 := mkEvent "e2" "user_2" "purchase" 6 [] in
  let batch := [e1; e2; e1] in
  let w := set_events [mkEvent "e2" "user_2" "purchase" 6 []] empty_world in
  let deliveries := [(11, false, Json (NATSPublisher.model_dump sample_env e1));
                     (12, false, Json (NATSPublisher.model_dump sample_env e2));
                     (13, false, Json (NATSPublisher.model_dump sample_env e1))] in
  let r1 := ingest_events sample_env svc 10 batch w in
  let r2 := run_worker sample_env deliveries (snd r1) in
  fst r2 = Ok tt
  /\ events (snd r2) = events w ++ fresh_rows (events w) (new_events_of 10 w batch)
  /\ ids (events (snd r2)) = ids (events w) ∪ ids (new_events_of 10 w batch)
  /\ dispositions (snd r2) = dispositions w ++ map (fun d => (snd d, Ack)) deliveries
  /\ (NoDup (map event_id (events w)) ->
      fst (get_event_count (snd r2))
      = Ok (Z.of_nat (size (ids (events w) ∪ ids (new_events_of 10 w batch))))).
Proof.
  apply (accepted_events_reach_the_store sample_env (IdempotencyService.mk 86400) 10
           [mkEvent "e1" "user_1" "page_view" 5 []; mkEvent "e2" "user_2" "purchase" 6 [];
            mkEvent "e1" "user_1" "page_view" 5 []]
           (set_events [mkEvent "e2" "user_2" "purchase" 6 []] empty_world)).
  - simpl. lia.
  - vm_compute. reflexivity.
  - intros event Hin.
    repeat (apply elem_of_cons in Hin as [->|Hin];
            [split; [split; reflexivity|split; [reflexivity|split; [reflexivity|simpl; lia]]]|]).
    by apply elem_of_nil in Hin.
  - reflexivity.
  - vm_compute. reflexivity.
  - repeat constructor; simpl; lia.
Defined.

Lemma batch_order_is_irrelevant_example :
  let svc := IdempotencyService.mk 86400 in
  let e1 := mkEvent "e1" "user_1" "page_view" 5 [] in
  let e2 := mkEvent "e2" "user_2" "purchase" 6 [] in
  let r := ingest_events sample_env svc 10 [e1; e2] empty_world in
  let r' := ingest_events sample_env svc 10 [e2; e1] empty_world in
  redis (snd r) = redis (snd r')
  /\ new_events_of 10 empty_world [e1; e2] ≡ₚ new_events_of 10 empty_world [e2; e1]
  /\ match fst r, fst r' with
     | Ok resp, Ok resp' => resp = resp' /\ stream (snd r) ≡ₚ stream (snd r')
     | _, _ => True
     end.
Proof.
  apply (batch_order_is_irrelevant sample_env (IdempotencyService.mk 86400) 10
           [mkEvent "e1" "user_1" "page_view" 5 []; mkEvent "e2" "user_2" "purchase" 6 []]
           [mkEvent "e2" "user_2" "purchase" 6 []; mkEvent "e1" "user_1" "page_view" 5 []]).
  apply perm_swap.
Defined.

(** ** Inserting and submitting again *)

Section repeat_facts.
Import Database EventService.
Context (env : Env).

Lemma fresh_rows_none seen evs :
  (forall event, event ∈ evs -> event_id event ∈ map event_id seen) ->
  fresh_rows seen evs = [].
Proof.
  induction evs as [|event evs IH]; intros Hin; [done|]. cbn [fresh_rows].
  rewrite bool_decide_eq_true_2 by (apply Hin; by left).
  apply IH. intros event' Hin'. apply Hin. by right.
Qed.

Lemma insert_loop_returns t evs :
  (forall t rows event, driver_fails env t rows event = false) ->
  forall s inserted duplicates,
    is_ok (fst (insert_loop env t evs inserted duplicates s)) = true.
Proof.
  intros Hdrv. induction evs as [|event evs IH]; intros s n m; [done|].
  rewrite insert_loop_cons, Hdrv. case_bool_decide; apply IH.
Qed.

(** X20: inserting the same events again changes nothing. With a driver
    that carries out every insert, a second call of [insert_events] with
    the events of a first call, in a session of its own at any later
    time, inserts no row, reports every event as a duplicate and leaves
    the store as the first call left it. *)
Theorem insert_events_twice now now' evs w :
  (forall t rows event, driver_fails env t rows event = false) ->
  let r1 := get_session (insert_events env now evs) w in
  let r2 := get_session (insert_events env now' evs) (snd r1) in
  is_ok (fst r1) = true
  /\ fst r2 = Ok (0, len evs)
  /\ events (snd r2) = events (snd r1).
Proof.
  intros Hdrv. cbv zeta.
  assert (Hrun : forall t w0,
            get_session (insert_events env t evs) w0
            = (Ok (len (fresh_rows (events w0) evs),
                   len evs - len (fresh_rows (events w0) evs)),
               set_events (events w0 ++ fresh_rows (events w0) evs) w0)).
  { intros t w0. rewrite insert_events_session.
    pose proof (insert_loop_spec env t evs {| committed := events w0; pending := [] |} 0 0)
      as Hspec.
    cbv zeta in Hspec. destruct Hspec as [Hc Hres].
    destruct (insert_loop env t evs 0 0 _) as [[[inserted duplicates]|e] s] eqn:Hloop;
      cbn [fst snd] in *.
    - destruct Hres as (Hp & Hi & Hsum). unfold visible in *.
      cbn [committed pending] in *. rewrite app_nil_r in *.
      rewrite Hc, Hp. cbn [app]. do 2 f_equal. f_equal; lia.
    - pose proof (insert_loop_returns t evs Hdrv {| committed := events w0; pending := [] |}
                    0 0) as Hok.
      by rewrite Hloop in Hok. }
  rewrite !Hrun. cbn [fst snd events set_events is_ok]. split; [done|].
  assert (Hnone : fresh_rows (events w ++ fresh_rows (events w) evs) evs = []).
  { apply fresh_rows_none. intros event Hin. apply elem_of_ids.
    rewrite fresh_rows_ids. apply elem_of_union_r, elem_of_ids. by apply elem_of_map. }
  rewrite Hnone, app_nil_r. split; [|done]. do 2 f_equal. unfold len at 2. cbn. lia.
Qed.

End repeat_facts.

Lemma insert_events_twice_example :
  let evs := [mkEvent "0b" "u1" "view" 2 []; mkEvent "0c" "u2" "view" 3 [];
              mkEvent "0b" "u1" "view" 2 []] in
  let r1 := Database.get_session (EventService.insert_events sample_env 10 evs) empty_world in
  let r2 := Database.get_session (EventService.insert_events sample_env 20 evs) (snd r1) in
  is_ok (fst r1) = true
  /\ fst r2 = Ok (0, len evs)
  /\ events (snd r2) = events (snd r1).
Proof.
  apply (insert_events_twice sample_env 10 20). reflexivity.
Defined.

Section within_batch_facts.
Import Redis.
Context (env : Env) (svc : IdempotencyService.t).

Lemma filter_all {A} (P : A -> Prop) `{!forall x, Decision (P x)} (l : list A) :
  (forall x, x ∈ l -> P x) -> filter P l = l.
Proof.
  induction l as [|x l IH]; intros HP; [done|].
  rewrite filter_cons_True by (apply HP; by left).
  f_equal. apply IH. intros y Hy. apply HP. by right.
Qed.

(** X21: the cache is asked once for the whole batch, before anything is
    marked, so an identifier that is repeated within a batch and is new at
    that instant is new for each of its copies. When the TTL is positive,
    no identifier of a non-empty batch is in the cache and the broker
    refuses nothing, the
    request accepts every event of the batch, repeated ones included,
    reports no duplicate, and publishes one message per event in the order
    of the batch. *)
Theorem repeats_within_a_batch_are_accepted now batch w :
  0 < IdempotencyService.ttl svc ->
  batch <> [] ->
  (forall event, event ∈ batch ->
     fst (IdempotencyService.is_duplicate now (redis w) (event_id event)) = false) ->
  (forall s p, js_fails env now s p = false) ->
  let r := ingest_events env svc now batch w in
  fst r = Ok {| accepted := len batch; duplicates := 0; failed := 0;
                message := "Accepted " +:+ pretty (len batch) +:+ " events for processing" |}
  /\ stream (snd r)
     = stream w ++ map (fun event => Json (NATSPublisher.model_dump env event)) batch.
Proof.
  intros _ Hne Hnew Hjs. cbv zeta.
  assert (Hall : new_events_of now w batch = batch) by (by apply filter_all).
  pose proof (check_batch_lengths now (redis w) batch) as Hl.
  pose proof (new_events_length now w batch) as Hn. rewrite Hall in Hn.
  rewrite ingest_events_unfold. cbv zeta. rewrite Hall.
  destruct batch as [|event batch]; [done|].
  rewrite publish_batch_ok by done. cbn [fst snd stream set_stream marked set_redis counted
                                         set_metrics].
  split; [|by rewrite List.map_map].
  do 2 f_equal. lia.
Qed.

End within_batch_facts.

Lemma repeats_within_a_batch_are_accepted_example :
  let svc := IdempotencyService.mk 86400 in
  let batch := [mkEvent "e1" "user_1" "page_view" 5 [];
                mkEvent "e1" "user_1" "page_view" 5 [];
                mkEvent "e2" "user_2" "purchase" 6 []] in
  let r := ingest_events sample_env svc 10 batch empty_world in
  fst r = Ok {| accepted := len batch; duplicates := 0; failed := 0;
                message := "Accepted " +:+ pretty (len batch) +:+ " events for processing" |}
  /\ stream (snd r)
     = stream empty_world
       ++ map (fun event => Json (NATSPublisher.model_dump sample_env event)) batch.
Proof.
  apply (repeats_within_a_batch_are_accepted sample_env (IdempotencyService.mk 86400) 10
           [mkEvent "e1" "user_1" "page_view" 5 []; mkEvent "e1" "user_1" "page_view" 5 [];
            mkEvent "e2" "user_2" "purchase" 6 []] empty_world).
  - simpl. lia.
  - discriminate.
  - intros event _. reflexivity.
  - reflexivity.
Defined.

(** ** A burst of checks *)

Section burst_facts.
Import Redis RateLimiter.

Lemma paced_counted settings client_id history : forall (d : gmap string Entry) last e,
  rate_limit_enabled settings = true ->
  paced (rate_limit_window settings) client_id last history ->
  d !! _get_key client_id = Some e ->
  expires_at e = Some (last + rate_limit_window settings) ->
  let_through settings client_id history d
  = Z.max 0 (Z.min (checks_of client_id history) (rate_limit_requests settings - value e)).
Proof.
  induction history as [|[t c] history IH]; intros d last e Hen Hp Hd Hx.
  - cbn [let_through]. change (checks_of client_id []) with 0. lia.
  - cbn [paced] in Hp. destruct Hp as [Ht Hp]. cbn [let_through].
    rewrite checks_of_cons.
    pose proof (checks_of_nonneg client_id history) as Hnn.
    pose proof (call_rate_key settings t c d client_id) as Hcall. rewrite Hen in Hcall.
    rewrite allowed_iff by done.
    rewrite (next_count_live client_id t d e _ Hd Hx Ht) in *.
    destruct (is_check_of client_id c) eqn:Hc; cbn [andb] in Hcall |- *.
    + rewrite (IH (call settings t c d) t _ Hen Hp Hcall eq_refl). cbn [value].
      destruct (Z.leb_spec (value e + 1) (rate_limit_requests settings)); lia.
    + rewrite Hd in Hcall. rewrite (IH (call settings t c d) last e Hen Hp Hcall Hx). lia.
Qed.

(** X22: a burst from a cold start. When a client that has no live counter
    starts a series of checks, each less than [window] seconds after its
    previous one, the first [max_requests] of them are let through and
    every later one is refused, however long the series lasts: with [n]
    checks in the series, [min n max_requests] are let through. *)
Theorem paced_burst_lets_through_the_limit settings client_id t0
    (d : gmap string Entry) history :
  rate_limit_enabled settings = true ->
  0 <= rate_limit_requests settings ->
  lookup_live t0 d (_get_key client_id) = None ->
  paced (rate_limit_window settings) client_id t0 history ->
  let series := (t0, IsAllowed client_id) :: history in
  let_through settings client_id series d
  = Z.min (checks_of client_id series) (rate_limit_requests settings).
Proof.
  intros Hen Hmx Hcold Hp. cbv zeta. cbn [let_through]. rewrite checks_of_cons.
  pose proof (checks_of_nonneg client_id history) as Hnn.
  pose proof (call_rate_key settings t0 (IsAllowed client_id) d client_id) as Hcall.
  rewrite Hen in Hcall. cbn [is_check_of] in Hcall |- *.
  rewrite bool_decide_eq_true_2 in Hcall |- * by done. cbn [andb] in Hcall |- *.
  rewrite allowed_iff by done.
  assert (Hone : next_count t0 d (_get_key client_id) = 1)
    by (unfold next_count; by rewrite Hcold).
  rewrite Hone in *.
  rewrite (paced_counted settings client_id history _ t0 _ Hen Hp Hcall eq_refl).
  cbn [value].
  destruct (Z.leb_spec 1 (rate_limit_requests settings)); lia.
Qed.

Lemma paced_burst_lets_through_the_limit_example :
  let settings := mkSettings 86400 true 2 60 in
  let history := [(30, IsAllowed "10.0.0.1"); (80, IsAllowed "10.0.0.1");
                  (90, IsAllowed "10.0.0.2"); (130, IsAllowed "10.0.0.1")] in
  let series := (0, IsAllowed "10.0.0.1") :: history in
  let_through settings "10.0.0.1" series ∅
  = Z.min (checks_of "10.0.0.1" series) (rate_limit_requests settings).
Proof.
  apply (paced_burst_lets_through_the_limit (mkSettings 86400 true 2 60) "10.0.0.1" 0 ∅
           [(30, IsAllowed "10.0.0.1"); (80, IsAllowed "10.0.0.1");
            (90, IsAllowed "10.0.0.2"); (130, IsAllowed "10.0.0.1")]).
  - reflexivity.
  - simpl. lia.
  - reflexivity.
  - cbn. repeat split; lia.
Defined.

End burst_facts.

(** ** The CSV import *)

Section import_facts.
Import Database.
Context (env : Env) (now : Z).
Context (Hdrv : forall t rows event, driver_fails env t rows event = false).

Lemma fresh_rows_app evs1 evs2 : forall seen,
  fresh_rows seen (evs1 ++ evs2)
  = fresh_rows seen evs1 ++ fresh_rows (seen ++ fresh_rows seen evs1) evs2.
Proof.
  induction evs1 as [|event evs1 IH]; intros seen; cbn [app fresh_rows].
  - by rewrite app_nil_r.
  - case_bool_decide; [apply IH|].
    rewrite IH. cbn [app]. by rewrite <- app_assoc.
Qed.

Lemma fresh_rows_length_le evs : forall seen, len (fresh_rows seen evs) <= len evs.
Proof.
  intros seen. unfold len. apply inj_le, sublist_length, fresh_rows_sublist.
Qed.

Lemma insert_events_run evs s :
  pending s = [] ->
  EventService.insert_events env now evs s
  = (Ok (len (fresh_rows (committed s) evs),
         len evs - len (fresh_rows (committed s) evs)),
     {| committed := committed s ++ fresh_rows (committed s) evs; pending := [] |}).
Proof.
  intros Hp. unfold EventService.insert_events, bind, commit, modify, ret.
  pose proof (insert_loop_spec env now evs s 0 0) as Hspec. cbv zeta in Hspec.
  pose proof (insert_loop_returns env now evs Hdrv s 0 0) as Hok.
  destruct Hspec as [Hc Hres]. unfold visible in Hres. rewrite Hp in Hres.
  rewrite app_nil_r in Hres. cbn [app] in Hres.
  destruct (EventService.insert_loop env now evs 0 0 s) as [[[inserted duplicates]|e] s1];
    cbn [fst snd is_ok] in *; [|done].
  destruct Hres as (Hp1 & Hi & Hsum). rewrite Hc, Hp1. do 2 f_equal. f_equal; lia.
Qed.

Lemma parsed_events_unparsable rows :
  parsed_events (ImportEvents.Unparsable :: rows) = parsed_events rows.
Proof. reflexivity. Qed.

Lemma parsed_events_parsed event rows :
  parsed_events (ImportEvents.Parsed event :: rows) = event :: parsed_events rows.
Proof. reflexivity. Qed.

Lemma import_rows_spec batch_size base rows : forall acc s done,
  pending s = [] ->
  committed s = base ++ fresh_rows base done ->
  ImportEvents.total_imported acc = len (fresh_rows base done) ->
  ImportEvents.total_imported acc + ImportEvents.total_duplicates acc = len done ->
  let r := ImportEvents.import_rows env now batch_size rows acc s in
  exists done',
    pending (snd r) = []
    /\ done' ++ ImportEvents.batch (fst r) = done ++ ImportEvents.batch acc ++ parsed_events rows
    /\ committed (snd r) = base ++ fresh_rows base done'
    /\ ImportEvents.total_imported (fst r) = len (fresh_rows base done')
    /\ ImportEvents.total_imported (fst r) + ImportEvents.total_duplicates (fst r) = len done'
    /\ ImportEvents.total_failed (fst r)
       = ImportEvents.total_failed acc + (len rows - len (parsed_events rows)).
Proof.
  induction rows as [|row rows IH]; intros acc s done Hp Hc Hi Hsum; cbv zeta.
  { exists done. cbn [ImportEvents.import_rows fst snd].
    change (parsed_events []) with (@nil EventCreate).
    rewrite !app_nil_r. repeat split; try done. unfold len. cbn [length]. lia. }
  cbn [ImportEvents.import_rows]. unfold ImportEvents.import_row.
  destruct row as [|event]; cbn [ImportEvents.parse_csv_row].
  - destruct (IH (ImportEvents.mkTotals (ImportEvents.batch acc)
                    (ImportEvents.total_imported acc) (ImportEvents.total_duplicates acc)
                    (ImportEvents.total_failed acc + 1)) s done Hp Hc Hi Hsum)
      as (done' & H1 & H2 & H3 & H4 & H5 & H6).
    cbv zeta in H1, H2, H3, H4, H5, H6. exists done'.
    cbn [ImportEvents.batch ImportEvents.total_failed] in *.
    split; [done|]. split; [by rewrite parsed_events_unparsable|].
    split; [done|]. split; [done|]. split; [done|].
    rewrite H6, parsed_events_unparsable. unfold len. cbn [length]. lia.
  - cbv zeta. destruct (batch_size <=? len (ImportEvents.batch acc ++ [event])).
    + rewrite insert_events_run by done. rewrite Hc.
      set (chunk := ImportEvents.batch acc ++ [event]).
      assert (Hfresh : fresh_rows base (done ++ chunk)
                       = fresh_rows base done
                         ++ fresh_rows (base ++ fresh_rows base done) chunk)
        by apply fresh_rows_app.
      pose proof (fresh_rows_length_le chunk (base ++ fresh_rows base done)) as Hle.
      destruct (IH (ImportEvents.mkTotals []
                      (ImportEvents.total_imported acc
                       + len (fresh_rows (base ++ fresh_rows base done) chunk))
                      (ImportEvents.total_duplicates acc
                       + (len chunk - len (fresh_rows (base ++ fresh_rows base done) chunk)))
                      (ImportEvents.total_failed acc))
                  {| committed := (base ++ fresh_rows base done)
                                  ++ fresh_rows (base ++ fresh_rows base done) chunk;
                     pending := [] |}
                  (done ++ chunk))
        as (done' & H1 & H2 & H3 & H4 & H5 & H6).
      * done.
      * cbn [committed]. by rewrite Hfresh, app_assoc.
      * cbn [ImportEvents.total_imported]. rewrite Hfresh, Hi. unfold len.
        rewrite length_app. lia.
      * cbn [ImportEvents.total_imported ImportEvents.total_duplicates].
        unfold len in *. rewrite length_app. lia.
      * cbv zeta in H1, H2, H3, H4, H5, H6. exists done'.
        cbn [ImportEvents.batch ImportEvents.total_failed] in *.
        split; [done|]. split.
        { rewrite H2, parsed_events_parsed. unfold chunk. cbn [app].
          by rewrite <- !app_assoc. }
        split; [done|]. split; [done|]. split; [done|].
        rewrite H6, parsed_events_parsed. unfold len. cbn [length]. lia.
    + destruct (IH (ImportEvents.mkTotals (ImportEvents.batch acc ++ [event])
                      (ImportEvents.total_imported acc) (ImportEvents.total_duplicates acc)
                      (ImportEvents.total_failed acc)) s done Hp Hc Hi Hsum)
        as (done' & H1 & H2 & H3 & H4 & H5 & H6).
      cbv zeta in H1, H2, H3, H4, H5, H6. exists done'.
      cbn [ImportEvents.batch ImportEvents.total_failed] in *.
      split; [done|]. split.
      { rewrite H2, parsed_events_parsed. cbn [app]. by rewrite <- !app_assoc. }
      split; [done|]. split; [done|]. split; [done|].
      rewrite H6, parsed_events_parsed. unfold len. cbn [length]. lia.
Qed.

(** X23: the batch size of the import is transparent. With a driver that
    carries out every insert, the import of the rows of a file returns
    totals that add up to the number of rows, whatever the batch size:
    the failures are the rows that do not parse, the imported events are
    the first events of each identifier that parses and was not in the
    store, the other parsed rows are duplicates, and the store holds its
    former rows followed by the imported ones in the order of the file. *)
Theorem import_totals_add_up rows batch_size w :
  let r := ImportEvents.import_events_from_csv env now rows batch_size w in
  let imported := fresh_rows (events w) (parsed_events rows) in
  fst r = Ok (len imported,
              len (parsed_events rows) - len imported,
              len rows - len (parsed_events rows))
  /\ events (snd r) = events w ++ imported
  /\ len imported = Z.of_nat (size (ids (parsed_events rows) ∖ ids (events w))).
Proof.
  cbv zeta. unfold ImportEvents.import_events_from_csv, get_session.
  pose proof (import_rows_spec batch_size (events w) rows (ImportEvents.mkTotals [] 0 0 0)
                {| committed := events w; pending := [] |} []) as Hspec.
  cbv zeta in Hspec. destruct Hspec as (done' & Hp & Hd & Hc & Hi & Hsum & Hf);
    [done|cbn; by rewrite app_nil_r|done|done|].
  cbn [ImportEvents.batch ImportEvents.total_failed app] in Hd, Hf.
  destruct (ImportEvents.import_rows env now batch_size rows _ _) as [acc s1].
  cbn [fst snd] in *.
  split; [|split].
  - destruct (ImportEvents.batch acc) as [|event rest] eqn:Hb.
    + rewrite app_nil_r in Hd. subst done'. cbn [fst]. do 2 f_equal; [f_equal|]; lia.
    + rewrite <- Hb in *. clear Hb event rest.
      rewrite insert_events_run by done. cbn [fst]. rewrite Hc.
      pose proof (fresh_rows_app done' (ImportEvents.batch acc) (events w)) as Hfresh.
      rewrite Hd in Hfresh. rewrite Hfresh.
      assert (Hlen : len (parsed_events rows) = len done' + len (ImportEvents.batch acc))
        by (rewrite <- Hd; unfold len; rewrite length_app; lia).
      unfold len in *. rewrite length_app. do 2 f_equal; [f_equal|]; lia.
  - destruct (ImportEvents.batch acc) as [|event rest] eqn:Hb.
    + rewrite app_nil_r in Hd. subst done'. cbn [snd events set_events close committed].
      by rewrite Hc.
    + rewrite <- Hb in *. clear Hb event rest.
      rewrite insert_events_run by done.
      cbn [snd events set_events close committed]. rewrite Hc.
      pose proof (fresh_rows_app done' (ImportEvents.batch acc) (events w)) as Hfresh.
      rewrite Hd in Hfresh. by rewrite Hfresh, app_assoc.
  - unfold len. f_equal. apply fresh_rows_size.
Qed.

End import_facts.

Lemma import_totals_add_up_example :
  let rows := [ImportEvents.Parsed (mkEvent "e1" "user_1" "page_view" 5 []);
               ImportEvents.Unparsable;
               ImportEvents.Parsed (mkEvent "e2" "user_2" "purchase" 6 []);
               ImportEvents.Parsed (mkEvent "e1" "user_1" "page_view" 5 []);
               ImportEvents.Parsed (mkEvent "e3" "user_1" "click" 7 [])] in
  let w := set_events [mkEvent "e2" "user_2" "purchase" 6 []] empty_world in
  let r := ImportEvents.import_events_from_csv sample_env 10 rows 2 w in
  let imported := fresh_rows (events w) (parsed_events rows) in
  fst r = Ok (len imported,
              len (parsed_events rows) - len imported,
              len rows - len (parsed_events rows))
  /\ events (snd r) = events w ++ imported
  /\ len imported = Z.of_nat (size (ids (parsed_events rows) ∖ ids (events w))).
Proof.
  apply (import_totals_add_up sample_env 10). reflexivity.
Defined.

Section import_failure_facts.
Import Database.
Context (env : Env) (now : Z).
Context (Hdrv : forall t rows event, driver_fails env t rows event = true).

Lemma insert_events_refused evs s :
  evs <> [] -> EventService.insert_events env now evs s = (Raise DriverError, s).
Proof.
  intros Hne. destruct evs as [|event evs]; [done|].
  unfold EventService.insert_events, bind. by rewrite insert_loop_cons, Hdrv.
Qed.

Lemma import_rows_refused batch_size rows : forall acc s,
  let r := ImportEvents.import_rows env now batch_size rows acc s in
  let p := len (parsed_events rows) in
  snd r = s
  /\ ImportEvents.batch (fst r) = ImportEvents.batch acc ++ parsed_events rows
  /\ ImportEvents.total_imported (fst r) = ImportEvents.total_imported acc
  /\ ImportEvents.total_duplicates (fst r) = ImportEvents.total_duplicates acc
  /\ ImportEvents.total_failed (fst r)
     = ImportEvents.total_failed acc + (len rows - p)
       + Z.max 0 (Z.min p (len (ImportEvents.batch acc) + p - batch_size + 1)).
Proof.
  induction rows as [|row rows IH]; intros acc s; cbv zeta.
  { cbn [ImportEvents.import_rows fst snd].
    change (parsed_events []) with (@nil EventCreate).
    rewrite app_nil_r. repeat split; try done. unfold len. cbn [length]. lia. }
  cbn [ImportEvents.import_rows]. unfold ImportEvents.import_row.
  destruct row as [|event]; cbn [ImportEvents.parse_csv_row].
  - destruct (IH (ImportEvents.mkTotals (ImportEvents.batch acc)
                    (ImportEvents.total_imported acc) (ImportEvents.total_duplicates acc)
                    (ImportEvents.total_failed acc + 1)) s) as (H1 & H2 & H3 & H4 & H5).
    cbv zeta in H1, H2, H3, H4, H5.
    cbn [ImportEvents.batch ImportEvents.total_failed ImportEvents.total_imported
         ImportEvents.total_duplicates] in *.
    rewrite parsed_events_unparsable.
    split; [done|]. split; [done|]. split; [done|]. split; [done|].
    rewrite H5. unfold len. cbn [length]. lia.
  - cbv zeta. rewrite parsed_events_parsed.
    assert (Hlen : len (ImportEvents.batch acc ++ [event]) = len (ImportEvents.batch acc) + 1)
      by (unfold len; rewrite length_app; cbn [length]; lia).
    assert (Hnn : 0 <= len (ImportEvents.batch acc) /\ 0 <= len (parsed_events rows))
      by (unfold len; lia).
    destruct (Z.leb_spec batch_size (len (ImportEvents.batch acc ++ [event]))) as [Hfull|Hroom].
    + rewrite insert_events_refused by (by destruct (ImportEvents.batch acc)).
      destruct (IH (ImportEvents.mkTotals (ImportEvents.batch acc ++ [event])
                      (ImportEvents.total_imported acc) (ImportEvents.total_duplicates acc)
                      (ImportEvents.total_failed acc + 1)) s) as (H1 & H2 & H3 & H4 & H5).
      cbv zeta in H1, H2, H3, H4, H5.
      cbn [ImportEvents.batch ImportEvents.total_failed ImportEvents.total_imported
           ImportEvents.total_duplicates] in *.
      split; [done|]. split; [by rewrite H2, <- app_assoc|].
      split; [done|]. split; [done|].
      rewrite H5, Hlen. unfold len in *. cbn [length]. lia.
    + destruct (IH (ImportEvents.mkTotals (ImportEvents.batch acc ++ [event])
                      (ImportEvents.total_imported acc) (ImportEvents.total_duplicates acc)
                      (ImportEvents.total_failed acc)) s) as (H1 & H2 & H3 & H4 & H5).
      cbv zeta in H1, H2, H3, H4, H5.
      cbn [ImportEvents.batch ImportEvents.total_failed ImportEvents.total_imported
           ImportEvents.total_duplicates] in *.
      split; [done|]. split; [by rewrite H2, <- app_assoc|].
      split; [done|]. split; [done|].
      rewrite H5, Hlen. unfold len in *. cbn [length]. lia.
Qed.

(** X24: the failures of the import can exceed the rows of the file. An
    insert that raises inside the loop is counted as one failure and
    leaves its events in the batch, and the final insert counts every
    event left in the batch as failed. So with a driver that refuses
    every insert, nothing is imported and the store is unchanged, but the
    failed total is the number of rows plus one for every parsed row that
    found the batch full: the three totals add up to more than the rows
    of the file as soon as [batch_size] rows parse. *)
Theorem import_failures_are_counted_twice rows batch_size w :
  let r := ImportEvents.import_events_from_csv env now rows batch_size w in
  let p := len (parsed_events rows) in
  fst r = Ok (0, 0, len rows + Z.max 0 (Z.min p (p - batch_size + 1)))
  /\ events (snd r) = events w.
Proof.
  cbv zeta. unfold ImportEvents.import_events_from_csv, get_session.
  pose proof (import_rows_refused batch_size rows (ImportEvents.mkTotals [] 0 0 0)
                {| committed := events w; pending := [] |}) as Hspec.
  cbv zeta in Hspec. destruct Hspec as (Hs & Hb & Hi & Hd & Hf).
  cbn [ImportEvents.batch ImportEvents.total_failed ImportEvents.total_imported
       ImportEvents.total_duplicates app] in *.
  change (len []) with 0 in Hf.
  destruct (ImportEvents.import_rows env now batch_size rows _ _) as [acc s1].
  cbn [fst snd] in *. subst s1.
  destruct (ImportEvents.batch acc) as [|event rest] eqn:Hbatch.
  - cbn [fst snd events set_events close committed]. rewrite Hi, Hd, Hf, <- Hb.
    split; [|by destruct w]. unfold len. cbn [length]. do 2 f_equal. lia.
  - rewrite insert_events_refused by done.
    cbn [fst snd events set_events close committed]. rewrite Hi, Hd, Hf, <- Hb.
    split; [|by destruct w]. do 2 f_equal. lia.
Qed.

End import_failure_facts.

Lemma import_failures_are_counted_twice_example :
  let env := mkEnv (fun _ _ _ => false) (fun _ _ _ => true)
                   (to_uuid sample_env) (to_datetime sample_env)
                   (dump_datetime sample_env) in
  let rows := [ImportEvents.Parsed (mkEvent "e1" "user_1" "page_view" 5 []);
               ImportEvents.Unparsable;
               ImportEvents.Parsed (mkEvent "e2" "user_2" "purchase" 6 []);
               ImportEvents.Parsed (mkEvent "e3" "user_1" "click" 7 [])] in
  let r := ImportEvents.import_events_from_csv env 10 rows 2 empty_world in
  let p := len (parsed_events rows) in
  fst r = Ok (0, 0, len rows + Z.max 0 (Z.min p (p - 2 + 1)))
  /\ events (snd r) = events empty_world.
Proof.
  apply (import_failures_are_counted_twice
           (mkEnv (fun _ _ _ => false) (fun _ _ _ => true)
                  (to_uuid sample_env) (to_datetime sample_env)
                  (dump_datetime sample_env)) 10).
  reflexivity.
Defined.
